(** * local_store: the local-disk storage source of WiredTiger

    A shallow embedding of [ext/storage_sources/local_store/local_store.c]
    and the properties of its path codec, location validation, object
    materialisation protocol, flush queue and listing engine.

    Conventions of the embedding.
    - C [int] results ([ret]) are [Z]; [0] is success.
    - [uint64_t] and [uint32_t] counters are [Z] with the wrap-around written
      out at every increment.
    - C strings are [string]; a [char *] that may be [NULL] is an
      [option string].
    - The TAILQ queues are lists, head first.
    - The operating system is the deterministic model of [Module Posix]:
      directories with their entries in enumeration order, inodes with their
      bytes, a descriptor table, [errno], and a log of the system calls made.
      A path names a file (an entry of a directory) or a directory, never
      both; the code makes no directory, and its objects are files.  The
      calls are made with the privileges they need and the resources are
      there: a lookup fails with [ENOENT] or [ENOTDIR] only, and no call fails
      with [EACCES], [EMFILE], [ENOSPC], [EINTR] or [EIO].
    - [malloc], [calloc], [realloc], [strdup] and the [pthread_rwlock] calls
      succeed; the branches that handle their failure are not part of the
      model.  [size_t] has 64 bits.
    - A dereference of a [NULL] pointer in user code, or a store outside an
      allocated array, is the outcome [Fault]. *)

From Stdlib Require Import ZArith List String Ascii Bool Lia DecimalString.
From Stdlib.Init Require Import Byte.
Import ListNotations.

Local Open Scope string_scope.
Local Open Scope list_scope.
Local Open Scope Z_scope.

(** ** Outcomes: a result, or a fault of the C program *)

Inductive outcome (A : Type) : Type :=
| Done (a : A)
| Fault.

Arguments Done {A} a.
Arguments Fault {A}.

Definition bind {A B : Type} (m : outcome A) (k : A -> outcome B) : outcome B :=
  match m with
  | Done a => k a
  | Fault => Fault
  end.

Notation "' p <- m ;; k" := (bind m (fun p => k))
  (at level 61, p pattern, m at next level, right associativity).

(** ** Fixed-width counters *)

Definition UINT32_MAX : Z := 2 ^ 32 - 1.

Definition incr64 (x : Z) : Z := (x + 1) mod 2 ^ 64.
Definition incr32 (x : Z) : Z := (x + 1) mod 2 ^ 32.

(** ** <errno.h> (Linux values) *)

Definition ENOENT : Z := 2.
Definition EBADF : Z := 9.
Definition EFAULT : Z := 14.
Definition ENOTDIR : Z := 20.
Definition EISDIR : Z := 21.
Definition EINVAL : Z := 22.
Definition ENETUNREACH : Z := 101.

(** ** <string.h> on C strings *)

Module CString.

Definition strlen (s : string) : nat := String.length s.

(** [strcmp (a, b) == 0] *)
Definition strcmp_eq (a b : string) : bool := String.eqb a b.

(** [strncmp (a, b, n) == 0]: at most [n] characters are compared, and the
    comparison stops at the end of the strings. *)
Fixpoint strncmp_eq (a b : string) (n : nat) : bool :=
  match n with
  | O => true
  | S n' =>
      match a, b with
      | EmptyString, EmptyString => true
      | String c1 a', String c2 b' =>
          if Ascii.eqb c1 c2 then strncmp_eq a' b' n' else false
      | _, _ => false
      end
  end.

(** [strstr (hay, needle)]: the tail of [hay] that starts at the first
    occurrence of [needle], [None] for [NULL]. *)
Fixpoint strstr (hay needle : string) : option string :=
  if String.prefix needle hay then Some hay
  else match hay with
       | EmptyString => None
       | String _ hay' => strstr hay' needle
       end.

(** [strrchr (s, c)]: the tail of [s] that starts at the last occurrence of
    [c]. *)
Fixpoint strrchr (s : string) (c : ascii) : option string :=
  match s with
  | EmptyString => None
  | String d s' =>
      match strrchr s' c with
      | Some t => Some t
      | None => if Ascii.eqb d c then Some s else None
      end
  end.

(** [s + n] for a pointer into a string of at least [n] characters. *)
Fixpoint advance (n : nat) (s : string) : string :=
  match n, s with
  | O, _ => s
  | S n', String _ s' => advance n' s'
  | S _, EmptyString => EmptyString
  end.

(** The characters of [set] that occur in [s] (what [strpbrk] looks for). *)
Fixpoint mem (c : ascii) (s : string) : bool :=
  match s with
  | EmptyString => false
  | String d s' => Ascii.eqb c d || mem c s'
  end.

End CString.

(** ** The operating system *)

Module Posix.

Definition O_RDONLY : Z := 0.
Definition O_WRONLY : Z := 1.
Definition O_CREAT : Z := 64.
Definition O_DIRECTORY : Z := 65536.

Inductive event : Type :=
| EvOpen (path : string) (oflags mode : Z) (res : Z)
| EvClose (fd : Z) (res : Z)
| EvUnlink (path : option string) (res : Z)
| EvRename (old new : string) (res : Z)
| EvSelect (sec usec : Z)
| EvOpendir (path : string) (res : Z)
| EvPread (fd : Z) (len offset : Z) (res : Z)
| EvPwrite (fd : Z) (len offset : Z) (res : Z).

(** A directory entry: name and inode number. *)
Definition dirent : Type := (string * nat)%type.

Record open_file : Type := mk_open_file {
  of_ino : nat;
  of_flags : Z
}.

Record world : Type := mk_world {
  w_dirs : list (string * list dirent); (* directory path -> entries, in enumeration order *)
  w_data : list (list byte);            (* inode number -> contents *)
  w_fds : list (Z * open_file);         (* descriptor table *)
  w_short : list nat;                   (* schedule of short transfers *)
  w_errno : Z;
  w_log : list event
}.

Definition set_dirs (w : world) (d : list (string * list dirent)) : world :=
  mk_world d (w_data w) (w_fds w) (w_short w) (w_errno w) (w_log w).
Definition set_data (w : world) (d : list (list byte)) : world :=
  mk_world (w_dirs w) d (w_fds w) (w_short w) (w_errno w) (w_log w).
Definition set_fds (w : world) (f : list (Z * open_file)) : world :=
  mk_world (w_dirs w) (w_data w) f (w_short w) (w_errno w) (w_log w).
Definition set_short (w : world) (s : list nat) : world :=
  mk_world (w_dirs w) (w_data w) (w_fds w) s (w_errno w) (w_log w).
Definition set_errno (w : world) (e : Z) : world :=
  mk_world (w_dirs w) (w_data w) (w_fds w) (w_short w) e (w_log w).
Definition log (w : world) (ev : event) : world :=
  mk_world (w_dirs w) (w_data w) (w_fds w) (w_short w) (w_errno w) (w_log w ++ [ev]).

(** A failing call: [-1], [errno] set. *)
Definition fail (w : world) (e : Z) (ev : Z -> event) : Z * world :=
  (-1, log (set_errno w e) (ev (-1))).

(** *** Path resolution *)

(** Directory part and last component of a path, split at its last ['/']. *)
Fixpoint split_path (p : string) : option (string * string) :=
  match p with
  | EmptyString => None
  | String c r =>
      match split_path r with
      | Some (d, b) => Some (String c d, b)
      | None => if Ascii.eqb c "/" then Some (EmptyString, r) else None
      end
  end.

Definition dir_base (p : string) : string * string :=
  match split_path p with
  | Some db => db
  | None => (".", p)
  end.

Fixpoint lookup_dir (dirs : list (string * list dirent)) (d : string)
  : option (list dirent) :=
  match dirs with
  | [] => None
  | (d', ents) :: rest => if String.eqb d' d then Some ents else lookup_dir rest d
  end.

Fixpoint update_dir (dirs : list (string * list dirent)) (d : string)
    (ents : list dirent) : list (string * list dirent) :=
  match dirs with
  | [] => []
  | (d', ents') :: rest =>
      if String.eqb d' d then (d', ents) :: rest
      else (d', ents') :: update_dir rest d ents
  end.

Fixpoint lookup_ent (ents : list dirent) (b : string) : option nat :=
  match ents with
  | [] => None
  | (b', ino) :: rest => if String.eqb b' b then Some ino else lookup_ent rest b
  end.

Fixpoint remove_ent (ents : list dirent) (b : string) : list dirent :=
  match ents with
  | [] => []
  | (b', ino) :: rest =>
      if String.eqb b' b then remove_ent rest b else (b', ino) :: remove_ent rest b
  end.

(** Bind [b] to [ino]: in place when [b] is there, at the end otherwise. *)
Fixpoint put_ent (ents : list dirent) (b : string) (ino : nat) : list dirent :=
  match ents with
  | [] => [(b, ino)]
  | (b', ino') :: rest =>
      if String.eqb b' b then (b', ino) :: rest
      else (b', ino') :: put_ent rest b ino
  end.

(** The inode a path names. *)
Definition resolve (w : world) (p : string) : option nat :=
  let '(d, b) := dir_base p in
  match lookup_dir (w_dirs w) d with
  | Some ents => lookup_ent ents b
  | None => None
  end.

Definition path_exists (w : world) (p : string) : bool :=
  match resolve w p with Some _ => true | None => false end.

(** Whether the walk to [p] runs into a file: a proper prefix of [p] that
    ends before a ['/'] names a file.  [pre] is the part of the path already
    walked. *)
Fixpoint through_file (w : world) (pre p : string) : bool :=
  match p with
  | EmptyString => false
  | String c r =>
      (Ascii.eqb c "/" && path_exists w pre)
      || through_file w (pre ++ String c EmptyString) r
  end.

(** [errno] of a lookup that finds no directory for [p]: [ENOTDIR] when the
    walk runs into a file, [ENOENT] when it runs into nothing. *)
Definition lookup_errno (w : world) (p : string) : Z :=
  if through_file w "" p then ENOTDIR else ENOENT.

(** [errno] of a call on a path that names no file: [ENOENT] when its
    directory is there. *)
Definition missing_errno (w : world) (p : string) : Z :=
  match lookup_dir (w_dirs w) (fst (dir_base p)) with
  | Some _ => ENOENT
  | None => lookup_errno w p
  end.

(** *** Descriptors *)

Fixpoint lookup_fd (fds : list (Z * open_file)) (fd : Z) : option open_file :=
  match fds with
  | [] => None
  | (fd', f) :: rest => if Z.eqb fd' fd then Some f else lookup_fd rest fd
  end.

Fixpoint remove_fd (fds : list (Z * open_file)) (fd : Z) : list (Z * open_file) :=
  match fds with
  | [] => []
  | (fd', f) :: rest =>
      if Z.eqb fd' fd then rest else (fd', f) :: remove_fd rest fd
  end.

(** The lowest descriptor that is not open. *)
Fixpoint lowest_free (used : list Z) (fuel : nat) (cand : Z) : Z :=
  match fuel with
  | O => cand
  | S fuel' =>
      if existsb (Z.eqb cand) used then lowest_free used fuel' (cand + 1)
      else cand
  end.

Definition alloc_fd (fds : list (Z * open_file)) : Z :=
  lowest_free (map fst fds) (List.length fds) 0.

(** The descriptor behind a directory stream.  It names no inode of
    [w_data]: its [of_ino] is not used. *)
Definition dir_stream : open_file := mk_open_file 0 (Z.lor O_RDONLY O_DIRECTORY).

Definition is_directory (f : open_file) : bool :=
  negb (Z.eqb (Z.land (of_flags f) O_DIRECTORY) 0).

Definition readable (f : open_file) : bool :=
  Z.eqb (Z.land (of_flags f) 3) O_RDONLY && negb (is_directory f).
Definition writable (f : open_file) : bool := Z.eqb (Z.land (of_flags f) 3) O_WRONLY.

(** *** System calls *)

(** [open (path, oflags, mode)] *)
Definition sys_open (w : world) (path : string) (oflags mode : Z) : Z * world :=
  let ev := EvOpen path oflags mode in
  let '(d, b) := dir_base path in
  match lookup_dir (w_dirs w) d with
  | None => fail w (lookup_errno w path) ev
  | Some ents =>
      match lookup_ent ents b with
      | Some ino =>
          let fd := alloc_fd (w_fds w) in
          (fd, log (set_fds w ((fd, mk_open_file ino oflags) :: w_fds w)) (ev fd))
      | None =>
          if Z.eqb (Z.land oflags O_CREAT) 0 then fail w ENOENT ev
          else
            let ino := List.length (w_data w) in
            let fd := alloc_fd (w_fds w) in
            let w1 := set_dirs w (update_dir (w_dirs w) d (ents ++ [(b, ino)])) in
            let w2 := set_data w1 (w_data w ++ [[]]) in
            (fd, log (set_fds w2 ((fd, mk_open_file ino oflags) :: w_fds w)) (ev fd))
      end
  end.

(** [close (fd)] *)
Definition sys_close (w : world) (fd : Z) : Z * world :=
  match lookup_fd (w_fds w) fd with
  | None => fail w EBADF (EvClose fd)
  | Some _ => (0, log (set_fds w (remove_fd (w_fds w) fd)) (EvClose fd 0))
  end.

(** [unlink (path)]; a [NULL] path is refused by the kernel. *)
Definition sys_unlink (w : world) (path : option string) : Z * world :=
  let ev := EvUnlink path in
  match path with
  | None => fail w EFAULT ev
  | Some p =>
      let '(d, b) := dir_base p in
      match lookup_dir (w_dirs w) d with
      | None => fail w (lookup_errno w p) ev
      | Some ents =>
          match lookup_ent ents b with
          | None => fail w ENOENT ev
          | Some _ =>
              (0, log (set_dirs w (update_dir (w_dirs w) d (remove_ent ents b))) (ev 0))
          end
      end
  end.

(** [rename (old, new)]; the directories of both paths are looked up
    before the entry of [old]. *)
Definition sys_rename (w : world) (old new : string) : Z * world :=
  let ev := EvRename old new in
  let '(d1, b1) := dir_base old in
  let '(d2, b2) := dir_base new in
  match lookup_dir (w_dirs w) d1 with
  | None => fail w (lookup_errno w old) ev
  | Some ents1 =>
      match lookup_ent ents1 b1 with
      | None =>
          fail w (match lookup_dir (w_dirs w) d2 with
                  | None => lookup_errno w new
                  | Some _ => ENOENT
                  end) ev
      | Some ino =>
          if String.eqb old new then (0, log w (ev 0))
          else
            let dirs1 := update_dir (w_dirs w) d1 (remove_ent ents1 b1) in
            match lookup_dir dirs1 d2 with
            | None => fail w (lookup_errno w new) ev
            | Some ents2 =>
                (0, log (set_dirs w (update_dir dirs1 d2 (put_ent ents2 b2 ino))) (ev 0))
            end
      end
  end.

(** [select (0, NULL, NULL, NULL, &tv)]: a sleep. *)
Definition sys_select (w : world) (sec usec : Z) : world :=
  log w (EvSelect sec usec).

(** [opendir] followed by the names [readdir] returns until it returns
    [NULL]: the two pseudo-entries, then the entries in order.  The stream
    holds a descriptor, which stays open until [closedir]; a path that names a
    file is no directory. *)
Definition sys_opendir (w : world) (d : string) : option (list string) * world :=
  match lookup_dir (w_dirs w) d with
  | None =>
      let e := if path_exists w d then ENOTDIR else lookup_errno w d in
      (None, log (set_errno w e) (EvOpendir d (-1)))
  | Some ents =>
      let fd := alloc_fd (w_fds w) in
      (Some ("." :: ".." :: map fst ents),
       log (set_fds w ((fd, dir_stream) :: w_fds w)) (EvOpendir d fd))
  end.

(** How many bytes the next transfer of [len] bytes moves: all of them, or
    as many as the head of the schedule of short transfers allows (at least
    one). *)
Definition transfer (w : world) (len : nat) : nat :=
  match w_short w with
  | [] => len
  | c :: _ => Nat.min len (S c)
  end.

Definition next_short (w : world) : world := set_short w (tl (w_short w)).

(** [pread (fd, addr, len, offset)]: the count, and the bytes stored at
    [addr]. *)
Definition sys_pread (w : world) (fd : Z) (len offset : Z) : Z * list byte * world :=
  let ev := EvPread fd len offset in
  match lookup_fd (w_fds w) fd with
  | None => let '(r, w') := fail w EBADF ev in (r, [], w')
  | Some f =>
      if negb (readable f) then
        let '(r, w') := fail w (if is_directory f then EISDIR else EBADF) ev in (r, [], w')
      else if offset <? 0 then let '(r, w') := fail w EINVAL ev in (r, [], w')
      else
        let content := nth (of_ino f) (w_data w) [] in
        let avail := skipn (Z.to_nat offset) content in
        let data := firstn (transfer w (Z.to_nat len)) avail in
        let n := Z.of_nat (List.length data) in
        (n, data, log (next_short w) (ev n))
  end.

(** Store [data] at [offset] in [content], zero-filling a gap. *)
Definition store (content : list byte) (offset : nat) (data : list byte) : list byte :=
  firstn offset content ++ repeat x00 (offset - List.length content)
    ++ data ++ skipn (offset + List.length data) content.

Fixpoint set_nth {A : Type} (l : list A) (n : nat) (x : A) : list A :=
  match l, n with
  | [], _ => []
  | _ :: l', O => x :: l'
  | y :: l', S n' => y :: set_nth l' n' x
  end.

(** [pwrite (fd, addr, len, offset)] with [buf] the [len] bytes at [addr]. *)
Definition sys_pwrite (w : world) (fd : Z) (buf : list byte) (offset : Z) : Z * world :=
  let len := Z.of_nat (List.length buf) in
  let ev := EvPwrite fd len offset in
  match lookup_fd (w_fds w) fd with
  | None => fail w EBADF ev
  | Some f =>
      if negb (writable f) then fail w EBADF ev
      else if offset <? 0 then fail w EINVAL ev
      else
        let data := firstn (transfer w (List.length buf)) buf in
        let content := nth (of_ino f) (w_data w) [] in
        let n := Z.of_nat (List.length data) in
        (n, log (next_short (set_data w
                  (set_nth (w_data w) (of_ino f) (store content (Z.to_nat offset) data))))
                (ev n))
  end.

End Posix.

Import CString Posix.

(** ** Data model of local_store.c *)

(** What [parser->get] answers: [0] with a value, [WT_NOTFOUND], or another
    non-zero error code. *)
Inductive config_get : Type :=
| Found (value : string)
| NotFound
| ConfigError (ret : Z).

Record WT_CONFIG_PARSER : Type := mk_parser {
  parser_get : string -> config_get;
  parser_close : Z
}.

(** [wt_api->config_parser_open]: an error code or a parser. *)
Record WT_EXTENSION_API : Type := mk_api {
  config_parser_open : string -> Z + WT_CONFIG_PARSER
}.

(** An object that has not yet been flushed. *)
Record LOCAL_FLUSH_ITEM : Type := mk_flush_item {
  src_path : option string;    (* File name to copy from *)
  marker_path : option string; (* Marker name to remove when done *)
  flush_bucket : option string;
  flush_kmsid : option string
}.

Record LOCAL_FILE_HANDLE : Type := mk_file_handle {
  iface_name : option string;
  fd : Z;                          (* File descriptor *)
  path : string;                   (* Path name of file *)
  temp_path : option string;       (* Temporary (hidden) name, set if newly created *)
  flush : option LOCAL_FLUSH_ITEM  (* Flush information, set if newly created *)
}.

Record LOCAL_LOCATION : Type := mk_location {
  cluster_prefix : string;
  bucket : string;
  kmsid : string
}.

Record LOCAL_STORAGE : Type := mk_storage {
  wt_api : WT_EXTENSION_API;
  delay_ms : Z;
  force_delay : Z;
  force_error : Z;
  verbose : Z;
  fh_ops : Z;
  object_flushes : Z;
  op_count : Z;
  read_ops : Z;
  write_ops : Z;
  fileq : list LOCAL_FILE_HANDLE;
  flushq : list LOCAL_FLUSH_ITEM
}.

Definition set_fh_ops (l : LOCAL_STORAGE) (v : Z) : LOCAL_STORAGE :=
  mk_storage (wt_api l) (delay_ms l) (force_delay l) (force_error l) (verbose l)
    v (object_flushes l) (op_count l) (read_ops l) (write_ops l) (fileq l) (flushq l).
Definition set_object_flushes (l : LOCAL_STORAGE) (v : Z) : LOCAL_STORAGE :=
  mk_storage (wt_api l) (delay_ms l) (force_delay l) (force_error l) (verbose l)
    (fh_ops l) v (op_count l) (read_ops l) (write_ops l) (fileq l) (flushq l).
Definition set_op_count (l : LOCAL_STORAGE) (v : Z) : LOCAL_STORAGE :=
  mk_storage (wt_api l) (delay_ms l) (force_delay l) (force_error l) (verbose l)
    (fh_ops l) (object_flushes l) v (read_ops l) (write_ops l) (fileq l) (flushq l).
Definition set_read_ops (l : LOCAL_STORAGE) (v : Z) : LOCAL_STORAGE :=
  mk_storage (wt_api l) (delay_ms l) (force_delay l) (force_error l) (verbose l)
    (fh_ops l) (object_flushes l) (op_count l) v (write_ops l) (fileq l) (flushq l).
Definition set_write_ops (l : LOCAL_STORAGE) (v : Z) : LOCAL_STORAGE :=
  mk_storage (wt_api l) (delay_ms l) (force_delay l) (force_error l) (verbose l)
    (fh_ops l) (object_flushes l) (op_count l) (read_ops l) v (fileq l) (flushq l).
Definition set_fileq (l : LOCAL_STORAGE) (q : list LOCAL_FILE_HANDLE) : LOCAL_STORAGE :=
  mk_storage (wt_api l) (delay_ms l) (force_delay l) (force_error l) (verbose l)
    (fh_ops l) (object_flushes l) (op_count l) (read_ops l) (write_ops l) q (flushq l).
Definition set_flushq (l : LOCAL_STORAGE) (q : list LOCAL_FLUSH_ITEM) : LOCAL_STORAGE :=
  mk_storage (wt_api l) (delay_ms l) (force_delay l) (force_error l) (verbose l)
    (fh_ops l) (object_flushes l) (op_count l) (read_ops l) (write_ops l) (fileq l) q.

Definition set_src_path (f : LOCAL_FLUSH_ITEM) (p : option string) : LOCAL_FLUSH_ITEM :=
  mk_flush_item p (marker_path f) (flush_bucket f) (flush_kmsid f).
Definition set_flush (h : LOCAL_FILE_HANDLE) (f : option LOCAL_FLUSH_ITEM) : LOCAL_FILE_HANDLE :=
  mk_file_handle (iface_name h) (fd h) (path h) (temp_path h) f.

Definition MARKER_NEED_FLUSH : string := "FLUSH_".
Definition MARKER_TEMPORARY : string := "TEMP_".

(** Pointer identity of handles and flush items is equality of the records. *)
Definition option_string_dec (a b : option string) : {a = b} + {a <> b}.
Proof. decide equality. apply string_dec. Defined.

Definition flush_item_dec (a b : LOCAL_FLUSH_ITEM) : {a = b} + {a <> b}.
Proof. decide equality; apply option_string_dec. Defined.

Definition file_handle_dec (a b : LOCAL_FILE_HANDLE) : {a = b} + {a <> b}.
Proof.
  decide equality.
  - decide equality. apply flush_item_dec.
  - apply option_string_dec.
  - apply string_dec.
  - apply Z.eq_dec.
  - apply option_string_dec.
Defined.

(** [TAILQ_REMOVE] *)
Fixpoint tailq_remove {A : Type} (dec : forall a b : A, {a = b} + {a <> b})
    (q : list A) (x : A) : list A :=
  match q with
  | [] => []
  | y :: q' => if dec y x then q' else y :: tailq_remove dec q' x
  end.

(** ** Configuration strings and the path codec *)

(** [snprintf (p, len, "%s", s)]: at most [len - 1] characters are stored. *)
Definition snprintf (len : nat) (s : string) : string :=
  substring 0 (len - 1) s.

(** [strncat (p, suffix, n)]: at most [n] characters of [suffix] are appended. *)
Definition strncat (p suffix : string) (n : nat) : string :=
  (p ++ substring 0 n suffix)%string.

(** Make a copy of a configuration string as an allocated C string. *)
Definition local_config_dup (v : string) (suffix disallowed : option string)
  : Z + string :=
  let suffix := match suffix with None => "" | Some s => s end in
  let len := (strlen v + strlen suffix + 1)%nat in
  let p := snprintf len v in
  let illegal :=
    match disallowed with
    | None => false
    | Some d => match strstr p d with Some _ => true | None => false end
    end in
  if illegal then inl EINVAL
  else inr (strncat p suffix len).

(** Break down a location into component parts. *)
Definition local_location_decode (location : LOCAL_LOCATION)
  : string * string * string :=
  (bucket location, cluster_prefix location, kmsid location).

(** Construct a pathname from the location and local name. *)
Definition local_location_path (location : LOCAL_LOCATION) (name : string)
    (marker : option string) : string :=
  let marker := match marker with None => "" | Some m => m end in
  let len := (strlen (bucket location) + strlen marker
              + strlen (cluster_prefix location) + strlen name + 2)%nat in
  snprintf len
    (bucket location ++ "/" ++ marker ++ cluster_prefix location ++ name)%string.

(** Return a location handle from a location string: the result, and the
    handle stored through [location_handlep]. *)
Definition local_location_handle (local : LOCAL_STORAGE) (location_info : string)
  : Z * option LOCAL_LOCATION * LOCAL_STORAGE :=
  let local := set_op_count local (incr64 (op_count local)) in
  match config_parser_open (wt_api local) location_info with
  | inl ret => (ret, None, local)
  | inr parser =>
      let finish (ret : Z) (h : option LOCAL_LOCATION) :=
        let t_ret := parser_close parser in
        ((if negb (t_ret =? 0) && (ret =? 0) then t_ret else ret), h, local) in
      match parser_get parser "bucket" with
      | NotFound => finish EINVAL None
      | ConfigError ret => finish ret None
      | Found value =>
          if (strlen value =? 0)%nat then finish EINVAL None
          else
            match local_config_dup value None None with
            | inl ret => finish ret None
            | inr l_bucket =>
                match parser_get parser "cluster" with
                | NotFound => finish EINVAL None
                | ConfigError ret => finish ret None
                | Found value =>
                    match local_config_dup value (Some "_") (Some "_/") with
                    | inl ret => finish ret None
                    | inr l_cluster_prefix =>
                        match parser_get parser "kmsid" with
                        | NotFound => finish EINVAL None
                        | ConfigError ret => finish ret None
                        | Found value =>
                            match local_config_dup value None None with
                            | inl ret => finish ret None
                            | inr l_kmsid =>
                                finish 0
                                  (Some (mk_location l_cluster_prefix l_bucket l_kmsid))
                            end
                        end
                    end
                end
            end
      end
  end.

(** ** Flush queue *)

(** Add any artificial delay or simulated network error during an object
    transfer. *)
Definition local_delay (local : LOCAL_STORAGE) (w : world) : Z * world :=
  let w1 :=
    if negb (force_delay local =? 0)
       && (object_flushes local mod force_delay local =? 0)
    then sys_select w (delay_ms local / 1000) ((delay_ms local mod 1000) * 1000)
    else w in
  let ret :=
    if negb (force_error local =? 0)
       && (object_flushes local mod force_error local =? 0)
    then ENETUNREACH
    else 0 in
  (ret, w1).

(** Flush one item on the flush queue. *)
Definition local_flush_one (local : LOCAL_STORAGE) (w : world) (flush : LOCAL_FLUSH_ITEM)
  : outcome (Z * LOCAL_STORAGE * world) :=
  let remove_marker (ret : Z) (local : LOCAL_STORAGE) (w : world) :=
    (* When we're done with flushing this file, remove the flush marker file. *)
    if ret =? 0 then
      let '(r, w1) := sys_unlink w (marker_path flush) in
      if r <? 0 then Done (w_errno w1, local, w1) else Done (r, local, w1)
    else Done (ret, local, w) in
  match src_path flush with
  | None => Fault
  | Some src =>
      match strrchr src "/" with
      | None => remove_marker (w_errno w) local w
      | Some object_name =>
          let local := set_object_flushes local (incr64 (object_flushes local)) in
          let '(ret, w1) := local_delay local w in
          if negb (ret =? 0) then Done (ret, local, w1)
          else remove_marker ret local w1
      end
  end.

(** Whether the loop of [local_flush] passes over an item ([continue]). *)
Definition flush_skip (match_ name : option string) (flush : LOCAL_FLUSH_ITEM)
  : outcome bool :=
  match match_ with
  | None => Done false
  | Some m =>
      match src_path flush with
      | None => Fault
      | Some src =>
          match name with
          | Some _ => Done (negb (strcmp_eq src m))
          | None => Done (negb (strncmp_eq src m (strlen m)))
          end
      end
  end.

(** The [TAILQ_FOREACH_SAFE] loop of [local_flush] over the items from
    [flush] on.  [kept] are the items it has passed over; every other item is
    flushed, removed and freed. *)
Fixpoint flush_loop (q : list LOCAL_FLUSH_ITEM) (match_ name : option string)
    (ret : Z) (kept : list LOCAL_FLUSH_ITEM) (local : LOCAL_STORAGE) (w : world)
  : outcome (Z * LOCAL_STORAGE * world) :=
  match q with
  | [] => Done (ret, set_flushq local kept, w)
  | flush :: q' =>
      ' skip <- flush_skip match_ name flush ;;
      if (skip : bool) then flush_loop q' match_ name ret (kept ++ [flush]) local w
      else
        ' (t_ret, local1, w1) <- local_flush_one local w flush ;;
        let ret := if negb (t_ret =? 0) && (ret =? 0) then t_ret else ret in
        flush_loop q' match_ name ret kept local1 w1
  end.

(** Return when the files have been flushed. *)
Definition local_flush (local : LOCAL_STORAGE) (w : world)
    (location_handle : option LOCAL_LOCATION) (name : option string)
  : outcome (Z * LOCAL_STORAGE * world) :=
  match location_handle, name with
  | None, Some _ => Done (EINVAL, local, w)
  | _, _ =>
      let local := set_op_count local (incr64 (op_count local)) in
      let match_ :=
        match location_handle with
        | Some location =>
            Some (local_location_path location
                    (match name with None => "" | Some n => n end) None)
        | None => None
        end in
      flush_loop (flushq local) match_ name 0 [] local w
  end.

(** ** Listing *)

(** [realloc (entries, sizeof (char * ) * allocated)]: the array keeps its
    first [allocated] slots. *)
Definition realloc_entries (entries : list string) (allocated : Z) : list string :=
  firstn (Z.to_nat allocated) entries.

(** [entries[count] = ...] on an array of [allocated] slots, of which
    [entries] are the ones set so far. *)
Definition store_entry (entries : list string) (allocated count : Z) (s : string)
  : outcome (list string) :=
  if count <? allocated then
    Done (if count <? Z.of_nat (List.length entries)
          then set_nth entries (Z.to_nat count) s
          else entries ++ [s])
  else Fault.

(** Whether the loop of [local_location_list_internal] passes over a
    directory entry, and the name it stores otherwise. *)
Definition list_entry (location : LOCAL_LOCATION) (marker prefix : option string)
    (d_name : string) : option string :=
  let cluster_len := strlen (cluster_prefix location) in
  let marker_len := match marker with None => O | Some m => strlen m end in
  let prefix_len := match prefix with None => O | Some p => strlen p end in
  let basename := d_name in
  (* Skip . and .. *)
  if strcmp_eq basename "." || strcmp_eq basename ".." then None
  else
    let after_marker :=
      if (marker_len =? 0)%nat then
        (* Skip over any marker files. *)
        if strncmp_eq basename MARKER_TEMPORARY (strlen MARKER_TEMPORARY)
           || strncmp_eq basename MARKER_NEED_FLUSH (strlen MARKER_NEED_FLUSH)
        then None
        else Some basename
      else
        (* Match only the indicated marker files. *)
        match marker with
        | Some m =>
            if negb (strncmp_eq basename m marker_len) then None
            else Some (advance marker_len basename)
        | None => None
        end in
    match after_marker with
    | None => None
    | Some basename =>
        (* Skip files not associated with our cluster. *)
        if negb (strncmp_eq basename (cluster_prefix location) cluster_len) then None
        else
          let basename := advance cluster_len basename in
          (* The list of files is optionally filtered by a prefix. *)
          match prefix with
          | Some p =>
              if negb (strncmp_eq basename p prefix_len) then None else Some basename
          | None => Some basename
          end
    end.

(** The [for] loop over the entries [readdir] returns; [allocated] is the
    [uint32_t] capacity of the array. *)
Fixpoint list_loop (location : LOCAL_LOCATION) (marker prefix : option string)
    (limit : Z) (stream : list string) (allocated count : Z) (entries : list string)
  : outcome (list string * Z) :=
  match stream with
  | [] => Done (entries, count)
  | d_name :: stream' =>
      if (limit =? 0) || (count <? limit) then
        match list_entry location marker prefix d_name with
        | None => list_loop location marker prefix limit stream' allocated count entries
        | Some basename =>
            let '(allocated, entries) :=
              if allocated <=? count then
                let allocated := (allocated + 10) mod 2 ^ 32 in
                (allocated, realloc_entries entries allocated)
              else (allocated, entries) in
            ' entries <- store_entry entries allocated count basename ;;
            list_loop location marker prefix limit stream' allocated (incr32 count) entries
        end
      else Done (entries, count)
  end.

(** Return a list of object names for the given location, matching the given
    marker if needed: the result, [*dirlistp] and [*countp]. *)
Definition local_location_list_internal (w : world) (location : LOCAL_LOCATION)
    (marker prefix : option string) (limit : Z)
  : outcome (Z * list string * Z * world) :=
  match sys_opendir w (bucket location) with
  | (None, w1) =>
      let ret := w_errno w1 in
      let ret := if ret =? 0 then EINVAL else ret in
      Done (ret, [], 0, w1)
  | (Some stream, w1) =>
      ' (entries, count) <- list_loop location marker prefix limit stream 0 0 [] ;;
      Done (0, entries, count, w1)
  end.

(** Return a list of object names for the given location. *)
Definition local_location_list (local : LOCAL_STORAGE) (w : world)
    (location : LOCAL_LOCATION) (prefix : option string) (limit : Z)
  : outcome (Z * list string * Z * LOCAL_STORAGE * world) :=
  let local := set_op_count local (incr64 (op_count local)) in
  ' (ret, dirlist, count, w1) <-
    local_location_list_internal w location None prefix limit ;;
  Done (ret, dirlist, count, local, w1).

(** ** Object handles *)

(** Internal file handle close.  The handle is a pointer: [None] is [NULL]. *)
Definition local_file_close_internal (w : world) (local_fh : option LOCAL_FILE_HANDLE)
    (final : bool) : outcome (Z * world) :=
  match local_fh with
  | None => Fault
  | Some fh =>
      let '(r, w1) := sys_close w (fd fh) in
      let ret := if r <? 0 then w_errno w1 else 0 in
      (* If this is a normal close (not a termination cleanup), and this handle
         creates an object, move the temp file to its final position. *)
      match temp_path fh with
      | Some tp =>
          if negb final && (ret =? 0) then
            let '(r2, w2) := sys_rename w1 tp (path fh) in
            Done ((if r2 <? 0 then w_errno w2 else r2), w2)
          else Done (ret, w1)
      | None => Done (ret, w1)
      end
  end.

(** [flush->src_path = strdup (local_fh->path)] through the pointer that the
    head of the queue now shares. *)
Definition stamp_head (q : list LOCAL_FLUSH_ITEM) (p : string) : list LOCAL_FLUSH_ITEM :=
  match q with
  | [] => []
  | flush :: q' => set_src_path flush (Some p) :: q'
  end.

(** ANSI C close. *)
Definition local_file_close (local : LOCAL_STORAGE) (w : world) (local_fh : LOCAL_FILE_HANDLE)
  : outcome (Z * LOCAL_STORAGE * world) :=
  let local := set_fh_ops local (incr64 (fh_ops local)) in
  let local := set_fileq local (tailq_remove file_handle_dec (fileq local) local_fh) in
  (* If we need to track flushes for this file, save the flush item on our queue. *)
  let '(local, local_fh) :=
    match flush local_fh with
    | Some fl =>
        (* Move the flush object from the file handle and to the flush queue. *)
        let local := set_flushq local (fl :: flushq local) in
        let local_fh := set_flush local_fh None in
        (set_flushq local (stamp_head (flushq local) (path local_fh)), local_fh)
    | None => (local, local_fh)
    end in
  ' (t_ret, w1) <- local_file_close_internal w (Some local_fh) false ;;
  Done (t_ret, local, w1).

Section Open.

(** The open flags of [wiredtiger.h], which is not part of this file. *)
Variables WT_SS_OPEN_CREATE WT_SS_OPEN_READONLY : Z.

(** fopen for our local storage source: the result and [*file_handlep]. *)
Definition local_open (local : LOCAL_STORAGE) (w : world) (location_handle : LOCAL_LOCATION)
    (name : string) (flags : Z)
  : outcome (Z * option LOCAL_FILE_HANDLE * LOCAL_STORAGE * world) :=
  let local := set_op_count local (incr64 (op_count local)) in
  let err (ret : Z) (local_fh : option LOCAL_FILE_HANDLE) (w : world) :=
    ' (_, w') <- local_file_close_internal w local_fh true ;;
    Done (ret, None, local, w') in
  let open_object (local_fh : LOCAL_FILE_HANDLE) (open_name : string) (oflags : Z)
      (w : world) :=
    (* Set file mode so it can only be reopened as readonly. *)
    let '(fd, w1) := sys_open w open_name oflags 292 in
    if fd <? 0 then err (w_errno w1) (Some local_fh) w1
    else
      let local_fh :=
        mk_file_handle (Some name) fd (path local_fh) (temp_path local_fh)
          (flush local_fh) in
      Done (0, Some local_fh, set_fileq local (local_fh :: fileq local), w1) in
  let oflags :=
    if flags =? WT_SS_OPEN_CREATE then Some (Z.lor O_WRONLY O_CREAT)
    else if flags =? WT_SS_OPEN_READONLY then Some O_RDONLY
    else None in
  match oflags with
  | None => err EINVAL None w
  | Some oflags =>
      (* Create a new handle. *)
      let local_fh :=
        mk_file_handle None 0 (local_location_path location_handle name None) None None in
      if flags =? WT_SS_OPEN_CREATE then
        let marker := local_location_path location_handle name (Some MARKER_NEED_FLUSH) in
        let fl := mk_flush_item None (Some marker) None None in
        let local_fh := set_flush local_fh (Some fl) in
        (* Create a marker file that indicates that the file will need to be
           flushed. *)
        let '(fd, w1) := sys_open w marker (Z.lor O_WRONLY O_CREAT) 438 in
        if fd <? 0 then err (w_errno w1) (Some local_fh) w1
        else
          let '(r, w2) := sys_close w1 fd in
          if r <? 0 then err (w_errno w2) (Some local_fh) w2
          else
            let '(l_bucket, _, l_kmsid) := local_location_decode location_handle in
            let fl := mk_flush_item None (Some marker) (Some l_bucket) (Some l_kmsid) in
            (* For the file handle, we will be writing into a file marked as
               temporary. *)
            let temp := local_location_path location_handle name (Some MARKER_TEMPORARY) in
            let local_fh := mk_file_handle None 0 (path local_fh) (Some temp) (Some fl) in
            open_object local_fh temp oflags w2
      else open_object local_fh (path local_fh) oflags w
  end.

End Open.

(** The loop of [local_file_read]; [got] are the bytes stored at [buf] so
    far.  [None] when [fuel] iterations did not end it. *)
Fixpoint read_loop (fuel : nat) (w : world) (fd : Z) (ret : Z) (offset len : Z)
    (got : list byte) : option (Z * list byte * world) :=
  match fuel with
  | O => None
  | S fuel' =>
      if (ret =? 0) && (0 <? len) then
        let '(nbytes, data, w1) := sys_pread w fd len offset in
        if nbytes <? 0 then read_loop fuel' w1 fd (w_errno w1) offset len got
        else read_loop fuel' w1 fd ret (offset + nbytes) (len - nbytes) (got ++ data)
      else Some (ret, got, w)
  end.

(** POSIX pread. *)
Definition local_file_read (fuel : nat) (local : LOCAL_STORAGE) (w : world)
    (local_fh : LOCAL_FILE_HANDLE) (offset len : Z)
  : option (Z * list byte * LOCAL_STORAGE * world) :=
  let local := set_read_ops local (incr64 (read_ops local)) in
  match read_loop fuel w (fd local_fh) 0 offset len [] with
  | Some (ret, buf, w1) => Some (ret, buf, local, w1)
  | None => None
  end.

(** The loop of [local_file_write]; [buf] are the [len] bytes at [addr]. *)
Fixpoint write_loop (fuel : nat) (w : world) (fd : Z) (ret : Z) (offset : Z)
    (buf : list byte) : option (Z * list byte * world) :=
  match fuel with
  | O => None
  | S fuel' =>
      if (ret =? 0) && (0 <? Z.of_nat (List.length buf)) then
        let '(nbytes, w1) := sys_pwrite w fd buf offset in
        if nbytes <? 0 then write_loop fuel' w1 fd (w_errno w1) offset buf
        else write_loop fuel' w1 fd ret (offset + nbytes) (skipn (Z.to_nat nbytes) buf)
      else Some (ret, buf, w)
  end.

(** POSIX pwrite: the result and the bytes of [buf] not written. *)
Definition local_file_write (fuel : nat) (local : LOCAL_STORAGE) (w : world)
    (local_fh : LOCAL_FILE_HANDLE) (offset : Z) (buf : list byte)
  : option (Z * list byte * LOCAL_STORAGE * world) :=
  let local := set_write_ops local (incr64 (write_ops local)) in
  match write_loop fuel w (fd local_fh) 0 offset buf with
  | Some (ret, rest, w1) => Some (ret, rest, local, w1)
  | None => None
  end.

(** ** The rest of the storage source *)

(** *** Calls that only look at the world

    [stat], [fstat] and [fsync] change nothing but [errno]. *)

(** [stat (path, &sb)]: the result and [sb.st_size]. *)
Definition sys_stat (w : world) (path : string) : Z * Z * world :=
  match resolve w path with
  | Some ino => (0, Z.of_nat (List.length (nth ino (w_data w) [])), w)
  | None => (-1, 0, set_errno w (missing_errno w path))
  end.

(** [fstat (fd, &sb)]: the result and [sb.st_size]. *)
Definition sys_fstat (w : world) (fd : Z) : Z * Z * world :=
  match lookup_fd (w_fds w) fd with
  | Some f => (0, Z.of_nat (List.length (nth (of_ino f) (w_data w) [])), w)
  | None => (-1, 0, set_errno w EBADF)
  end.

(** [fsync (fd)] *)
Definition sys_fsync (w : world) (fd : Z) : Z * world :=
  match lookup_fd (w_fds w) fd with
  | Some _ => (0, w)
  | None => (-1, set_errno w EBADF)
  end.

(** *** Storage source calls by name *)

(** Return if the file exists: the result and what is stored through
    [existp], if anything. *)
Definition local_exist (local : LOCAL_STORAGE) (w : world) (location : LOCAL_LOCATION)
    (name : string) : Z * option bool * LOCAL_STORAGE * world :=
  let local := set_op_count local (incr64 (op_count local)) in
  let path := local_location_path location name None in
  let '(ret, _, w1) := sys_stat w path in
  if ret =? 0 then (ret, Some true, local, w1)
  else if w_errno w1 =? ENOENT then (0, Some false, local, w1)
  else (w_errno w1, None, local, w1).

(** POSIX remove. *)
Definition local_remove (local : LOCAL_STORAGE) (w : world) (location : LOCAL_LOCATION)
    (name : string) : Z * LOCAL_STORAGE * world :=
  let local := set_op_count local (incr64 (op_count local)) in
  let path := local_location_path location name None in
  let '(ret, w1) := sys_unlink w (Some path) in
  if negb (ret =? 0) then (w_errno w1, local, w1) else (ret, local, w1).

(** Get the size of a file in bytes, by file name: the result and what is
    stored through [sizep], if anything. *)
Definition local_size (local : LOCAL_STORAGE) (w : world) (location : LOCAL_LOCATION)
    (name : string) : Z * option Z * LOCAL_STORAGE * world :=
  let local := set_op_count local (incr64 (op_count local)) in
  let path := local_location_path location name None in
  let '(ret, st_size, w1) := sys_stat w path in
  if ret =? 0 then (ret, Some st_size, local, w1)
  else (w_errno w1, None, local, w1).

(** The loop of [local_terminate] over the file handle queue. *)
Fixpoint terminate_loop (q : list LOCAL_FILE_HANDLE) (w : world) : outcome world :=
  match q with
  | [] => Done w
  | local_fh :: q' =>
      ' (_, w1) <- local_file_close_internal w (Some local_fh) true ;;
      terminate_loop q' w1
  end.

(** Discard any resources on termination.  The storage source is freed: what
    is left is the result and the world. *)
Definition local_terminate (local : LOCAL_STORAGE) (w : world) : outcome (Z * world) :=
  let local := set_op_count local (incr64 (op_count local)) in
  let ret := 0 in
  ' w1 <- terminate_loop (fileq local) w ;;
  Done (ret, w1).

(** *** File handle calls *)

(** Lock/unlock a file. *)
Definition local_file_lock (local : LOCAL_STORAGE) (local_fh : LOCAL_FILE_HANDLE)
    (lock : bool) : Z * LOCAL_STORAGE :=
  (0, set_fh_ops local (incr64 (fh_ops local))).

(** Get the size of a file in bytes, by file handle. *)
Definition local_file_size (local : LOCAL_STORAGE) (w : world) (local_fh : LOCAL_FILE_HANDLE)
  : Z * option Z * LOCAL_STORAGE * world :=
  let local := set_fh_ops local (incr64 (fh_ops local)) in
  let '(ret, st_size, w1) := sys_fstat w (fd local_fh) in
  if ret =? 0 then (ret, Some st_size, local, w1)
  else (ret, None, local, w1).

(** Ensure the content of the local file is stable. *)
Definition local_file_sync (local : LOCAL_STORAGE) (w : world) (local_fh : LOCAL_FILE_HANDLE)
  : Z * LOCAL_STORAGE * world :=
  let local := set_fh_ops local (incr64 (fh_ops local)) in
  let '(ret, w1) := sys_fsync w (fd local_fh) in
  if ret <? 0 then (w_errno w1, local, w1) else (ret, local, w1).

(** *** Configuration at start-up *)

(** What [wt_api->config_get] answers for a key of the configuration
    argument: [0] with an item, [WT_NOTFOUND], or another non-zero code. *)
Record WT_CONFIG_ITEM : Type := mk_config_item {
  item_len : Z;
  item_type : Z;
  item_val : Z   (* int64_t *)
}.

Inductive config_lookup : Type :=
| ItemFound (v : WT_CONFIG_ITEM)
| ItemNotFound
| ItemError (ret : Z).

Definition set_config (l : LOCAL_STORAGE) (l_delay_ms l_force_delay l_force_error l_verbose : Z)
  : LOCAL_STORAGE :=
  mk_storage (wt_api l) l_delay_ms l_force_delay l_force_error l_verbose
    (fh_ops l) (object_flushes l) (op_count l) (read_ops l) (write_ops l) (fileq l) (flushq l).

Section Configure.

(** The item type of numbers in [wiredtiger.h], which is not part of this
    file. *)
Variable WT_CONFIG_ITEM_NUM : Z.

(** Look for a particular configuration key, and return its integer value:
    the result and the value behind [valuep] afterwards. *)
Definition local_configure_int (config : string -> config_lookup) (key : string)
    (value : Z) : Z * Z :=
  match config key with
  | ItemFound v =>
      if (item_len v =? 0) || negb (item_type v =? WT_CONFIG_ITEM_NUM)
      then (EINVAL, value)
      else (0, item_val v mod 2 ^ 32)
  | ItemNotFound => (0, value)
  | ItemError _ => (EINVAL, value)
  end.

(** Parse the configuration for the keys we care about. *)
Definition local_configure (local : LOCAL_STORAGE) (config : string -> config_lookup)
  : Z * LOCAL_STORAGE :=
  let '(ret, l_delay_ms) := local_configure_int config "delay_ms" (delay_ms local) in
  let local := set_config local l_delay_ms (force_delay local) (force_error local)
                 (verbose local) in
  if negb (ret =? 0) then (ret, local)
  else
    let '(ret, l_force_delay) :=
      local_configure_int config "force_delay" (force_delay local) in
    let local := set_config local (delay_ms local) l_force_delay (force_error local)
                   (verbose local) in
    if negb (ret =? 0) then (ret, local)
    else
      let '(ret, l_force_error) :=
        local_configure_int config "force_error" (force_error local) in
      let local := set_config local (delay_ms local) (force_delay local) l_force_error
                     (verbose local) in
      if negb (ret =? 0) then (ret, local)
      else
        let '(ret, l_verbose) := local_configure_int config "verbose" (verbose local) in
        let local := set_config local (delay_ms local) (force_delay local)
                       (force_error local) l_verbose in
        if negb (ret =? 0) then (ret, local) else (0, local).

(** The entry point of the extension.  [api] is what
    [connection->get_extension_api] returns and [add_storage_source] the
    result of registering the storage source with the connection.  The result,
    and the storage source when it stays allocated. *)
Definition wiredtiger_extension_init (api : WT_EXTENSION_API)
    (config : string -> config_lookup) (add_storage_source : LOCAL_STORAGE -> Z)
  : Z * option LOCAL_STORAGE :=
  let local := mk_storage api 0 0 0 0 0 0 0 0 0 [] [] in
  let '(ret, local) := local_configure local config in
  if negb (ret =? 0) then (ret, None)
  else
    let ret := add_storage_source local in
    if negb (ret =? 0) then (ret, None) else (ret, Some local).

End Configure.

(** * Vocabulary of the properties *)

(** ** Object creation *)

(** The worlds a sequence of writes through a handle goes through: the world
    each write leaves, for the writes [(offset, buf)] of [ops] in order. *)
Fixpoint write_run (fuel : nat) (local : LOCAL_STORAGE) (w : world)
    (fh : LOCAL_FILE_HANDLE) (ops : list (Z * list byte)) : list world :=
  match ops with
  | [] => []
  | (offset, buf) :: rest =>
      match local_file_write fuel local w fh offset buf with
      | Some (_, _, local1, w1) => w1 :: write_run fuel local1 w1 fh rest
      | None => []
      end
  end.

(** ** Draining the flush queue *)

(** The records a drain selects, in the words of the specification: the
    record of the named object, the records under the location, or all. *)
Definition src_is (p : string) (f : LOCAL_FLUSH_ITEM) : bool :=
  match src_path f with Some s => String.eqb s p | None => false end.

Definition src_under (p : string) (f : LOCAL_FLUSH_ITEM) : bool :=
  match src_path f with Some s => String.prefix p s | None => false end.

Definition matched (location : option LOCAL_LOCATION) (name : option string)
    (f : LOCAL_FLUSH_ITEM) : bool :=
  match location, name with
  | Some l, Some n => src_is (bucket l ++ "/" ++ cluster_prefix l ++ n) f
  | Some l, None => src_under (bucket l ++ "/" ++ cluster_prefix l) f
  | None, _ => true
  end.

(** Every record of the queue has its source path. *)
Definition stamped (q : list LOCAL_FLUSH_ITEM) : Prop :=
  forallb (fun f => match src_path f with Some _ => true | None => false end) q = true.

(** Every record of the queue has a source path with an object name in it. *)
Definition has_object_name (f : LOCAL_FLUSH_ITEM) : bool :=
  match src_path f with
  | Some s => match strrchr s "/" with Some _ => true | None => false end
  | None => false
  end.

Definition well_stamped (q : list LOCAL_FLUSH_ITEM) : Prop :=
  forallb has_object_name q = true.

(** The match string of [local_flush]. *)
Definition match_string (location : option LOCAL_LOCATION) (name : option string)
  : option string :=
  match location with
  | Some l => Some (local_location_path l (match name with None => "" | Some n => n end) None)
  | None => None
  end.



(** ** Listing *)

(** The filtering pipeline of an ordinary listing in the words of the
    specification: what a directory entry contributes, if anything. *)
Definition visible_name (l_cluster_prefix : string) (prefix : option string)
    (d_name : string) : option string :=
  if String.eqb d_name "." || String.eqb d_name ".." then None
  else if String.prefix "TEMP_" d_name || String.prefix "FLUSH_" d_name then None
  else if String.prefix l_cluster_prefix d_name then
    let rest := advance (String.length l_cluster_prefix) d_name in
    match prefix with
    | None => Some rest
    | Some p => if String.prefix p rest then Some rest else None
    end
  else None.

Fixpoint visible_names (l_cluster_prefix : string) (prefix : option string)
    (d_names : list string) : list string :=
  match d_names with
  | [] => []
  | d :: rest =>
      match visible_name l_cluster_prefix prefix d with
      | Some n => n :: visible_names l_cluster_prefix prefix rest
      | None => visible_names l_cluster_prefix prefix rest
      end
  end.

(** * Inputs of the closed examples

    The extension API of the host engine is a parameter of the storage
    source.  The examples run against this small one: a location string is a
    comma-separated list of [key=value] fields. *)

Fixpoint fields (sep : ascii) (s : string) : list string :=
  match s with
  | EmptyString => [EmptyString]
  | String c r =>
      if Ascii.eqb c sep then EmptyString :: fields sep r
      else match fields sep r with
           | f :: fs => String c f :: fs
           | [] => [String c EmptyString]
           end
  end.

Definition key_value (f : string) : string * string :=
  match fields "=" f with
  | k :: v :: _ => (k, v)
  | k :: [] => (k, "")
  | [] => ("", "")
  end.

Fixpoint lookup_key (kvs : list (string * string)) (key : string) : config_get :=
  match kvs with
  | [] => NotFound
  | (k, v) :: rest => if String.eqb k key then Found v else lookup_key rest key
  end.

Definition host_api : WT_EXTENSION_API :=
  mk_api (fun info => inr (mk_parser (lookup_key (map key_value (fields "," info))) 0)).

(** The storage source as [wiredtiger_extension_init] leaves it, with the
    given fault injection. *)
Definition local_init (l_delay_ms l_force_delay l_force_error : Z) : LOCAL_STORAGE :=
  mk_storage host_api l_delay_ms l_force_delay l_force_error 0 0 0 0 0 0 [] [].

(** A world with one empty bucket directory. *)
Definition bucket_world (dir : string) : world := mk_world [(dir, [])] [] [] [] 0 [].

(** The running example: the location of cluster ["c"] in the bucket
    ["bkt"], and the handle that creating the object ["obj"] in it returns. *)
Definition example_location : LOCAL_LOCATION := mk_location "c_" "bkt" "k".

Definition example_flush_item : LOCAL_FLUSH_ITEM :=
  mk_flush_item None (Some "bkt/FLUSH_c_obj") (Some "bkt") (Some "k").

Definition example_handle : LOCAL_FILE_HANDLE :=
  mk_file_handle (Some "obj") 0 "bkt/c_obj" (Some "bkt/TEMP_c_obj")
    (Some example_flush_item).

Definition example_opened (force : Z) : LOCAL_STORAGE :=
  set_fileq (set_op_count (local_init 0 0 force) 1) [example_handle].


(** The example queue: two objects of the example location and one of another
    cluster of the same bucket, each with its marker file. *)
Definition queued (cluster_name : string) : LOCAL_FLUSH_ITEM :=
  mk_flush_item (Some ("bkt/" ++ cluster_name)%string)
    (Some ("bkt/FLUSH_" ++ cluster_name)%string) (Some "bkt") (Some "k").

Definition example_queue : list LOCAL_FLUSH_ITEM :=
  [queued "c_obj2"; queued "d_obj"; queued "c_obj"].

Definition example_pending (force : Z) : LOCAL_STORAGE :=
  set_flushq (local_init 0 0 force) example_queue.

Definition world_pending : world :=
  mk_world
    [("bkt", [("FLUSH_c_obj", 0%nat); ("c_obj", 1%nat); ("FLUSH_d_obj", 2%nat);
              ("d_obj", 3%nat); ("FLUSH_c_obj2", 4%nat); ("c_obj2", 5%nat)])]
    [[]; []; []; []; []; []] [] [] 0 [].


(** A bucket with two objects of the example location, one of them still
    being written as well, and an object of another cluster. *)
Definition world_listing : world :=
  mk_world
    [("bkt", [("c_a1", 0%nat); ("TEMP_c_a3", 1%nat); ("FLUSH_c_a3", 2%nat);
              ("d_a1", 3%nat); ("c_b", 4%nat); ("c_a2", 5%nat)])]
    [[]; []; []; []; []; []] [] [] 0 [].

(** An object of three bytes, open for reading. *)
Definition example_reader : LOCAL_FILE_HANDLE :=
  mk_file_handle (Some "obj") 3 "bkt/c_obj" None None.

Definition world_reading : world :=
  mk_world [("bkt", [("c_obj", 0%nat)])] [[x01; x02; x03]]
    [(3, mk_open_file 0 O_RDONLY)] [] 0 [].

(** The life of an object: create it, write three bytes, close the handle,
    list the location, flush the object.  The result: the listing after the
    close, whether the marker file is there before and after the flush, and
    the flush queue at the end. *)
Definition lifecycle : option (list string * bool * bool * list LOCAL_FLUSH_ITEM) :=
  match local_open 1 2 (local_init 0 0 0) (bucket_world "bkt") example_location "obj" 1 with
  | Done (_, Some fh, l1, w1) =>
      match local_file_write 4 l1 w1 fh 0 [x01; x02; x03] with
      | Some (_, _, l2, w2) =>
          match local_file_close l2 w2 fh with
          | Done (_, l3, w3) =>
              match local_location_list l3 w3 example_location None 0 with
              | Done (_, names, _, l4, w4) =>
                  match local_flush l4 w4 (Some example_location) (Some "obj") with
                  | Done (_, l5, w5) =>
                      Some (names, path_exists w4 "bkt/FLUSH_c_obj",
                            path_exists w5 "bkt/FLUSH_c_obj", flushq l5)
                  | Fault => None
                  end
              | Fault => None
              end
          | Fault => None
          end
      | None => None
      end
  | _ => None
  end.

(** Whether two paths name the same entry of the same directory. *)
Definition dir_base_dec (p q : string) : {dir_base p = dir_base q} + {dir_base p <> dir_base q}.
Proof. repeat decide equality. Defined.

(** What a directory entry contributes to a listing with the marker [m]. *)
Definition marked_name (l_cluster_prefix m : string) (prefix : option string)
    (d_name : string) : option string :=
  if String.eqb d_name "." || String.eqb d_name ".." then None
  else if String.prefix m d_name then
    let rest := advance (String.length m) d_name in
    if String.prefix l_cluster_prefix rest then
      let rest := advance (String.length l_cluster_prefix) rest in
      match prefix with
      | None => Some rest
      | Some p => if String.prefix p rest then Some rest else None
      end
    else None
  else None.

(** An object of three bytes whose temp file is open for writing through
    descriptor 0, with a schedule of one byte at a call. *)
Definition world_writing : world :=
  mk_world [("bkt", [("TEMP_c_obj", 0%nat)])] [[x01; x02; x03]]
    [(0, mk_open_file 0 O_WRONLY)] [0%nat; 0%nat] 0 [].

(** The world after the create of the examples. *)
Definition world_created : world :=
  mk_world [("bkt", [("FLUSH_c_obj", 0%nat); ("TEMP_c_obj", 1%nat)])] [[]; []]
    [(0, mk_open_file 1 65)] [] 0
    [EvOpen "bkt/FLUSH_c_obj" 65 438 0; EvClose 0 0; EvOpen "bkt/TEMP_c_obj" 65 292 0].

(** The names a filter keeps of the entries of a directory, in order. *)
Fixpoint kept_names (keep : string -> option string) (d_names : list string) : list string :=
  match d_names with
  | [] => []
  | d :: rest =>
      match keep d with
      | Some n => n :: kept_names keep rest
      | None => kept_names keep rest
      end
  end.

(** The most names the array of a listing holds: it grows by ten slots at a
    time, and past this size its [uint32_t] capacity wraps around. *)
Definition LIST_MAX : Z := 4294967290.

(** The array between two stores: [count] names are stored in [allocated]
    slots, a multiple of ten with fewer than ten of them free. *)
Definition array_ok (allocated count : Z) (entries : list string) : Prop :=
  count = Z.of_nat (List.length entries)
  /\ count <= allocated < count + 10
  /\ exists k, allocated = 10 * k.

(** The world after an [opendir] of [d] that no [closedir] follows: the
    descriptor of the stream stays in the descriptor table. *)
Definition stream_left_open (w : world) (d : string) : world :=
  log (set_fds w ((alloc_fd (w_fds w), dir_stream) :: w_fds w))
    (EvOpendir d (alloc_fd (w_fds w))).

(** A world in which the bucket path names a file, not a directory. *)
Definition world_file_bucket : world := mk_world [(".", [("bkt", 0%nat)])] [[]] [] [] 0 [].

(** A bucket with directories for the marker and the temp file of the
    object ["sub/obj"], and a file where the directory of its final path would
    be. *)
Definition world_file_in_the_way : world :=
  mk_world [("bkt", [("c_sub", 0%nat)]); ("bkt/FLUSH_c_sub", []); ("bkt/TEMP_c_sub", [])]
    [[]] [] [] 0 [].

(** A bucket in which an earlier create of ["obj"] has left its temp file,
    with five bytes. *)
Definition world_leftover_temp : world :=
  mk_world [("bkt", [("TEMP_c_obj", 0%nat)])] [[x09; x09; x09; x09; x09]] [] [] 0 [].

(** A bucket that holds [n] objects of the cluster ["c"], named by their
    numbers. *)
Definition numbered (n : nat) : list dirent :=
  map (fun i => (("c_" ++ NilEmpty.string_of_uint (Nat.to_uint i))%string, i)) (seq 0 n).

Definition world_numbered (n : nat) : world :=
  mk_world [("bkt", numbered n)] (repeat [] n) [] [] 0 [].

(** A configuration key that is absent, or holds a non-empty number. *)
Definition config_ok (NUM : Z) (r : config_lookup) : Prop :=
  match r with
  | ItemFound v => item_len v <> 0 /\ item_type v = NUM
  | ItemNotFound => True
  | ItemError _ => False
  end.

(** The value a well-formed configuration gives a key: the number as a
    [uint32_t], and zero for an absent key. *)
Definition configured (config : string -> config_lookup) (key : string) : Z :=
  match config key with
  | ItemFound v => item_val v mod 2 ^ 32
  | _ => 0
  end.

(** The keys [local_configure] reads. *)
Definition config_keys : list string := ["delay_ms"; "force_delay"; "force_error"; "verbose"].

(** A configuration that sets one key to a number. *)
Definition config_one (NUM : Z) (key : string) (val : Z) (k : string) : config_lookup :=
  if String.eqb k key then ItemFound (mk_config_item 1 NUM val) else ItemNotFound.

(** A configuration where one key holds something that is not a number. *)
Definition config_bad (NUM : Z) (key : string) (k : string) : config_lookup :=
  if String.eqb k key then ItemFound (mk_config_item 3 (NUM + 1) 0) else ItemNotFound.

(** A world where descriptor [0] is open on a file outside the bucket. *)
Definition world_with_stdin : world :=
  mk_world [("bkt", []); ("dev", [("tty", 0%nat)])] [[]] [(0, mk_open_file 0 O_RDONLY)] [] 0 [].

(** The same world after an open of a missing object has failed. *)
Definition world_stdin_closed : world :=
  mk_world [("bkt", []); ("dev", [("tty", 0%nat)])] [[]] [] [] 2
    [EvOpen "bkt/c_obj" 0 292 (-1); EvClose 0 0].

(** * Properties *)

(** ** C strings *)

Lemma length_append (a b : string) :
  String.length (a ++ b) = (String.length a + String.length b)%nat.
Proof. induction a as [|c a IH]; simpl; [reflexivity | now rewrite IH]. Qed.

Lemma append_assoc (a b c : string) : ((a ++ b) ++ c = a ++ (b ++ c))%string.
Proof. induction a as [|x a IH]; simpl; [reflexivity | now rewrite IH]. Qed.

Lemma append_nil_r (a : string) : (a ++ "")%string = a.
Proof. induction a as [|x a IH]; simpl; [reflexivity | now rewrite IH]. Qed.

Lemma append_inv_head (s a b : string) : (s ++ a = s ++ b)%string -> a = b.
Proof.
  induction s as [|c s IH]; simpl; intros H; [exact H|].
  injection H as H. now apply IH.
Qed.

Lemma substring_whole (s : string) (n : nat) :
  (String.length s <= n)%nat -> substring 0 n s = s.
Proof.
  revert n. induction s as [|c s IH]; intros [|n] H; simpl in *; try reflexivity.
  - lia.
  - rewrite IH by lia. reflexivity.
Qed.

Lemma substring_prefix_of_append (a b : string) :
  substring 0 (String.length a) (a ++ b) = a.
Proof. induction a as [|c a IH]; simpl; [now destruct b | now rewrite IH]. Qed.

Lemma strncmp_eq_prefix (m a : string) :
  strncmp_eq a m (strlen m) = String.prefix m a.
Proof.
  revert a. induction m as [|c m IH]; intros a.
  - now destruct a.
  - destruct a as [|d a]; [reflexivity|].
    cbn [strlen String.length strncmp_eq String.prefix].
    destruct (ascii_dec c d) as [->|Hne].
    + rewrite Ascii.eqb_refl. apply IH.
    + destruct (Ascii.eqb_spec d c) as [->|_]; [congruence | reflexivity].
Qed.

Lemma prefix_append (m r : string) : String.prefix m (m ++ r) = true.
Proof.
  induction m as [|c m IH]; simpl; [now destruct r|].
  destruct (ascii_dec c c); [exact IH | congruence].
Qed.

Lemma prefix_split (m a : string) :
  String.prefix m a = true -> a = (m ++ advance (String.length m) a)%string.
Proof.
  revert a. induction m as [|c m IH]; intros a H; [reflexivity|].
  destruct a as [|d a]; simpl in *; [discriminate|].
  destruct (ascii_dec c d) as [->|]; [|discriminate].
  f_equal. now apply IH.
Qed.

Lemma advance_append (m r : string) : advance (String.length m) (m ++ r) = r.
Proof. induction m as [|c m IH]; simpl; [reflexivity | exact IH]. Qed.

Lemma strcmp_eq_iff (a b : string) : strcmp_eq a b = true <-> a = b.
Proof. apply String.eqb_eq. Qed.

(** ** The path codec writes the whole path *)

Lemma local_location_path_concat (location : LOCAL_LOCATION) (name : string)
    (marker : option string) :
  local_location_path location name marker
  = (bucket location ++ "/" ++ match marker with None => "" | Some m => m end
       ++ cluster_prefix location ++ name)%string.
Proof.
  unfold local_location_path, snprintf, strlen.
  apply substring_whole.
  rewrite !length_append. simpl. lia.
Qed.

Lemma local_config_dup_accept (v suffix d : string) :
  strstr v d = None ->
  local_config_dup v (Some suffix) (Some d) = inr (v ++ suffix)%string.
Proof.
  intros H. unfold local_config_dup, snprintf, strncat, strlen.
  replace (String.length v + String.length suffix + 1 - 1)%nat
    with (String.length v + String.length suffix)%nat by lia.
  rewrite (substring_whole v) by lia. rewrite H.
  rewrite (substring_whole suffix) by lia. reflexivity.
Qed.

(** ** Location validation *)

Lemma strstr_unfold (hay needle : string) :
  strstr hay needle
  = if String.prefix needle hay then Some hay
    else match hay with
         | EmptyString => None
         | String _ hay' => strstr hay' needle
         end.
Proof. now destruct hay. Qed.

Lemma strstr_some (hay needle : string) :
  strstr hay needle <> None <-> exists a b, hay = (a ++ needle ++ b)%string.
Proof.
  split.
  - induction hay as [|c hay IH]; rewrite strstr_unfold;
      destruct (String.prefix needle _) eqn:E.
    + intros _. exists "". eexists. apply (prefix_split _ _ E).
    + congruence.
    + intros _. exists "". eexists. apply (prefix_split _ _ E).
    + intros H. destruct (IH H) as (a & b & ->). now exists (String c a), b.
  - intros (a & b & ->). induction a as [|c a IH]; rewrite strstr_unfold.
    + simpl. rewrite prefix_append. congruence.
    + destruct (String.prefix needle _); [congruence|]. exact IH.
Qed.

(** What the validation of the cluster string rejects: the strings in which
    the two characters ["_/"] occur next to each other, in this order. *)
Lemma cluster_rejected_iff (v : string) :
  local_config_dup v (Some "_") (Some "_/") = inl EINVAL
  <-> exists a b, v = (a ++ "_/" ++ b)%string.
Proof.
  rewrite <- strstr_some.
  destruct (strstr v "_/") eqn:E.
  - split; [congruence|]. intros _.
    unfold local_config_dup, snprintf, strlen.
    rewrite substring_whole by (simpl; lia). now rewrite E.
  - rewrite (local_config_dup_accept _ _ _ E). split; [discriminate | congruence].
Qed.

(** C3.  Location-open is meant to reject every cluster string that
    contains the path separator or the separator that ends the cluster
    prefix.  It does not: the check looks for the two-character string ["_/"]
    and lets a cluster string through that contains either character alone.
    Here a cluster with ['/'] and one with ['_'] both yield a location. *)
Theorem cluster_separator_not_rejected :
  local_location_handle (local_init 0 0 0) "bucket=bkt,cluster=a/b,kmsid=k"
  = (0, Some (mk_location "a/b_" "bkt" "k"), set_op_count (local_init 0 0 0) 1)
  /\ local_location_handle (local_init 0 0 0) "bucket=bkt,cluster=a_b,kmsid=k"
     = (0, Some (mk_location "a_b_" "bkt" "k"), set_op_count (local_init 0 0 0) 1)
  /\ mem "/" "a/b" = true /\ mem "_" "a_b" = true.
Proof. repeat split. Qed.

(** ** Path codec *)

Lemma cluster_name_unique (c1 c2 n1 n2 : string) :
  mem "_" c1 = false -> mem "_" c2 = false ->
  (c1 ++ "_" ++ n1 = c2 ++ "_" ++ n2)%string -> c1 = c2 /\ n1 = n2.
Proof.
  revert c2. induction c1 as [|x c1 IH]; intros [|y c2]; simpl; intros H1 H2 E.
  - injection E as E. now split.
  - injection E as E1 E2. subst y. simpl in H2. discriminate.
  - injection E as E1 E2. subst x. simpl in H1. discriminate.
  - injection E as E1 E2. subst y.
    apply orb_false_elim in H1 as [_ H1]. apply orb_false_elim in H2 as [_ H2].
    destruct (IH c2 H1 H2 E2) as [-> ->]. now split.
Qed.

(** With cluster strings free of the separator, the paths of one bucket are
    distinct for distinct (cluster, name) pairs. *)
Lemma path_injective_valid_cluster (bkt c1 c2 k1 k2 n1 n2 : string)
    (marker : option string) :
  mem "_" c1 = false -> mem "_" c2 = false ->
  local_location_path (mk_location (c1 ++ "_") bkt k1) n1 marker
  = local_location_path (mk_location (c2 ++ "_") bkt k2) n2 marker ->
  c1 = c2 /\ n1 = n2.
Proof.
  intros H1 H2. rewrite !local_location_path_concat. simpl.
  intros E. apply append_inv_head in E. injection E as E.
  apply append_inv_head in E. rewrite !append_assoc in E.
  now apply cluster_name_unique.
Qed.

(** C5.  The path is the concatenation the codec promises, but two
    different (cluster prefix, name) pairs of one bucket can produce the same
    path: location-open accepts the cluster strings ["a"] and ["a_b"], whose
    objects ["b_c"] and ["c"] share the path ["bkt/a_b_c"]. *)
Theorem path_alias_across_clusters :
  exists l1 l2 : LOCAL_LOCATION,
    fst (local_location_handle (local_init 0 0 0) "bucket=bkt,cluster=a,kmsid=k")
    = (0, Some l1)
    /\ fst (local_location_handle (local_init 0 0 0) "bucket=bkt,cluster=a_b,kmsid=k")
       = (0, Some l2)
    /\ bucket l1 = bucket l2
    /\ (cluster_prefix l1, "b_c") <> (cluster_prefix l2, "c")
    /\ local_location_path l1 "b_c" None = local_location_path l2 "c" None.
Proof.
  exists (mk_location "a_" "bkt" "k"), (mk_location "a_b_" "bkt" "k").
  repeat split. discriminate.
Qed.

(** ** Flush with a name and no location *)

(** C9.  A flush given a name but no location returns [EINVAL] and changes
    nothing: the storage source (flush queue, counters) and the world (every
    file, the descriptors, the log of system calls) are the ones it was
    given. *)
Theorem flush_name_without_location (local : LOCAL_STORAGE) (w : world) (name : string) :
  local_flush local w None (Some name) = Done (EINVAL, local, w).
Proof. reflexivity. Qed.

(** ** Open with invalid flags *)

(** C10.  An open whose flags are neither [WT_SS_OPEN_CREATE] nor
    [WT_SS_OPEN_READONLY] is meant to fail with [EINVAL].  The error path
    hands the handle, still [NULL], to [local_file_close_internal], which
    dereferences it. *)
Theorem open_invalid_flags_faults (WT_SS_OPEN_CREATE WT_SS_OPEN_READONLY : Z)
    (local : LOCAL_STORAGE) (w : world) (location : LOCAL_LOCATION) (name : string)
    (flags : Z) :
  flags <> WT_SS_OPEN_CREATE -> flags <> WT_SS_OPEN_READONLY ->
  local_open WT_SS_OPEN_CREATE WT_SS_OPEN_READONLY local w location name flags = Fault.
Proof.
  intros Hc Hr. unfold local_open.
  apply Z.eqb_neq in Hc, Hr. rewrite Hc, Hr. reflexivity.
Qed.

(** The open of the example object with both flag bits set. *)
Lemma open_invalid_flags_faults_witness :
  3 <> 1 /\ 3 <> 2
  /\ local_open 1 2 (local_init 0 0 0) (bucket_world "bkt")
       (mk_location "c_" "bkt" "k") "obj" 3 = Fault.
Proof.
  split; [lia|]. split; [lia|].
  apply (open_invalid_flags_faults 1 2); lia.
Defined.

(** ** The operating system model *)

Lemma lookup_update_dir_same dirs d ents ents' :
  lookup_dir dirs d = Some ents' ->
  lookup_dir (update_dir dirs d ents) d = Some ents.
Proof.
  induction dirs as [|[d0 e0] dirs IH]; simpl; [discriminate|].
  destruct (String.eqb d0 d) eqn:E; simpl; rewrite E; auto.
Qed.

Lemma lookup_update_dir_other dirs d d' ents :
  d <> d' -> lookup_dir (update_dir dirs d ents) d' = lookup_dir dirs d'.
Proof.
  intros Hne. induction dirs as [|[d0 e0] dirs IH]; simpl; [reflexivity|].
  destruct (String.eqb d0 d) eqn:E; simpl.
  - apply String.eqb_eq in E. subst d0.
    destruct (String.eqb d d') eqn:E'; [apply String.eqb_eq in E'; congruence | reflexivity].
  - now rewrite IH.
Qed.

Lemma lookup_remove_ent ents b : lookup_ent (remove_ent ents b) b = None.
Proof.
  induction ents as [|[b0 i0] ents IH]; simpl; [reflexivity|].
  destruct (String.eqb b0 b) eqn:E; simpl; [exact IH | now rewrite E].
Qed.

Lemma lookup_put_ent ents b ino : lookup_ent (put_ent ents b ino) b = Some ino.
Proof.
  induction ents as [|[b0 i0] ents IH]; simpl.
  - now rewrite String.eqb_refl.
  - destruct (String.eqb b0 b) eqn:E; simpl; now rewrite E.
Qed.

Lemma lookup_ent_app ents b ino :
  lookup_ent (ents ++ [(b, ino)]) b <> None.
Proof.
  induction ents as [|[b0 i0] ents IH]; simpl.
  - now rewrite String.eqb_refl.
  - destruct (String.eqb b0 b); [discriminate | exact IH].
Qed.

Lemma lookup_ent_app_mono ents b b' ino :
  lookup_ent ents b <> None -> lookup_ent (ents ++ [(b', ino)]) b <> None.
Proof.
  induction ents as [|[b0 i0] ents IH]; simpl; [congruence|].
  destruct (String.eqb b0 b); [discriminate | exact IH].
Qed.

Lemma lowest_free_ge used fuel cand : cand <= lowest_free used fuel cand.
Proof.
  revert cand. induction fuel as [|fuel IH]; intros cand; simpl; [lia|].
  destruct (existsb (Z.eqb cand) used); [|lia].
  specialize (IH (cand + 1)). lia.
Qed.

Lemma alloc_fd_nonneg fds : 0 <= alloc_fd fds.
Proof. apply lowest_free_ge. Qed.

Lemma path_exists_dirs w w' p :
  w_dirs w' = w_dirs w -> path_exists w' p = path_exists w p.
Proof. unfold path_exists, resolve. now intros ->. Qed.

(** [open] appends its event to the log. *)
Lemma sys_open_log w p oflags mode :
  w_log (snd (sys_open w p oflags mode))
  = w_log w ++ [EvOpen p oflags mode (fst (sys_open w p oflags mode))].
Proof.
  unfold sys_open. destruct (dir_base p) as [d b].
  destruct (lookup_dir (w_dirs w) d) as [ents|]; [|reflexivity].
  destruct (lookup_ent ents b); [reflexivity|].
  destruct (Z.land oflags O_CREAT =? 0); reflexivity.
Qed.

Lemma lookup_errno_nonzero w p : lookup_errno w p <> 0.
Proof. unfold lookup_errno. destruct (through_file w "" p); discriminate. Qed.

Lemma missing_errno_cases w p : missing_errno w p = ENOENT \/ missing_errno w p = ENOTDIR.
Proof.
  unfold missing_errno, lookup_errno.
  destruct (lookup_dir _ _); [now left|]. destruct (through_file w "" p); auto.
Qed.

Lemma missing_errno_nonzero w p : missing_errno w p <> 0.
Proof. destruct (missing_errno_cases w p) as [-> | ->]; discriminate. Qed.

Lemma missing_errno_dirs w w' p : w_dirs w' = w_dirs w -> missing_errno w' p = missing_errno w p.
Proof.
  intros H. unfold missing_errno, lookup_errno. rewrite H.
  assert (forall pre q, through_file w' pre q = through_file w pre q) as T.
  { intros pre q. revert pre. induction q as [|c q IH]; intros pre; [reflexivity|].
    simpl. unfold path_exists, resolve. rewrite H, IH. reflexivity. }
  now rewrite T.
Qed.

(** A failing [open] sets [errno] and leaves the directories alone. *)
Lemma sys_open_failed w p oflags mode :
  fst (sys_open w p oflags mode) < 0 ->
  w_errno (snd (sys_open w p oflags mode)) = missing_errno w p
  /\ w_dirs (snd (sys_open w p oflags mode)) = w_dirs w.
Proof.
  unfold sys_open, missing_errno. destruct (dir_base p) as [d b]. cbn [fst].
  pose proof (alloc_fd_nonneg (w_fds w)) as Hfd.
  destruct (lookup_dir (w_dirs w) d) as [ents|]; [|now split].
  destruct (lookup_ent ents b); simpl; [lia|].
  destruct (Z.land oflags O_CREAT =? 0); simpl; [now split | lia].
Qed.

(** After an [open] that succeeded the path names a file. *)
Lemma sys_open_exists w p oflags mode :
  0 <= fst (sys_open w p oflags mode) ->
  path_exists (snd (sys_open w p oflags mode)) p = true.
Proof.
  unfold sys_open, path_exists, resolve.
  destruct (dir_base p) as [d b].
  destruct (lookup_dir (w_dirs w) d) as [ents|] eqn:Ed; simpl; [|lia].
  destruct (lookup_ent ents b) eqn:Eb; simpl.
  - intros _. rewrite Ed. now rewrite Eb.
  - destruct (Z.land oflags O_CREAT =? 0); simpl; [lia|]. intros _.
    rewrite (lookup_update_dir_same _ _ _ _ Ed).
    pose proof (lookup_ent_app ents b (List.length (w_data w))) as H.
    destruct (lookup_ent (ents ++ _) b) eqn:E; [reflexivity | elim H; exact E].
Qed.

(** [open] removes no file. *)
Lemma sys_open_keeps w p oflags mode q :
  path_exists w q = true -> path_exists (snd (sys_open w p oflags mode)) q = true.
Proof.
  unfold sys_open. destruct (dir_base p) as [d b] eqn:Ep.
  destruct (lookup_dir (w_dirs w) d) as [ents|] eqn:Ed; [|now simpl].
  destruct (lookup_ent ents b) eqn:Eb; [now simpl|].
  destruct (Z.land oflags O_CREAT =? 0); [now simpl|].
  unfold path_exists, resolve. simpl. destruct (dir_base q) as [d' b'].
  destruct (string_dec d d') as [<-|Hne].
  - rewrite Ed, (lookup_update_dir_same _ _ _ _ Ed).
    pose proof (lookup_ent_app_mono ents b' b (List.length (w_data w))) as H.
    destruct (lookup_ent ents b') eqn:E'; [|discriminate]. intros _.
    destruct (lookup_ent (ents ++ _) b') eqn:E; [reflexivity|].
    exfalso. apply H; [discriminate | reflexivity].
  - now rewrite (lookup_update_dir_other _ _ _ _ Hne).
Qed.

(** [close] appends its event and touches no directory. *)
Lemma sys_close_effect w fd :
  w_log (snd (sys_close w fd)) = w_log w ++ [EvClose fd (fst (sys_close w fd))]
  /\ w_dirs (snd (sys_close w fd)) = w_dirs w.
Proof. unfold sys_close. destruct (lookup_fd (w_fds w) fd); now split. Qed.


(** [unlink] succeeds on the paths that name a file, and afterwards the path
    names none. *)
Lemma sys_unlink_result w p :
  (path_exists w p = true /\ fst (sys_unlink w (Some p)) = 0)
  \/ (path_exists w p = false /\ fst (sys_unlink w (Some p)) = -1
      /\ w_errno (snd (sys_unlink w (Some p))) = missing_errno w p
      /\ w_dirs (snd (sys_unlink w (Some p))) = w_dirs w).
Proof.
  unfold sys_unlink, path_exists, resolve, missing_errno.
  destruct (dir_base p) as [d b]. cbn [fst].
  destruct (lookup_dir (w_dirs w) d) as [ents|]; [|right; now repeat split].
  destruct (lookup_ent ents b); [left | right]; now repeat split.
Qed.

Lemma sys_unlink_gone w p : path_exists (snd (sys_unlink w (Some p))) p = false.
Proof.
  unfold sys_unlink, path_exists, resolve. destruct (dir_base p) as [d b].
  destruct (lookup_dir (w_dirs w) d) as [ents|] eqn:Ed; simpl; [|now rewrite Ed].
  destruct (lookup_ent ents b) eqn:Eb; simpl.
  - now rewrite (lookup_update_dir_same _ _ _ _ Ed), lookup_remove_ent.
  - now rewrite Ed, Eb.
Qed.

(** [rename]: on success the new path names the file the old one named; on
    failure [errno] is set and no directory changes. *)
Lemma sys_rename_result w old new :
  (fst (sys_rename w old new) = 0
   /\ resolve w old <> None
   /\ resolve (snd (sys_rename w old new)) new = resolve w old)
  \/ (fst (sys_rename w old new) = -1
      /\ w_errno (snd (sys_rename w old new)) <> 0
      /\ w_dirs (snd (sys_rename w old new)) = w_dirs w).
Proof.
  pose proof (lookup_errno_nonzero w old) as Hold.
  pose proof (lookup_errno_nonzero w new) as Hnew.
  unfold sys_rename, resolve.
  destruct (dir_base old) as [d1 b1] eqn:E1. destruct (dir_base new) as [d2 b2] eqn:E2.
  destruct (lookup_dir (w_dirs w) d1) as [ents1|] eqn:Ed1; [|right; now repeat split].
  destruct (lookup_ent ents1 b1) as [ino|] eqn:Eb1.
  2:{ right. simpl. repeat split.
      destruct (lookup_dir (w_dirs w) d2); [discriminate | exact Hnew]. }
  destruct (String.eqb old new) eqn:Eon.
  - left. apply String.eqb_eq in Eon. subst new. rewrite E1 in E2.
    injection E2 as <- <-. simpl. rewrite Ed1, Eb1. repeat split. discriminate.
  - destruct (lookup_dir (update_dir _ d1 _) d2) as [ents2|] eqn:Ed2;
      [|right; now repeat split].
    left. simpl. rewrite (lookup_update_dir_same _ _ _ _ Ed2), lookup_put_ent.
    repeat split. discriminate.
Qed.

(** ** Object creation *)

Lemma marker_temp_distinct (location : LOCAL_LOCATION) (name : string) :
  local_location_path location name (Some MARKER_NEED_FLUSH)
  <> local_location_path location name (Some MARKER_TEMPORARY).
Proof.
  rewrite !local_location_path_concat. intros E.
  apply append_inv_head in E. discriminate E.
Qed.

Opaque sys_open sys_close sys_rename sys_unlink local_location_path.

Transparent sys_open sys_close sys_rename sys_unlink local_location_path.

(** ** Close of a created object *)

Lemma resolve_dirs w w' p : w_dirs w' = w_dirs w -> resolve w' p = resolve w p.
Proof. unfold resolve. now intros ->. Qed.

Lemma example_open :
  exists w, local_open 1 2 (local_init 0 0 0) (bucket_world "bkt") example_location "obj" 1
            = Done (0, Some example_handle, example_opened 0, w)
            /\ w_dirs w = [("bkt", [("FLUSH_c_obj", 0%nat); ("TEMP_c_obj", 1%nat)])].
Proof. eexists. split; reflexivity. Qed.




(** ** Draining the flush queue *)

Lemma flush_skip_matched location name f s :
  src_path f = Some s ->
  (location = None -> name = None) ->
  flush_skip (match_string location name) name f
  = Done (negb (matched location name f)).
Proof.
  intros Hs Hn. unfold flush_skip, match_string, matched, src_is, src_under.
  destruct location as [l|].
  - rewrite Hs, local_location_path_concat. simpl.
    destruct name as [n|]; [reflexivity|].
    rewrite append_nil_r, strncmp_eq_prefix. reflexivity.
  - reflexivity.
Qed.

Lemma local_flush_unfold local w location name :
  (location = None -> name = None) ->
  local_flush local w location name
  = flush_loop (flushq local) (match_string location name) name 0 []
      (set_op_count local (incr64 (op_count local))) w.
Proof.
  intros Hn. unfold local_flush, match_string.
  destruct location; [now destruct name|]. now rewrite (Hn eq_refl).
Qed.

Lemma local_flush_one_total local w f s :
  src_path f = Some s ->
  exists t_ret w1,
    local_flush_one local w f
    = Done (t_ret,
            match strrchr s "/" with
            | Some _ => set_object_flushes local (incr64 (object_flushes local))
            | None => local
            end, w1).
Proof.
  intros Hs. unfold local_flush_one. rewrite Hs.
  destruct (strrchr s "/").
  - destruct (local_delay _ w) as [ret w1].
    destruct (negb (ret =? 0)); [eauto|].
    destruct (ret =? 0); [|eauto].
    destruct (sys_unlink w1 (marker_path f)) as [r w2].
    destruct (r <? 0); eauto.
  - destruct (w_errno w =? 0); [|eauto].
    destruct (sys_unlink w (marker_path f)) as [r w2].
    destruct (r <? 0); eauto.
Qed.

Lemma stamped_cons f q :
  stamped (f :: q) -> (exists s, src_path f = Some s) /\ stamped q.
Proof.
  unfold stamped. simpl. intros H. apply andb_true_iff in H as [H1 H2].
  split; [|exact H2]. destruct (src_path f); [eauto | discriminate].
Qed.

(** The loop keeps the records it passes over, in order, and removes the
    others, whatever flushing them returns. *)
Lemma flush_loop_keeps location name :
  (location = None -> name = None) ->
  forall q ret kept local w,
    stamped q ->
    exists ret' local' w',
      flush_loop q (match_string location name) name ret kept local w
      = Done (ret', local', w')
      /\ flushq local' = kept ++ filter (fun f => negb (matched location name f)) q.
Proof.
  intros Hn. induction q as [|f q IH]; intros ret kept local w Hq.
  - simpl. eexists _, _, _. split; [reflexivity|]. simpl. now rewrite app_nil_r.
  - apply stamped_cons in Hq as [[s Hs] Hq].
    cbn [flush_loop filter]. rewrite (flush_skip_matched _ _ _ _ Hs Hn). cbn [bind].
    destruct (matched location name f); cbn [negb].
    + destruct (local_flush_one_total local w f s Hs) as (t_ret & w1 & ->).
      cbn [bind]. apply IH, Hq.
    + destruct (IH ret (kept ++ [f]) local w Hq) as (ret' & local' & w' & E & Hk).
      eexists _, _, _. split; [exact E|]. now rewrite Hk, <- app_assoc.
Qed.

(** C4.  A drain removes the records it matches and no others, and leaves
    the others in their order: with a location and a name, the records whose
    source path is the path of that object; with a location only, the records
    whose source path starts with [bucket/cluster_prefix]; with neither,
    every record. *)
Theorem flush_removes_exactly_the_matches (local : LOCAL_STORAGE) (w : world)
    (location : LOCAL_LOCATION) (name : string) :
  stamped (flushq local) ->
  (exists ret local' w',
      local_flush local w (Some location) (Some name) = Done (ret, local', w')
      /\ flushq local'
         = filter (fun f => negb (src_is (local_location_path location name None) f))
             (flushq local))
  /\ (exists ret local' w',
         local_flush local w (Some location) None = Done (ret, local', w')
         /\ flushq local'
            = filter (fun f =>
                        negb (src_under (bucket location ++ "/" ++ cluster_prefix location) f))
                (flushq local))
  /\ (exists ret local' w',
         local_flush local w None None = Done (ret, local', w')
         /\ flushq local' = []).
Proof.
  intros Hq. repeat split.
  - rewrite local_flush_unfold by discriminate.
    destruct (flush_loop_keeps (Some location) (Some name) ltac:(discriminate)
                (flushq local) 0 [] (set_op_count local (incr64 (op_count local))) w Hq)
      as (ret & local' & w' & E & Hk).
    exists ret, local', w'. split; [exact E|].
    rewrite Hk, local_location_path_concat. reflexivity.
  - rewrite local_flush_unfold by discriminate.
    destruct (flush_loop_keeps (Some location) None ltac:(discriminate)
                (flushq local) 0 [] (set_op_count local (incr64 (op_count local))) w Hq)
      as (ret & local' & w' & E & Hk).
    exists ret, local', w'. split; [exact E | exact Hk].
  - rewrite local_flush_unfold by reflexivity.
    destruct (flush_loop_keeps None None ltac:(reflexivity)
                (flushq local) 0 [] (set_op_count local (incr64 (op_count local))) w Hq)
      as (ret & local' & w' & E & Hk).
    exists ret, local', w'. split; [exact E|].
    rewrite Hk. simpl. generalize (flushq local) as q.
    induction q as [|f q IH]; [reflexivity | exact IH].
Qed.

(** The three drains on the example queue. *)
Lemma flush_removes_exactly_the_matches_witness :
  stamped (flushq (example_pending 0))
  /\ (exists ret local' w',
         local_flush (example_pending 0) world_pending (Some example_location) (Some "obj")
         = Done (ret, local', w')
         /\ flushq local'
            = filter (fun f => negb (src_is (local_location_path example_location "obj" None) f))
                (flushq (example_pending 0)))
  /\ (exists ret local' w',
         local_flush (example_pending 0) world_pending (Some example_location) None
         = Done (ret, local', w')
         /\ flushq local'
            = filter (fun f =>
                        negb (src_under (bucket example_location ++ "/"
                                         ++ cluster_prefix example_location) f))
                (flushq (example_pending 0)))
  /\ (exists ret local' w',
         local_flush (example_pending 0) world_pending None None = Done (ret, local', w')
         /\ flushq local' = []).
Proof.
  split; [reflexivity|].
  apply (flush_removes_exactly_the_matches (example_pending 0) world_pending
           example_location "obj").
  reflexivity.
Defined.

(** *** Forced errors *)

Lemma local_delay_dirs local w : w_dirs (snd (local_delay local w)) = w_dirs w.
Proof.
  unfold local_delay.
  destruct (negb (force_delay local =? 0) && _); reflexivity.
Qed.




Lemma well_stamped_cons f q :
  well_stamped (f :: q) ->
  has_object_name f = true /\ (exists s, src_path f = Some s) /\ well_stamped q.
Proof.
  unfold well_stamped. simpl. intros H. apply andb_true_iff in H as [H1 H2].
  repeat split; try assumption.
  unfold has_object_name in H1. destruct (src_path f); [eauto | discriminate].
Qed.





(** ** Listing *)

Lemma list_entry_visible location prefix d_name :
  list_entry location None prefix d_name
  = visible_name (cluster_prefix location) prefix d_name.
Proof.
  unfold list_entry, visible_name, strcmp_eq. simpl Nat.eqb. cbv iota.
  destruct (String.eqb d_name "." || String.eqb d_name ".."); [reflexivity|].
  rewrite (strncmp_eq_prefix MARKER_TEMPORARY), (strncmp_eq_prefix MARKER_NEED_FLUSH).
  change MARKER_TEMPORARY with "TEMP_". change MARKER_NEED_FLUSH with "FLUSH_".
  destruct (String.prefix "TEMP_" d_name || String.prefix "FLUSH_" d_name); [reflexivity|].
  rewrite strncmp_eq_prefix.
  destruct (String.prefix (cluster_prefix location) d_name); [|reflexivity].
  cbn [negb]. destruct prefix as [p|]; [|reflexivity].
  rewrite strncmp_eq_prefix.
  now destruct (String.prefix p _).
Qed.

Lemma incr32_small count : 0 <= count < UINT32_MAX -> incr32 count = count + 1.
Proof. unfold incr32, UINT32_MAX. intros H. apply Z.mod_small. lia. Qed.

Lemma kept_names_ext (f g : string -> option string) (l : list string) :
  (forall d, f d = g d) -> kept_names f l = kept_names g l.
Proof. intros H. induction l as [|d l IH]; simpl; [reflexivity|]. now rewrite H, IH. Qed.

Lemma kept_names_in (f : string -> option string) (l : list string) (n : string) :
  In n (kept_names f l) <-> exists d, In d l /\ f d = Some n.
Proof.
  induction l as [|d l IH]; simpl.
  - split; [intros [] | intros (d & [] & _)].
  - destruct (f d) as [n'|] eqn:E; simpl; rewrite IH; split.
    + intros [<-|(d' & Hin & Hd')]; [exists d; auto | exists d'; auto].
    + intros (d' & [<-|Hin] & Hd'); [left; congruence | right; eauto].
    + intros (d' & Hin & Hd'). exists d'; auto.
    + intros (d' & [<-|Hin] & Hd'); [congruence | eauto].
Qed.

Lemma kept_names_none (f : string -> option string) (l : list string) :
  (forall d, f d = None) -> kept_names f l = [].
Proof. intros H. induction l as [|d l IH]; simpl; [reflexivity|]. now rewrite H. Qed.

Lemma kept_names_visible location prefix stream :
  kept_names (list_entry location None prefix) stream
  = visible_names (cluster_prefix location) prefix stream.
Proof.
  induction stream as [|d stream IH]; simpl; [reflexivity|].
  rewrite list_entry_visible, IH. reflexivity.
Qed.

(** One more name in an array that has not reached [LIST_MAX] names. *)
Lemma store_next allocated count entries n :
  array_ok allocated count entries -> count < LIST_MAX ->
  exists allocated',
    (let '(allocated, entries) :=
       if allocated <=? count then
         ((allocated + 10) mod 2 ^ 32,
          realloc_entries entries ((allocated + 10) mod 2 ^ 32))
       else (allocated, entries) in
     ' entries <- store_entry entries allocated count n ;;
     Done (allocated, entries))
    = Done (allocated', entries ++ [n])
    /\ array_ok allocated' (count + 1) (entries ++ [n]).
Proof.
  unfold LIST_MAX. intros (Hc & Ha & k & Hk) Hmax.
  assert (array_ok (if allocated <=? count then allocated + 10 else allocated)
            (count + 1) (entries ++ [n])) as Hok.
  { unfold array_ok. rewrite length_app. cbn [List.length].
    destruct (allocated <=? count) eqn:E;
      [apply Z.leb_le in E | apply Z.leb_gt in E].
    - split; [lia|]. split; [lia|]. exists (k + 1). lia.
    - split; [lia|]. split; [lia|]. exists k. exact Hk. }
  destruct (allocated <=? count) eqn:E; [apply Z.leb_le in E | apply Z.leb_gt in E].
  - exists (allocated + 10). split; [|exact Hok].
    rewrite Z.mod_small by lia.
    unfold realloc_entries. rewrite firstn_all2 by lia.
    unfold store_entry.
    replace (count <? allocated + 10) with true by (symmetry; apply Z.ltb_lt; lia).
    replace (count <? Z.of_nat (List.length entries)) with false
      by (symmetry; apply Z.ltb_ge; lia).
    reflexivity.
  - exists allocated. split; [|exact Hok].
    unfold store_entry.
    replace (count <? allocated) with true by (symmetry; apply Z.ltb_lt; lia).
    replace (count <? Z.of_nat (List.length entries)) with false
      by (symmetry; apply Z.ltb_ge; lia).
    reflexivity.
Qed.

(** The store that follows the [LIST_MAX]-th: the capacity wraps around to
    four slots and the store is outside the array. *)
Lemma store_past_max allocated entries n :
  array_ok allocated LIST_MAX entries ->
  (let '(allocated, entries) :=
     if allocated <=? LIST_MAX then
       ((allocated + 10) mod 2 ^ 32,
        realloc_entries entries ((allocated + 10) mod 2 ^ 32))
     else (allocated, entries) in
   store_entry entries allocated LIST_MAX n)
  = Fault.
Proof.
  unfold LIST_MAX. intros (_ & Ha & k & Hk).
  assert (allocated = 4294967290) as -> by lia.
  reflexivity.
Qed.

Lemma list_loop_cons location marker prefix limit d stream allocated count entries :
  list_loop location marker prefix limit (d :: stream) allocated count entries
  = if (limit =? 0) || (count <? limit) then
      match list_entry location marker prefix d with
      | None => list_loop location marker prefix limit stream allocated count entries
      | Some basename =>
          ' (allocated, entries) <-
            (let '(allocated, entries) :=
               if allocated <=? count then
                 ((allocated + 10) mod 2 ^ 32,
                  realloc_entries entries ((allocated + 10) mod 2 ^ 32))
               else (allocated, entries) in
             ' entries <- store_entry entries allocated count basename ;;
             Done (allocated, entries)) ;;
          list_loop location marker prefix limit stream allocated (incr32 count) entries
      end
    else Done (entries, count).
Proof.
  cbn [list_loop]. destruct ((limit =? 0) || (count <? limit)); [|reflexivity].
  destruct (list_entry location marker prefix d); [|reflexivity].
  destruct (allocated <=? count); cbv zeta;
    destruct (store_entry _ _ count s); reflexivity.
Qed.

(** The loop for any marker, from a point where [count] entries are stored:
    it stores the names the filter keeps, all of them or up to [limit]. *)
Lemma list_loop_any location marker prefix limit :
  0 <= limit <= LIST_MAX ->
  forall stream allocated count entries,
    array_ok allocated count entries ->
    (limit = 0 ->
     count + Z.of_nat (List.length (kept_names (list_entry location marker prefix) stream))
     <= LIST_MAX) ->
    list_loop location marker prefix limit stream allocated count entries
    = Done (entries ++ (if limit =? 0
                        then kept_names (list_entry location marker prefix) stream
                        else firstn (Z.to_nat (limit - count))
                               (kept_names (list_entry location marker prefix) stream)),
            count + Z.of_nat (List.length
                      (if limit =? 0
                       then kept_names (list_entry location marker prefix) stream
                       else firstn (Z.to_nat (limit - count))
                              (kept_names (list_entry location marker prefix) stream)))).
Proof.
  intros Hlimit. induction stream as [|d stream IH]; intros allocated count entries Hok Hb.
  - simpl. destruct (limit =? 0); [|rewrite firstn_nil];
      simpl; now rewrite app_nil_r, Z.add_0_r.
  - rewrite list_loop_cons. cbn [kept_names] in *.
    assert (0 <= count) as Hc0 by (destruct Hok as (-> & _); lia).
    destruct (limit =? 0) eqn:El; cbn [orb].
    + apply Z.eqb_eq in El.
      destruct (list_entry location marker prefix d) as [n|].
      * cbn [List.length] in Hb. specialize (Hb El).
        destruct (store_next allocated count entries n Hok) as (a' & -> & Hok'); [lia|].
        cbn [bind]. rewrite incr32_small by (unfold UINT32_MAX, LIST_MAX in *; lia).
        rewrite (IH _ _ _ Hok') by (intros _; lia).
        replace (limit =? 0) with true by (symmetry; now apply Z.eqb_eq).
        rewrite <- app_assoc. cbn [List.length app]. do 2 f_equal. lia.
      * rewrite (IH _ _ _ Hok Hb).
        replace (limit =? 0) with true by (symmetry; now apply Z.eqb_eq).
        reflexivity.
    + apply Z.eqb_neq in El.
      destruct (count <? limit) eqn:Ecl.
      * apply Z.ltb_lt in Ecl.
        destruct (list_entry location marker prefix d) as [n|].
        -- destruct (store_next allocated count entries n Hok) as (a' & -> & Hok'); [lia|].
           cbn [bind]. rewrite incr32_small by (unfold UINT32_MAX, LIST_MAX in *; lia).
           rewrite (IH _ _ _ Hok') by (intros E; lia).
           replace (limit =? 0) with false by (symmetry; now apply Z.eqb_neq).
           replace (Z.to_nat (limit - count)) with (S (Z.to_nat (limit - (count + 1))))
             by lia.
           rewrite <- app_assoc. cbn [firstn List.length app]. do 2 f_equal. lia.
        -- rewrite (IH _ _ _ Hok) by (intros E; lia).
           replace (limit =? 0) with false by (symmetry; now apply Z.eqb_neq).
           reflexivity.
      * apply Z.ltb_ge in Ecl.
        replace (Z.to_nat (limit - count)) with O by lia.
        simpl. now rewrite app_nil_r, Z.add_0_r.
Qed.

(** The loop over a directory in which the filter keeps more than [LIST_MAX]
    names, when the limit does not stop it before: the store that follows the
    [LIST_MAX]-th is outside the array. *)
Lemma list_loop_overflow location marker prefix limit :
  limit = 0 \/ LIST_MAX < limit ->
  forall stream allocated count entries,
    array_ok allocated count entries ->
    count <= LIST_MAX ->
    LIST_MAX
    < count + Z.of_nat (List.length (kept_names (list_entry location marker prefix) stream)) ->
    list_loop location marker prefix limit stream allocated count entries = Fault.
Proof.
  intros Hlimit. induction stream as [|d stream IH]; intros allocated count entries Hok Hc Hb.
  - simpl in Hb. lia.
  - rewrite list_loop_cons. cbn [kept_names] in Hb.
    replace ((limit =? 0) || (count <? limit)) with true.
    2:{ symmetry. apply orb_true_iff. destruct Hlimit as [-> | H]; [now left|].
        right. apply Z.ltb_lt. lia. }
    destruct (list_entry location marker prefix d) as [n|]; [|now apply IH].
    cbn [List.length] in Hb.
    assert (0 <= count) as Hc0 by (destruct Hok as (-> & _); lia).
    destruct (Z.eq_dec count LIST_MAX) as [-> | Hne].
    + pose proof (store_past_max allocated entries n Hok) as F.
      destruct (allocated <=? LIST_MAX); cbv zeta in F |- *; now rewrite F.
    + destruct (store_next allocated count entries n Hok) as (a' & -> & Hok'); [lia|].
      cbn [bind]. rewrite incr32_small by (unfold UINT32_MAX, LIST_MAX in *; lia).
      apply IH; [exact Hok' | lia | lia].
Qed.

Lemma array_ok_empty : array_ok 0 0 [].
Proof. unfold array_ok. simpl. split; [reflexivity|]. split; [lia|]. exists 0. reflexivity. Qed.

(** A listing of a directory that [opendir] opens, for any marker, within
    the bounds of the array. *)
Lemma listing_any (w : world) (location : LOCAL_LOCATION) (marker prefix : option string)
    (limit : Z) (stream : list string) :
  fst (sys_opendir w (bucket location)) = Some stream ->
  0 <= limit <= LIST_MAX ->
  (limit = 0 ->
   Z.of_nat (List.length (kept_names (list_entry location marker prefix) stream)) <= LIST_MAX) ->
  local_location_list_internal w location marker prefix limit
  = Done (0,
          (if limit =? 0
           then kept_names (list_entry location marker prefix) stream
           else firstn (Z.to_nat limit)
                  (kept_names (list_entry location marker prefix) stream)),
          Z.of_nat (List.length
            (if limit =? 0
             then kept_names (list_entry location marker prefix) stream
             else firstn (Z.to_nat limit)
                    (kept_names (list_entry location marker prefix) stream))),
          stream_left_open w (bucket location)).
Proof.
  intros Hdir Hlimit Hb.
  unfold local_location_list_internal, stream_left_open. unfold sys_opendir in *.
  destruct (lookup_dir (w_dirs w) (bucket location)); [|discriminate].
  simpl in Hdir. injection Hdir as Hdir. rewrite Hdir.
  rewrite (list_loop_any location marker prefix limit Hlimit stream 0 0 [] array_ok_empty)
    by (intros E; specialize (Hb E); lia).
  rewrite Z.sub_0_r. reflexivity.
Qed.

(** A listing without a marker returns, in the order of the directory
    enumeration, the names of the entries that are not ["."] or [".."], do
    not begin with [TEMP_] or [FLUSH_], begin with the cluster prefix of the
    location and, past it, with the caller's prefix when there is one; the
    cluster prefix is stripped.  With [limit = 0] it returns all of them, with
    [limit > 0] the first [limit] of them, and the count is their number.
    This for a limit of at most [LIST_MAX] and, without a limit, for at most
    [LIST_MAX] such names.  The directory stream is not closed: the world
    afterwards has its descriptor in the descriptor table. *)
Theorem listing_without_marker (local : LOCAL_STORAGE) (w : world)
    (location : LOCAL_LOCATION) (prefix : option string) (limit : Z)
    (stream : list string) :
  fst (sys_opendir w (bucket location)) = Some stream ->
  0 <= limit <= LIST_MAX ->
  (limit = 0 ->
   Z.of_nat (List.length (visible_names (cluster_prefix location) prefix stream))
   <= LIST_MAX) ->
  exists names w',
    local_location_list local w location prefix limit
    = Done (0, names, Z.of_nat (List.length names),
            set_op_count local (incr64 (op_count local)), w')
    /\ names = (if limit =? 0
                then visible_names (cluster_prefix location) prefix stream
                else firstn (Z.to_nat limit)
                       (visible_names (cluster_prefix location) prefix stream))
    /\ (0 < limit -> Z.of_nat (List.length names) <= limit)
    /\ w_fds w' = (alloc_fd (w_fds w), dir_stream) :: w_fds w
    /\ w_log w' = w_log w ++ [EvOpendir (bucket location) (alloc_fd (w_fds w))]
    /\ w_dirs w' = w_dirs w /\ w_data w' = w_data w.
Proof.
  intros Hdir Hlimit Hb. rewrite <- kept_names_visible in *.
  eexists _, _. split; [|split; [reflexivity|split]].
  - unfold local_location_list.
    rewrite (listing_any w location None prefix limit stream Hdir Hlimit Hb).
    reflexivity.
  - intros Hpos. destruct (limit =? 0) eqn:El; [apply Z.eqb_eq in El; lia|].
    pose proof (firstn_le_length (Z.to_nat limit)
                  (kept_names (list_entry location None prefix) stream)).
    lia.
  - now repeat split.
Qed.

(** The listing of the example bucket with the prefix ["a"] and no limit. *)
Lemma listing_without_marker_witness :
  exists names w',
    local_location_list (local_init 0 0 0) world_listing example_location (Some "a") 0
    = Done (0, names, Z.of_nat (List.length names),
            set_op_count (local_init 0 0 0) (incr64 (op_count (local_init 0 0 0))), w')
    /\ names = (if 0 =? 0
                then visible_names (cluster_prefix example_location) (Some "a")
                       ["."; ".."; "c_a1"; "TEMP_c_a3"; "FLUSH_c_a3"; "d_a1"; "c_b"; "c_a2"]
                else firstn (Z.to_nat 0)
                       (visible_names (cluster_prefix example_location) (Some "a")
                          ["."; ".."; "c_a1"; "TEMP_c_a3"; "FLUSH_c_a3"; "d_a1"; "c_b";
                           "c_a2"]))
    /\ (0 < 0 -> Z.of_nat (List.length names) <= 0)
    /\ w_fds w' = (alloc_fd (w_fds world_listing), dir_stream) :: w_fds world_listing
    /\ w_log w'
       = w_log world_listing
         ++ [EvOpendir (bucket example_location) (alloc_fd (w_fds world_listing))]
    /\ w_dirs w' = w_dirs world_listing /\ w_data w' = w_data world_listing.
Proof.
  apply (listing_without_marker (local_init 0 0 0) world_listing example_location
           (Some "a") 0);
    [reflexivity | vm_compute; split; discriminate | intros _; vm_compute; discriminate].
Defined.

(** A listing of a directory in which more than [LIST_MAX] names pass the
    filter, with no limit or a limit beyond [LIST_MAX]: the store that follows
    the [LIST_MAX]-th is outside the array. *)
Lemma listing_overflow (local : LOCAL_STORAGE) (w : world) (location : LOCAL_LOCATION)
    (prefix : option string) (limit : Z) (stream : list string) :
  fst (sys_opendir w (bucket location)) = Some stream ->
  limit = 0 \/ LIST_MAX < limit ->
  LIST_MAX < Z.of_nat (List.length (visible_names (cluster_prefix location) prefix stream)) ->
  local_location_list local w location prefix limit = Fault.
Proof.
  intros Hdir Hlimit Hb. rewrite <- kept_names_visible in Hb.
  unfold local_location_list, local_location_list_internal. unfold sys_opendir in *.
  destruct (lookup_dir (w_dirs w) (bucket location)); [|discriminate].
  simpl in Hdir. injection Hdir as Hdir. rewrite Hdir.
  rewrite (list_loop_overflow location None prefix limit Hlimit stream 0 0 [] array_ok_empty);
    [reflexivity | unfold LIST_MAX; lia | lia].
Qed.

Lemma list_entry_numbered (s : string) :
  list_entry example_location None None ("c_" ++ s) = Some s.
Proof. unfold list_entry. simpl. now destruct s. Qed.

Lemma kept_numbered (n : nat) :
  List.length (kept_names (list_entry example_location None None) (map fst (numbered n))) = n.
Proof.
  unfold numbered. rewrite map_map. cbn [fst].
  transitivity (List.length (seq 0 n)); [|apply length_seq].
  generalize (seq 0 n). intros l.
  induction l as [|i l IH]; [reflexivity|].
  cbn [map kept_names]. rewrite list_entry_numbered. cbn [List.length]. now rewrite IH.
Qed.

Lemma kept_names_skip (f : string -> option string) (d : string) (l : list string) :
  f d = None -> kept_names f (d :: l) = kept_names f l.
Proof. intros H. simpl. now rewrite H. Qed.

(** C6.  The listing does not return all matches of every directory: in a
    bucket that holds 4294967291 objects of the cluster, a listing without a
    limit stores 4294967290 names, then adds ten to its [uint32_t] capacity,
    which wraps around to four slots, shrinks the array to them and stores the
    next name outside the array. *)
Theorem listing_overflow_faults :
  local_location_list (local_init 0 0 0) (world_numbered (Z.to_nat 4294967291))
    example_location None 0
  = Fault.
Proof.
  apply (listing_overflow _ _ _ _ _ ("." :: ".." :: map fst (numbered (Z.to_nat 4294967291)))).
  - reflexivity.
  - now left.
  - rewrite <- kept_names_visible.
    rewrite !kept_names_skip by reflexivity.
    rewrite kept_numbered. unfold LIST_MAX. lia.
Qed.

Example listing_example :
  local_location_list (local_init 0 0 0) world_listing example_location (Some "a") 1
  = Done (0, ["a1"], 1, set_op_count (local_init 0 0 0) 1,
          stream_left_open world_listing "bkt")
  /\ local_location_list (local_init 0 0 0) world_listing example_location None 0
     = Done (0, ["a1"; "b"; "a2"], 3, set_op_count (local_init 0 0 0) 1,
             stream_left_open world_listing "bkt").
Proof. split; reflexivity. Qed.

(** ** Reads and writes *)

Lemma sys_pread_result w fd len offset :
  (fst (fst (sys_pread w fd len offset)) = -1
   /\ w_errno (snd (sys_pread w fd len offset)) <> 0)
  \/ (0 <= len ->
      fst (fst (sys_pread w fd len offset))
      = Z.of_nat (List.length (snd (fst (sys_pread w fd len offset))))
      /\ fst (fst (sys_pread w fd len offset)) <= len).
Proof.
  unfold sys_pread.
  destruct (lookup_fd (w_fds w) fd) as [f|]; [|left; split; [reflexivity | discriminate]].
  destruct (negb (readable f));
    [left; split; [reflexivity | simpl; destruct (is_directory f); discriminate]|].
  destruct (offset <? 0); [left; split; [reflexivity | discriminate]|].
  right. intros Hlen. simpl. split; [reflexivity|].
  rewrite length_firstn. unfold transfer.
  destruct (w_short w); lia.
Qed.

(** A read reports success only when it stored exactly [len] bytes. *)
Lemma read_loop_success fuel :
  forall w fd ret offset len got r got' w',
    0 <= len ->
    read_loop fuel w fd ret offset len got = Some (r, got', w') ->
    r = 0 ->
    ret = 0 /\ Z.of_nat (List.length got') = Z.of_nat (List.length got) + len.
Proof.
  induction fuel as [|fuel IH]; intros w fd ret offset len got r got' w' Hlen H Hr;
    [discriminate|].
  cbn [read_loop] in H.
  destruct ((ret =? 0) && (0 <? len)) eqn:Hc.
  - apply andb_true_iff in Hc as [Hret Hpos].
    apply Z.eqb_eq in Hret. apply Z.ltb_lt in Hpos.
    pose proof (sys_pread_result w fd len offset) as R.
    destruct (sys_pread w fd len offset) as [[nbytes data] w1]. simpl in R.
    destruct R as [[-> Herr]|R].
    + simpl in H. apply IH in H; [|lia|exact Hr]. now destruct H.
    + destruct (R Hlen) as [Hn Hle].
      destruct (nbytes <? 0) eqn:En; [apply Z.ltb_lt in En; lia|].
      apply IH in H; [|lia|exact Hr]. destruct H as [_ H].
      split; [exact Hret|]. rewrite H, length_app. lia.
  - injection H as <- <- <-. subst ret. simpl in Hc. apply Z.ltb_ge in Hc.
    split; [reflexivity | lia].
Qed.

(** When a request reaches past the end of the file, [pread] transfers what
    is left and then returns [0]; the loop of [local_file_read] has nothing
    that ends it. *)
Lemma read_loop_past_end fuel :
  forall w fd f offset len got,
    lookup_fd (w_fds w) fd = Some f -> readable f = true ->
    0 <= offset -> 0 < len ->
    Z.of_nat (List.length (nth (of_ino f) (w_data w) [])) < offset + len ->
    read_loop fuel w fd 0 offset len got = None.
Proof.
  induction fuel as [|fuel IH]; intros w fd f offset len got Hfd Hr Hoff Hlen Hend;
    [reflexivity|].
  cbn [read_loop]. replace (0 <? len) with true by (symmetry; now apply Z.ltb_lt).
  unfold sys_pread. rewrite Hfd, Hr. cbn [negb Z.eqb andb].
  replace (offset <? 0) with false by (symmetry; apply Z.ltb_ge; lia).
  set (content := nth (of_ino f) (w_data w) []) in *.
  set (data := firstn (transfer w (Z.to_nat len)) (skipn (Z.to_nat offset) content)).
  assert (Z.of_nat (List.length data) < len) as Hshort.
  { unfold data. rewrite length_firstn, length_skipn. lia. }
  replace (Z.of_nat (List.length data) <? 0) with false by (symmetry; apply Z.ltb_ge; lia).
  apply (IH _ fd f); try assumption; try lia.
  simpl. fold content. lia.
Qed.

(** C8.  A read or write is meant to end with the full length transferred
    or with an I/O failure.  A read does not end when the request reaches
    past the end of the file: [pread] returns [0] at the end of the file,
    which the loop takes for a short transfer to retry, and no number of
    iterations gives a result. *)
Theorem read_past_end_never_returns (local : LOCAL_STORAGE) (w : world)
    (local_fh : LOCAL_FILE_HANDLE) (f : open_file) (offset len : Z) :
  lookup_fd (w_fds w) (fd local_fh) = Some f -> readable f = true ->
  0 <= offset -> 0 < len ->
  Z.of_nat (List.length (nth (of_ino f) (w_data w) [])) < offset + len ->
  forall fuel, local_file_read fuel local w local_fh offset len = None.
Proof.
  intros Hfd Hr Hoff Hlen Hend fuel. unfold local_file_read.
  now rewrite (read_loop_past_end fuel w (fd local_fh) f offset len []).
Qed.

(** A read of two bytes at offset two of the object of three bytes. *)
Lemma read_past_end_never_returns_witness :
  lookup_fd (w_fds world_reading) (fd example_reader) = Some (mk_open_file 0 O_RDONLY)
  /\ readable (mk_open_file 0 O_RDONLY) = true
  /\ 0 <= 2 /\ 0 < 2
  /\ Z.of_nat (List.length (nth (of_ino (mk_open_file 0 O_RDONLY)) (w_data world_reading) []))
     < 2 + 2
  /\ forall fuel,
       local_file_read fuel (local_init 0 0 0) world_reading example_reader 2 2 = None.
Proof.
  split; [reflexivity|]. split; [reflexivity|]. split; [lia|]. split; [lia|].
  split; [reflexivity|].
  apply (read_past_end_never_returns (local_init 0 0 0) world_reading example_reader
           (mk_open_file 0 O_RDONLY) 2 2);
    [reflexivity | reflexivity | lia | lia | reflexivity].
Defined.

(** Within the file the same read returns the bytes. *)
Example read_within_file :
  local_file_read 3 (local_init 0 0 0) world_reading example_reader 1 2
  = Some (0, [x02; x03], set_read_ops (local_init 0 0 0) 1,
          log world_reading (EvPread 3 2 1 2)).
Proof. reflexivity. Qed.

Lemma sys_pwrite_result w fd buf offset :
  (fst (sys_pwrite w fd buf offset) = -1 /\ w_errno (snd (sys_pwrite w fd buf offset)) <> 0)
  \/ (fst (sys_pwrite w fd buf offset) <= Z.of_nat (List.length buf)
      /\ (buf <> [] -> 0 < fst (sys_pwrite w fd buf offset))).
Proof.
  unfold sys_pwrite.
  destruct (lookup_fd (w_fds w) fd) as [f|]; [|left; split; [reflexivity | discriminate]].
  destruct (negb (writable f)); [left; split; [reflexivity | discriminate]|].
  destruct (offset <? 0); [left; split; [reflexivity | discriminate]|].
  right. simpl. rewrite length_firstn. unfold transfer.
  split; [destruct (w_short w); lia|].
  intros Hb. destruct buf; [congruence|]. simpl. destruct (w_short w); simpl; lia.
Qed.

(** A write ends: every call of [pwrite] fails or moves at least one byte.
    It reports success only when no byte of the buffer is left. *)
Lemma write_loop_ends fuel :
  forall w fd ret offset buf,
    (List.length buf + 2 <= fuel)%nat ->
    exists r rest w',
      write_loop fuel w fd ret offset buf = Some (r, rest, w')
      /\ (r = 0 -> ret = 0 /\ rest = []).
Proof.
  induction fuel as [|fuel IH]; intros w fd ret offset buf Hfuel; [lia|].
  cbn [write_loop].
  destruct ((ret =? 0) && (0 <? Z.of_nat (List.length buf))) eqn:Hc.
  - apply andb_true_iff in Hc as [Hret Hpos].
    apply Z.eqb_eq in Hret. apply Z.ltb_lt in Hpos.
    pose proof (sys_pwrite_result w fd buf offset) as R.
    destruct (sys_pwrite w fd buf offset) as [nbytes w1]. simpl in R.
    destruct R as [[-> Herr]|[Hle Hprog]].
    + simpl. destruct fuel as [|fuel]; [lia|]. cbn [write_loop].
      replace (w_errno w1 =? 0) with false by (symmetry; now apply Z.eqb_neq).
      simpl. eexists _, _, _. split; [reflexivity|]. intros E. now elim Herr.
    + assert (0 < nbytes) as Hn by (apply Hprog; destruct buf; [simpl in Hpos; lia | discriminate]).
      replace (nbytes <? 0) with false by (symmetry; apply Z.ltb_ge; lia).
      destruct (IH w1 fd ret (offset + nbytes) (skipn (Z.to_nat nbytes) buf))
        as (r & rest & w' & E & Hok).
      { rewrite length_skipn. lia. }
      exists r, rest, w'. split; [exact E | exact Hok].
  - eexists _, _, _. split; [reflexivity|]. intros ->.
    simpl in Hc. apply Z.ltb_ge in Hc. split; [reflexivity|].
    destruct buf; [reflexivity | simpl in Hc; lia].
Qed.

(** ** The records of the flush queue are stamped

    The drains are proved for queues whose records have a source path with
    an object name in it.  The queue is empty at first, a close enqueues a
    record stamped with the path of the handle, which the path codec built,
    and a drain only removes records. *)

Lemma strrchr_append (a b : string) (c : ascii) :
  strrchr b c <> None -> strrchr (a ++ b) c <> None.
Proof.
  intros H. induction a as [|x a IH]; simpl; [exact H|].
  destruct (strrchr (a ++ b) c); [discriminate | contradiction].
Qed.

Lemma path_has_object_name (location : LOCAL_LOCATION) (name : string)
    (marker : option string) :
  strrchr (local_location_path location name marker) "/" <> None.
Proof.
  rewrite local_location_path_concat. apply strrchr_append. simpl.
  destruct (strrchr _ "/"); discriminate.
Qed.

Lemma local_open_path (WT_SS_OPEN_CREATE WT_SS_OPEN_READONLY : Z) local w location name
    flags ret fh local' w' :
  local_open WT_SS_OPEN_CREATE WT_SS_OPEN_READONLY local w location name flags
  = Done (ret, Some fh, local', w') ->
  path fh = local_location_path location name None.
Proof.
  unfold local_open, local_file_close_internal.
  destruct (flags =? WT_SS_OPEN_CREATE).
  - destruct (sys_open w _ _ 438) as [mfd w1].
    destruct (mfd <? 0); simpl.
    { destruct (sys_close w1 0); discriminate. }
    destruct (sys_close w1 mfd) as [r w2].
    destruct (r <? 0); simpl.
    { destruct (sys_close w2 0); discriminate. }
    destruct (sys_open w2 _ _ 292) as [tfd w3].
    destruct (tfd <? 0); simpl.
    { destruct (sys_close w3 0); discriminate. }
    now intros [= _ <- _ _].
  - destruct (flags =? WT_SS_OPEN_READONLY); [|discriminate].
    destruct (sys_open w _ _ 292) as [tfd w3].
    destruct (tfd <? 0); simpl.
    { destruct (sys_close w3 0); discriminate. }
    now intros [= _ <- _ _].
Qed.

Lemma close_keeps_well_stamped local w local_fh ret local' w' :
  well_stamped (flushq local) ->
  strrchr (path local_fh) "/" <> None ->
  local_file_close local w local_fh = Done (ret, local', w') ->
  well_stamped (flushq local').
Proof.
  intros Hq Hp. unfold local_file_close.
  destruct (flush local_fh) as [fl|]; cbv beta iota zeta;
    match goal with
    | |- context [local_file_close_internal ?a ?b ?c] =>
        destruct (local_file_close_internal a b c) as [[t w1]|]
    end; simpl; try discriminate; intros [= _ <- _]; simpl; [|exact Hq].
  unfold well_stamped. simpl. apply andb_true_iff. split; [|exact Hq].
  unfold has_object_name. simpl. now destruct (strrchr (path local_fh) "/").
Qed.

Lemma well_stamped_stamped q : well_stamped q -> stamped q.
Proof.
  unfold well_stamped, stamped, has_object_name.
  induction q as [|f q IH]; simpl; [reflexivity|].
  intros Hq. apply andb_true_iff in Hq as [Hf Hq]. rewrite (IH Hq).
  destruct (src_path f); [reflexivity | discriminate].
Qed.

Lemma well_stamped_filter (keep : LOCAL_FLUSH_ITEM -> bool) q :
  well_stamped q -> well_stamped (filter keep q).
Proof.
  unfold well_stamped. induction q as [|f q IH]; simpl; [reflexivity|].
  intros Hq. apply andb_true_iff in Hq as [Hf Hq].
  destruct (keep f); simpl; [rewrite Hf; simpl|]; now apply IH.
Qed.

Lemma flush_keeps_well_stamped local w location name ret local' w' :
  well_stamped (flushq local) ->
  local_flush local w location name = Done (ret, local', w') ->
  well_stamped (flushq local').
Proof.
  intros Hq H.
  assert ((location = None -> name = None) \/ exists n, location = None /\ name = Some n)
    as [Hn|(n & -> & ->)].
  { destruct location; [left; discriminate|]. destruct name; [right; eauto | now left]. }
  - rewrite (local_flush_unfold _ _ _ _ Hn) in H.
    destruct (flush_loop_keeps location name Hn (flushq local) 0 []
                (set_op_count local (incr64 (op_count local))) w
                (well_stamped_stamped _ Hq))
      as (ret0 & local0 & w0 & E & Hk).
    rewrite E in H. injection H as _ <- _. rewrite Hk. simpl.
    now apply well_stamped_filter.
  - simpl in H. now injection H as _ <- _.
Qed.

(** ** The life of an object *)

Example lifecycle_runs : lifecycle = Some (["obj"], true, false, []).
Proof. reflexivity. Qed.

(** * More of the storage source *)

(** ** Locations *)

Lemma substring_empty (n m : nat) : substring n m "" = "".
Proof. now destruct n, m. Qed.

Lemma local_config_dup_plain (v : string) : local_config_dup v None None = inr v.
Proof.
  unfold local_config_dup, snprintf, strncat, strlen.
  cbn [String.length]. rewrite substring_whole by lia.
  now rewrite substring_empty, append_nil_r.
Qed.

(** Location-open keeps what the location string says: when the three
    fields are there, the bucket is not empty and the cluster is free of
    ["_/"], it returns a location that decodes to the bucket, the cluster
    followed by ["_"], and the key-management id, all three as given. *)
Theorem location_handle_round_trip (local : LOCAL_STORAGE) (info : string)
    (parser : WT_CONFIG_PARSER) (b c k : string) :
  config_parser_open (wt_api local) info = inr parser ->
  parser_get parser "bucket" = Found b ->
  parser_get parser "cluster" = Found c ->
  parser_get parser "kmsid" = Found k ->
  parser_close parser = 0 ->
  b <> "" -> strstr c "_/" = None ->
  exists location,
    local_location_handle local info
    = (0, Some location, set_op_count local (incr64 (op_count local)))
    /\ local_location_decode location = (b, (c ++ "_")%string, k).
Proof.
  intros Hopen Hb Hc Hk Hclose Hne Hok.
  exists (mk_location (c ++ "_") b k). split; [|reflexivity].
  unfold local_location_handle. cbn [wt_api set_op_count].
  rewrite Hopen, Hb.
  destruct b as [|x b]; [congruence|]. cbn [strlen String.length Nat.eqb].
  rewrite local_config_dup_plain, Hc, (local_config_dup_accept _ _ _ Hok), Hk.
  rewrite local_config_dup_plain, Hclose. reflexivity.
Qed.

(** The location string of the examples, parsed by the example host. *)
Lemma location_handle_round_trip_witness :
  exists location,
    local_location_handle (local_init 0 0 0) "bucket=bkt,cluster=c,kmsid=k"
    = (0, Some location,
       set_op_count (local_init 0 0 0) (incr64 (op_count (local_init 0 0 0))))
    /\ local_location_decode location = ("bkt", ("c" ++ "_")%string, "k").
Proof.
  apply (location_handle_round_trip (local_init 0 0 0) "bucket=bkt,cluster=c,kmsid=k"
           (mk_parser (lookup_key (map key_value (fields "," "bucket=bkt,cluster=c,kmsid=k"))) 0)
           "bkt" "c" "k");
    try reflexivity.
  discriminate.
Defined.

(** Location-open returns [EINVAL] and no location when the bucket is
    missing or empty, when the cluster is missing or has ["_/"] in it, or when
    the key-management id is missing. *)
Theorem location_handle_rejects (local : LOCAL_STORAGE) (info : string)
    (parser : WT_CONFIG_PARSER) :
  config_parser_open (wt_api local) info = inr parser ->
  parser_close parser = 0 ->
  parser_get parser "bucket" = NotFound
  \/ parser_get parser "bucket" = Found ""
  \/ (exists b, parser_get parser "bucket" = Found b /\ b <> ""
      /\ (parser_get parser "cluster" = NotFound
          \/ exists c, parser_get parser "cluster" = Found c
             /\ (strstr c "_/" <> None \/ parser_get parser "kmsid" = NotFound))) ->
  local_location_handle local info
  = (EINVAL, None, set_op_count local (incr64 (op_count local))).
Proof.
  intros Hopen Hclose H. unfold local_location_handle. cbn [wt_api set_op_count].
  rewrite Hopen, Hclose.
  destruct H as [->|[->|(b & -> & Hne & H)]]; try reflexivity.
  destruct b as [|x b]; [congruence|]. cbn [strlen String.length Nat.eqb].
  rewrite local_config_dup_plain.
  destruct H as [->|(c & -> & H)]; [reflexivity|].
  destruct H as [H| ->].
  - unfold local_config_dup at 1. unfold snprintf, strlen.
    rewrite substring_whole by (simpl; lia).
    destruct (strstr c "_/"); [reflexivity | congruence].
  - destruct (local_config_dup c (Some "_") (Some "_/")) as [r|p] eqn:E; [|reflexivity].
    unfold local_config_dup in E. destruct (match strstr _ _ with Some _ => true | None => false end);
      [now injection E as <- | discriminate].
Qed.

(** A location string without a cluster. *)
Lemma location_handle_rejects_witness :
  local_location_handle (local_init 0 0 0) "bucket=bkt,kmsid=k"
  = (EINVAL, None, set_op_count (local_init 0 0 0) (incr64 (op_count (local_init 0 0 0)))).
Proof.
  apply (location_handle_rejects (local_init 0 0 0) "bucket=bkt,kmsid=k"
           (mk_parser (lookup_key (map key_value (fields "," "bucket=bkt,kmsid=k"))) 0));
    [reflexivity | reflexivity |].
  right. right. exists "bkt". split; [reflexivity|]. split; [discriminate|].
  left. reflexivity.
Defined.

(** ** The three paths of an object *)

Lemma final_marked_distinct (location : LOCAL_LOCATION) (name m : string) :
  m <> "" ->
  local_location_path location name None <> local_location_path location name (Some m).
Proof.
  intros Hm. rewrite !local_location_path_concat. intros E.
  apply (f_equal String.length) in E. rewrite !length_append in E.
  destruct m; [congruence|]. simpl in E. lia.
Qed.

(** The final path, the marker path and the temp path of an object are three
    different paths. *)
Theorem object_paths_distinct (location : LOCAL_LOCATION) (name : string) :
  local_location_path location name None
  <> local_location_path location name (Some MARKER_NEED_FLUSH)
  /\ local_location_path location name None
     <> local_location_path location name (Some MARKER_TEMPORARY)
  /\ local_location_path location name (Some MARKER_NEED_FLUSH)
     <> local_location_path location name (Some MARKER_TEMPORARY).
Proof.
  repeat split; [apply final_marked_distinct; discriminate ..| apply marker_temp_distinct].
Qed.

(** ** Paths and the files they name *)

Lemma split_path_some (p : string) :
  forall d b, split_path p = Some (d, b) -> p = (d ++ "/" ++ b)%string.
Proof.
  induction p as [|c p IH]; simpl; intros d b H; [discriminate|].
  destruct (split_path p) as [[d' b']|].
  - injection H as <- <-. simpl. f_equal. now apply IH.
  - destruct (Ascii.eqb_spec c "/") as [->|]; [|discriminate].
    now injection H as <- <-.
Qed.

Lemma split_path_append (a b : string) : split_path (a ++ "/" ++ b) <> None.
Proof.
  induction a as [|c a IH]; simpl.
  - destruct (split_path b) as [[d' b']|]; discriminate.
  - simpl in IH. destruct (split_path (a ++ String "/" b)) as [[d' b']|];
      [discriminate | congruence].
Qed.

(** Two paths with a directory part name the same entry only when they are
    the same path. *)
Lemma dir_base_inj (p q : string) :
  split_path p <> None -> split_path q <> None -> dir_base p = dir_base q -> p = q.
Proof.
  unfold dir_base. intros Hp Hq.
  destruct (split_path p) as [[d b]|] eqn:Ep; [|congruence].
  destruct (split_path q) as [[d' b']|] eqn:Eq; [|congruence].
  intros [= <- <-]. apply split_path_some in Ep, Eq. congruence.
Qed.

Lemma object_path_split (location : LOCAL_LOCATION) (name : string) (marker : option string) :
  split_path (local_location_path location name marker) <> None.
Proof. rewrite local_location_path_concat. apply split_path_append. Qed.

Lemma object_paths_name_distinct_files (l1 l2 : LOCAL_LOCATION) (n1 n2 : string)
    (m1 m2 : option string) :
  local_location_path l1 n1 m1 <> local_location_path l2 n2 m2 ->
  dir_base (local_location_path l1 n1 m1) <> dir_base (local_location_path l2 n2 m2).
Proof.
  intros Hne E. apply Hne. apply dir_base_inj; [apply object_path_split .. | exact E].
Qed.

Lemma lookup_ent_app_other ents b b' ino :
  b' <> b -> lookup_ent (ents ++ [(b, ino)]) b' = lookup_ent ents b'.
Proof.
  intros Hne. induction ents as [|[b0 i0] ents IH]; simpl.
  - destruct (String.eqb_spec b b'); [congruence | reflexivity].
  - now rewrite IH.
Qed.

Lemma lookup_remove_ent_other ents b b' :
  b' <> b -> lookup_ent (remove_ent ents b) b' = lookup_ent ents b'.
Proof.
  intros Hne. induction ents as [|[b0 i0] ents IH]; simpl; [reflexivity|].
  destruct (String.eqb_spec b0 b) as [->|]; simpl.
  - rewrite IH. destruct (String.eqb_spec b b'); [congruence | reflexivity].
  - now rewrite IH.
Qed.

Lemma lookup_put_ent_other ents b b' ino :
  b' <> b -> lookup_ent (put_ent ents b ino) b' = lookup_ent ents b'.
Proof.
  intros Hne. induction ents as [|[b0 i0] ents IH]; simpl.
  - destruct (String.eqb_spec b b'); [congruence | reflexivity].
  - destruct (String.eqb_spec b0 b) as [->|]; simpl; [|now rewrite IH].
    destruct (String.eqb_spec b b'); [congruence | reflexivity].
Qed.

(** A change of the entry [b] of the directory [d] is seen by the paths that
    name that entry only. *)
Lemma resolve_frame w w' d ents ents' b q :
  w_dirs w' = update_dir (w_dirs w) d ents' ->
  lookup_dir (w_dirs w) d = Some ents ->
  (forall b', b' <> b -> lookup_ent ents' b' = lookup_ent ents b') ->
  dir_base q <> (d, b) ->
  resolve w' q = resolve w q.
Proof.
  intros Hw Hd Hents Hq. unfold resolve. rewrite Hw.
  destruct (dir_base q) as [d' b'].
  destruct (string_dec d d') as [<-|Hne].
  - rewrite (lookup_update_dir_same _ _ _ _ Hd), Hd. apply Hents. congruence.
  - now rewrite (lookup_update_dir_other _ _ _ _ Hne).
Qed.

Lemma sys_open_frame w p oflags mode q :
  dir_base q <> dir_base p ->
  resolve (snd (sys_open w p oflags mode)) q = resolve w q.
Proof.
  intros Hq. unfold sys_open. destruct (dir_base p) as [d b].
  destruct (lookup_dir (w_dirs w) d) as [ents|] eqn:Ed; [|reflexivity].
  destruct (lookup_ent ents b); [reflexivity|].
  destruct (Z.land oflags O_CREAT =? 0); [reflexivity|].
  apply (resolve_frame w _ d ents (ents ++ [(b, List.length (w_data w))]) b);
    [reflexivity | exact Ed | | exact Hq].
  intros b' Hb. now apply lookup_ent_app_other.
Qed.

Lemma sys_unlink_frame w p q :
  dir_base q <> dir_base p ->
  resolve (snd (sys_unlink w (Some p))) q = resolve w q.
Proof.
  intros Hq. unfold sys_unlink. destruct (dir_base p) as [d b].
  destruct (lookup_dir (w_dirs w) d) as [ents|] eqn:Ed; [|reflexivity].
  destruct (lookup_ent ents b); [|reflexivity].
  apply (resolve_frame w _ d ents (remove_ent ents b) b);
    [reflexivity | exact Ed | | exact Hq].
  intros b' Hb. now apply lookup_remove_ent_other.
Qed.

Lemma sys_rename_frame w old new q :
  dir_base q <> dir_base old -> dir_base q <> dir_base new ->
  resolve (snd (sys_rename w old new)) q = resolve w q.
Proof.
  intros Hold Hnew. unfold sys_rename.
  destruct (dir_base old) as [d1 b1]. destruct (dir_base new) as [d2 b2].
  destruct (lookup_dir (w_dirs w) d1) as [ents1|] eqn:Ed1; [|reflexivity].
  destruct (lookup_ent ents1 b1) as [ino|]; [|reflexivity].
  destruct (String.eqb old new); [reflexivity|].
  destruct (lookup_dir (update_dir (w_dirs w) d1 (remove_ent ents1 b1)) d2)
    as [ents2|] eqn:Ed2; [|reflexivity].
  set (w1 := set_dirs w (update_dir (w_dirs w) d1 (remove_ent ents1 b1))).
  transitivity (resolve w1 q).
  - apply (resolve_frame w1 _ d2 ents2 (put_ent ents2 b2 ino) b2);
      [reflexivity | exact Ed2 | | exact Hnew].
    intros b' Hb. now apply lookup_put_ent_other.
  - apply (resolve_frame w w1 d1 ents1 (remove_ent ents1 b1) b1);
      [reflexivity | exact Ed1 | | exact Hold].
    intros b' Hb. now apply lookup_remove_ent_other.
Qed.

(** After a [rename] that succeeded the old path names nothing, unless it
    names the entry the new path names. *)
Lemma sys_rename_old_gone w old new :
  fst (sys_rename w old new) = 0 -> dir_base old <> dir_base new ->
  resolve (snd (sys_rename w old new)) old = None.
Proof.
  unfold sys_rename, resolve.
  destruct (dir_base old) as [d1 b1] eqn:E1. destruct (dir_base new) as [d2 b2] eqn:E2.
  destruct (lookup_dir (w_dirs w) d1) as [ents1|] eqn:Ed1; [|discriminate].
  destruct (lookup_ent ents1 b1) as [ino|]; [|discriminate].
  destruct (String.eqb_spec old new) as [Heq|Hon].
  - intros _ Hne. subst new. congruence.
  - destruct (lookup_dir (update_dir (w_dirs w) d1 (remove_ent ents1 b1)) d2)
      as [ents2|] eqn:Ed2; [|discriminate].
    intros _ Hne. simpl.
    destruct (string_dec d2 d1) as [->|Hd].
    + rewrite (lookup_update_dir_same _ _ _ _ Ed2).
      rewrite (lookup_update_dir_same _ _ _ _ Ed1) in Ed2. injection Ed2 as <-.
      rewrite lookup_put_ent_other by congruence. apply lookup_remove_ent.
    + rewrite (lookup_update_dir_other _ _ _ _ Hd).
      rewrite (lookup_update_dir_same _ _ _ _ Ed1). apply lookup_remove_ent.
Qed.


(** ** Opening objects *)

(** The two ways an [open] goes. *)
Lemma sys_open_cases w p oflags mode :
  (fst (sys_open w p oflags mode) < 0
   /\ w_errno (snd (sys_open w p oflags mode)) = missing_errno w p
   /\ resolve w p = None
   /\ w_dirs (snd (sys_open w p oflags mode)) = w_dirs w
   /\ w_fds (snd (sys_open w p oflags mode)) = w_fds w
   /\ w_data (snd (sys_open w p oflags mode)) = w_data w)
  \/ (0 <= fst (sys_open w p oflags mode)
      /\ exists ino,
           resolve (snd (sys_open w p oflags mode)) p = Some ino
           /\ w_fds (snd (sys_open w p oflags mode))
              = (fst (sys_open w p oflags mode), mk_open_file ino oflags) :: w_fds w
           /\ ((resolve w p = Some ino
                /\ w_dirs (snd (sys_open w p oflags mode)) = w_dirs w
                /\ w_data (snd (sys_open w p oflags mode)) = w_data w)
               \/ (resolve w p = None /\ Z.land oflags O_CREAT <> 0
                   /\ ino = List.length (w_data w)
                   /\ w_data (snd (sys_open w p oflags mode)) = w_data w ++ [[]]))).
Proof.
  pose proof (alloc_fd_nonneg (w_fds w)) as Hfd.
  unfold sys_open, resolve, missing_errno. destruct (dir_base p) as [d b]. cbn [fst].
  destruct (lookup_dir (w_dirs w) d) as [ents|] eqn:Ed.
  - destruct (lookup_ent ents b) as [ino|] eqn:Eb.
    + right. split; [exact Hfd|]. exists ino. simpl. rewrite Ed, Eb. auto 10.
    + destruct (Z.land oflags O_CREAT =? 0) eqn:Ec.
      * left. simpl. repeat split; lia.
      * right. split; [exact Hfd|]. exists (List.length (w_data w)). simpl.
        rewrite (lookup_update_dir_same _ _ _ _ Ed).
        apply Z.eqb_neq in Ec.
        assert (lookup_ent (ents ++ [(b, List.length (w_data w))]) b
                = Some (List.length (w_data w))) as ->.
        { clear - Eb. induction ents as [|[b0 i0] ents IH]; simpl in *.
          - now rewrite String.eqb_refl.
          - destruct (String.eqb b0 b); [discriminate | auto]. }
        auto 10.
  - left. simpl. repeat split; lia.
Qed.

Lemma remove_fd_absent fds fd : lookup_fd fds fd = None -> remove_fd fds fd = fds.
Proof.
  induction fds as [|[fd0 f0] fds IH]; simpl; [reflexivity|].
  destruct (fd0 =? fd); [discriminate|]. intros H. now rewrite IH.
Qed.

(** What [close] does to the world. *)
Lemma sys_close_cases w fd :
  w_fds (snd (sys_close w fd)) = remove_fd (w_fds w) fd
  /\ w_dirs (snd (sys_close w fd)) = w_dirs w
  /\ w_data (snd (sys_close w fd)) = w_data w
  /\ ((lookup_fd (w_fds w) fd <> None /\ fst (sys_close w fd) = 0)
      \/ (lookup_fd (w_fds w) fd = None /\ fst (sys_close w fd) = -1
          /\ w_errno (snd (sys_close w fd)) = EBADF)).
Proof.
  unfold sys_close. destruct (lookup_fd (w_fds w) fd) eqn:E; simpl.
  - repeat split. left. split; [discriminate | reflexivity].
  - rewrite (remove_fd_absent _ _ E). repeat split. right. now repeat split.
Qed.

Opaque sys_open sys_close sys_rename sys_unlink local_location_path.

Ltac open_cases w p o m nfd nw H :=
  pose proof (sys_open_cases w p o m) as H;
  destruct (sys_open w p o m) as [nfd nw]; cbn [fst snd] in H.

Ltac close_cases w fd nr nw H :=
  pose proof (sys_close_cases w fd) as H;
  destruct (sys_close w fd) as [nr nw]; cbn [fst snd] in H.



(** An open that fails closes descriptor 0.  The error path closes the
    descriptor of a handle that never got one, and its [fd] field is still
    zero: whatever the process has open as descriptor 0 is closed.  No handle
    is returned and the registry and the flush queue are as before. *)
Theorem open_failure_closes_descriptor_zero (WT_SS_OPEN_CREATE WT_SS_OPEN_READONLY : Z)
    (local : LOCAL_STORAGE) (w : world) (location : LOCAL_LOCATION) (name : string)
    (flags ret : Z) (fh : option LOCAL_FILE_HANDLE) (local' : LOCAL_STORAGE) (w' : world) :
  local_open WT_SS_OPEN_CREATE WT_SS_OPEN_READONLY local w location name flags
  = Done (ret, fh, local', w') ->
  ret <> 0 ->
  fh = None
  /\ local' = set_op_count local (incr64 (op_count local))
  /\ w_fds w' = remove_fd (w_fds w) 0
  /\ exists evs r, w_log w' = evs ++ [EvClose 0 r].
Proof.
  unfold local_open, local_file_close_internal.
  destruct (flags =? WT_SS_OPEN_CREATE).
  - simpl.
    open_cases w (local_location_path location name (Some MARKER_NEED_FLUSH)) 65 438
      mfd w1 Hm.
    destruct (mfd <? 0) eqn:Efd.
    + apply Z.ltb_lt in Efd.
      destruct Hm as [(_ & _ & _ & _ & Hf & _)|(Hfd & _)]; [|lia].
      pose proof (sys_close_effect w1 0) as [Hl _].
      close_cases w1 0 r w2 Hc. destruct Hc as (Hf1 & _). simpl in *.
      intros [= <- <- <- <-] _. repeat split; [congruence | eauto].
    + destruct Hm as [(Hfd & _)|(_ & ino & _ & Hf & _)]; [apply Z.ltb_ge in Efd; lia|].
      close_cases w1 mfd r w2 Hc. destruct Hc as (Hf1 & _).
      assert (w_fds w2 = w_fds w) as Hf2.
      { rewrite Hf1, Hf. simpl. now rewrite Z.eqb_refl. }
      destruct (r <? 0).
      * pose proof (sys_close_effect w2 0) as [Hl _].
        close_cases w2 0 r3 w3 Hc. destruct Hc as (Hf3 & _). simpl in *.
        intros [= <- <- <- <-] _. repeat split; [congruence | eauto].
      * open_cases w2 (local_location_path location name (Some MARKER_TEMPORARY)) 65 292
          tfd w3 Ht.
        destruct (tfd <? 0) eqn:Efd0.
        -- apply Z.ltb_lt in Efd0.
           destruct Ht as [(_ & _ & _ & _ & Hf3 & _)|(Hfd & _)]; [|lia].
           pose proof (sys_close_effect w3 0) as [Hl _].
           close_cases w3 0 r4 w4 Hc. destruct Hc as (Hf4 & _). simpl in *.
           intros [= <- <- <- <-] _. repeat split; [congruence | eauto].
        -- intros [= <- _ _ _] Hret. now elim Hret.
  - destruct (flags =? WT_SS_OPEN_READONLY); [|discriminate]. simpl.
    open_cases w (local_location_path location name None) O_RDONLY 292 tfd w3 Ht.
    destruct (tfd <? 0) eqn:Efd.
    + apply Z.ltb_lt in Efd.
      destruct Ht as [(_ & _ & _ & _ & Hf3 & _)|(Hfd & _)]; [|lia].
      pose proof (sys_close_effect w3 0) as [Hl _].
      close_cases w3 0 r4 w4 Hc. destruct Hc as (Hf4 & _). simpl in *.
      intros [= <- <- <- <-] _. repeat split; [congruence | eauto].
    + intros [= <- _ _ _] Hret. now elim Hret.
Qed.

(** A read-only open of a missing object, in a process whose descriptor 0
    is open on a terminal. *)
Lemma open_failure_closes_descriptor_zero_witness :
  (None : option LOCAL_FILE_HANDLE) = None
  /\ set_op_count (local_init 0 0 0) (incr64 (op_count (local_init 0 0 0)))
     = set_op_count (local_init 0 0 0) (incr64 (op_count (local_init 0 0 0)))
  /\ w_fds world_stdin_closed = remove_fd (w_fds world_with_stdin) 0
  /\ exists evs r, w_log world_stdin_closed = evs ++ [EvClose 0 r].
Proof.
  apply (open_failure_closes_descriptor_zero 1 2 (local_init 0 0 0) world_with_stdin
           example_location "obj" 2 ENOENT None
           (set_op_count (local_init 0 0 0) (incr64 (op_count (local_init 0 0 0))))
           world_stdin_closed); [reflexivity | vm_compute; discriminate].
Defined.

Lemma local_open_readonly (WT_SS_OPEN_CREATE WT_SS_OPEN_READONLY : Z)
    (local : LOCAL_STORAGE) (w : world) (location : LOCAL_LOCATION) (name : string)
    (ino : nat) :
  WT_SS_OPEN_READONLY <> WT_SS_OPEN_CREATE ->
  resolve w (local_location_path location name None) = Some ino ->
  exists fh w',
    local_open WT_SS_OPEN_CREATE WT_SS_OPEN_READONLY local w location name
      WT_SS_OPEN_READONLY
    = Done (0, Some fh,
            set_fileq (set_op_count local (incr64 (op_count local))) (fh :: fileq local), w')
    /\ fh = mk_file_handle (Some name) (fd fh) (local_location_path location name None)
              None None
    /\ w_fds w' = (fd fh, mk_open_file ino O_RDONLY) :: w_fds w
    /\ w_dirs w' = w_dirs w /\ w_data w' = w_data w.
Proof.
  intros Hne Hino. unfold local_open, local_file_close_internal.
  apply Z.eqb_neq in Hne. rewrite Hne, Z.eqb_refl. simpl.
  open_cases w (local_location_path location name None) O_RDONLY 292 ofd w1 Ho.
  destruct Ho as [(_ & _ & Hr & _)|(Hfd & ino' & _ & Hf & [(Hr0 & Hd & Hdata)|(Hr0 & _)])];
    try congruence.
  replace (ofd <? 0) with false by (symmetry; now apply Z.ltb_ge).
  eexists _, w1. split; [reflexivity|]. simpl.
  rewrite Hino in Hr0. injection Hr0 as <-. auto.
Qed.

(** A read-only open of an object that is there returns a handle on its
    file.  The handle has no temp path and no flush record, it is the new head
    of the registry, and no directory or file has changed. *)
Theorem open_readonly_existing (WT_SS_OPEN_CREATE WT_SS_OPEN_READONLY : Z)
    (local : LOCAL_STORAGE) (w : world) (location : LOCAL_LOCATION) (name : string)
    (ino : nat) :
  WT_SS_OPEN_READONLY <> WT_SS_OPEN_CREATE ->
  resolve w (local_location_path location name None) = Some ino ->
  exists fh w',
    local_open WT_SS_OPEN_CREATE WT_SS_OPEN_READONLY local w location name
      WT_SS_OPEN_READONLY
    = Done (0, Some fh,
            set_fileq (set_op_count local (incr64 (op_count local))) (fh :: fileq local), w')
    /\ fh = mk_file_handle (Some name) (fd fh) (local_location_path location name None)
              None None
    /\ w_fds w' = (fd fh, mk_open_file ino O_RDONLY) :: w_fds w
    /\ w_dirs w' = w_dirs w /\ w_data w' = w_data w.
Proof. apply local_open_readonly. Qed.

(** The object of three bytes of the examples. *)
Lemma open_readonly_existing_witness :
  exists fh w',
    local_open 1 2 (local_init 0 0 0) world_reading example_location "obj" 2
    = Done (0, Some fh,
            set_fileq (set_op_count (local_init 0 0 0) (incr64 (op_count (local_init 0 0 0))))
              (fh :: fileq (local_init 0 0 0)), w')
    /\ fh = mk_file_handle (Some "obj") (fd fh)
              (local_location_path example_location "obj" None) None None
    /\ w_fds w' = (fd fh, mk_open_file 0 O_RDONLY) :: w_fds world_reading
    /\ w_dirs w' = w_dirs world_reading /\ w_data w' = w_data world_reading.
Proof.
  apply (open_readonly_existing 1 2 (local_init 0 0 0) world_reading example_location
           "obj" 0%nat); [lia | reflexivity].
Defined.


Lemma sys_open_facts w p oflags mode :
  (forall q, dir_base q <> dir_base p ->
             resolve (snd (sys_open w p oflags mode)) q = resolve w q)
  /\ (forall q, path_exists w q = true ->
                path_exists (snd (sys_open w p oflags mode)) q = true).
Proof.
  split; intros q H; [now apply sys_open_frame | now apply sys_open_keeps].
Qed.

Ltac open_facts w p o m nfd nw H F :=
  pose proof (sys_open_cases w p o m) as H;
  pose proof (sys_open_facts w p o m) as F;
  destruct (sys_open w p o m) as [nfd nw]; cbn [fst snd] in H, F.

(** A result that is the [errno] of a failed lookup is not [0]. *)
Ltac lookup_failed H :=
  let E := fresh in
  simpl; rewrite H; intros E; injection E; intros; exfalso;
  match goal with
  | X : missing_errno _ _ = 0 |- _ => exact (missing_errno_nonzero _ _ X)
  end.

(** What a create that succeeded has done. *)
Lemma local_open_created (WT_SS_OPEN_CREATE WT_SS_OPEN_READONLY : Z)
    (local : LOCAL_STORAGE) (w : world) (location : LOCAL_LOCATION) (name : string)
    (ofh : option LOCAL_FILE_HANDLE) (local' : LOCAL_STORAGE) (w' : world) :
  local_open WT_SS_OPEN_CREATE WT_SS_OPEN_READONLY local w location name WT_SS_OPEN_CREATE
  = Done (0, ofh, local', w') ->
  exists fh ino,
    ofh = Some fh
    /\ fh = mk_file_handle (Some name) (fd fh) (local_location_path location name None)
              (Some (local_location_path location name (Some MARKER_TEMPORARY)))
              (Some (mk_flush_item None
                       (Some (local_location_path location name (Some MARKER_NEED_FLUSH)))
                       (Some (bucket location)) (Some (kmsid location))))
    /\ local' = set_fileq (set_op_count local (incr64 (op_count local))) (fh :: fileq local)
    /\ (forall q,
          dir_base q <> dir_base (local_location_path location name (Some MARKER_NEED_FLUSH)) ->
          dir_base q <> dir_base (local_location_path location name (Some MARKER_TEMPORARY)) ->
          resolve w' q = resolve w q)
    /\ path_exists w' (local_location_path location name (Some MARKER_NEED_FLUSH)) = true
    /\ resolve w' (local_location_path location name (Some MARKER_TEMPORARY)) = Some ino
    /\ w_fds w' = (fd fh, mk_open_file ino (Z.lor O_WRONLY O_CREAT)) :: w_fds w
    /\ (resolve w (local_location_path location name (Some MARKER_TEMPORARY)) = None ->
        (ino < List.length (w_data w'))%nat /\ nth ino (w_data w') [] = []).
Proof.
  pose proof (marker_temp_distinct location name) as Hmt.
  unfold local_open, local_file_close_internal. rewrite Z.eqb_refl. simpl.
  change (Z.lor O_WRONLY O_CREAT) with 65.
  set (marker := local_location_path location name (Some MARKER_NEED_FLUSH)) in *.
  set (temp := local_location_path location name (Some MARKER_TEMPORARY)) in *.
  assert (dir_base temp <> dir_base marker) as Hfiles.
  { unfold temp, marker. apply object_paths_name_distinct_files.
    intros E. apply Hmt. symmetry. exact E. }
  open_facts w marker 65 438 mfd w1 Hm Fm. destruct Fm as [Fm Km].
  destruct (mfd <? 0) eqn:Emfd.
  { apply Z.ltb_lt in Emfd.
    destruct Hm as [(_ & Herr & _)|(Hfd & _)]; [|lia].
    close_cases w1 0 r w2 Hc. lookup_failed Herr. }
  destruct Hm as [(Hfd & _)|(_ & mino & Hmr & Hmf & _)]; [apply Z.ltb_ge in Emfd; lia|].
  close_cases w1 mfd r w2 Hc. destruct Hc as (Hf2 & Hd2 & Hdata2 & Hres).
  assert (w_fds w2 = w_fds w) as Hfds2.
  { rewrite Hf2, Hmf. simpl. now rewrite Z.eqb_refl. }
  destruct (r <? 0) eqn:Er.
  { destruct Hres as [[_ ->]|(_ & -> & Herr)]; [discriminate|].
    close_cases w2 0 r3 w3 Hc. simpl. rewrite Herr. discriminate. }
  open_facts w2 temp 65 292 tfd w3 Ht Ft. destruct Ft as [Ft Kt].
  destruct (tfd <? 0) eqn:Etfd.
  { apply Z.ltb_lt in Etfd.
    destruct Ht as [(_ & Herr & _)|(Hfd & _)]; [|lia].
    close_cases w3 0 r3 w4 Hc. lookup_failed Herr. }
  destruct Ht as [(Hfd & _)|(_ & ino & Htr & Htf & Hnew)]; [apply Z.ltb_ge in Etfd; lia|].
  intros [= <- <- <-].
  eexists _, ino. split; [reflexivity|]. split; [reflexivity|]. split; [reflexivity|].
  cbn [fd]. split; [|split; [|split; [exact Htr|split]]].
  - intros q Hq1 Hq2. rewrite (Ft q Hq2), (resolve_dirs w1 w2 q Hd2). now apply Fm.
  - apply Kt. rewrite (path_exists_dirs w1 w2 marker Hd2).
    unfold path_exists. now rewrite Hmr.
  - now rewrite Htf, Hfds2.
  - intros Hfresh.
    assert (resolve w2 temp = None) as Hn.
    { rewrite (resolve_dirs w1 w2 temp Hd2), (Fm temp Hfiles). exact Hfresh. }
    destruct Hnew as [(Hold & _)|(_ & _ & -> & ->)]; [congruence|].
    rewrite length_app. simpl. split; [lia|].
    rewrite app_nth2 by lia. now rewrite Nat.sub_diag.
Qed.

(** A create that succeeds does not make the object visible: the final path
    names what it named before (nothing, for a new object), while the marker
    file and the temp file are on disk.  The handle is the new head of the
    registry; it owns the flush record, which has the marker path, the bucket
    and the key-management id of the location and no source path yet, and the
    flush queue is as before. *)
Theorem create_keeps_object_hidden (WT_SS_OPEN_CREATE WT_SS_OPEN_READONLY : Z)
    (local : LOCAL_STORAGE) (w : world) (location : LOCAL_LOCATION) (name : string)
    (ofh : option LOCAL_FILE_HANDLE) (local' : LOCAL_STORAGE) (w' : world) :
  local_open WT_SS_OPEN_CREATE WT_SS_OPEN_READONLY local w location name WT_SS_OPEN_CREATE
  = Done (0, ofh, local', w') ->
  exists fh,
    ofh = Some fh
    /\ resolve w' (local_location_path location name None)
       = resolve w (local_location_path location name None)
    /\ path_exists w' (local_location_path location name (Some MARKER_NEED_FLUSH)) = true
    /\ path_exists w' (local_location_path location name (Some MARKER_TEMPORARY)) = true
    /\ path fh = local_location_path location name None
    /\ temp_path fh = Some (local_location_path location name (Some MARKER_TEMPORARY))
    /\ flush fh
       = Some (mk_flush_item None
                 (Some (local_location_path location name (Some MARKER_NEED_FLUSH)))
                 (Some (bucket location)) (Some (kmsid location)))
    /\ fileq local' = fh :: fileq local
    /\ flushq local' = flushq local.
Proof.
  intros H. apply local_open_created in H.
  destruct H as (fh & ino & -> & Hfh & -> & Hframe & Hm & Ht & _).
  exists fh. split; [reflexivity|]. split.
  { apply Hframe; apply object_paths_name_distinct_files, final_marked_distinct;
      discriminate. }
  split; [exact Hm|]. split; [unfold path_exists; now rewrite Ht|].
  rewrite Hfh. cbn [path temp_path flush]. now repeat split.
Qed.

(** The create of the examples. *)
Lemma create_keeps_object_hidden_witness :
  exists fh,
    Some example_handle = Some fh
    /\ resolve world_created
         (local_location_path example_location "obj" None)
       = resolve (bucket_world "bkt") (local_location_path example_location "obj" None)
    /\ path_exists world_created
         (local_location_path example_location "obj" (Some MARKER_NEED_FLUSH)) = true
    /\ path_exists world_created
         (local_location_path example_location "obj" (Some MARKER_TEMPORARY)) = true
    /\ path fh = local_location_path example_location "obj" None
    /\ temp_path fh
       = Some (local_location_path example_location "obj" (Some MARKER_TEMPORARY))
    /\ flush fh
       = Some (mk_flush_item None
                 (Some (local_location_path example_location "obj" (Some MARKER_NEED_FLUSH)))
                 (Some (bucket example_location)) (Some (kmsid example_location)))
    /\ fileq (example_opened 0) = fh :: fileq (local_init 0 0 0)
    /\ flushq (example_opened 0) = flushq (local_init 0 0 0).
Proof.
  apply (create_keeps_object_hidden 1 2 (local_init 0 0 0) (bucket_world "bkt")
           example_location "obj").
  reflexivity.
Defined.

(** ** Closing handles *)

Transparent sys_rename.

Lemma sys_rename_same w old new :
  w_fds (snd (sys_rename w old new)) = w_fds w
  /\ w_data (snd (sys_rename w old new)) = w_data w.
Proof.
  unfold sys_rename.
  destruct (dir_base old) as [d1 b1]. destruct (dir_base new) as [d2 b2].
  destruct (lookup_dir (w_dirs w) d1) as [ents1|]; [|now split].
  destruct (lookup_ent ents1 b1); [|now split].
  destruct (String.eqb old new); [now split|].
  destruct (lookup_dir _ d2); now split.
Qed.

Opaque sys_rename.

Lemma sys_rename_facts w old new :
  w_fds (snd (sys_rename w old new)) = w_fds w
  /\ w_data (snd (sys_rename w old new)) = w_data w
  /\ (forall q, dir_base q <> dir_base old -> dir_base q <> dir_base new ->
                resolve (snd (sys_rename w old new)) q = resolve w q)
  /\ ((fst (sys_rename w old new) = 0
       /\ resolve w old <> None
       /\ resolve (snd (sys_rename w old new)) new = resolve w old
       /\ (dir_base old <> dir_base new -> resolve (snd (sys_rename w old new)) old = None))
      \/ (fst (sys_rename w old new) = -1
          /\ w_errno (snd (sys_rename w old new)) <> 0
          /\ w_dirs (snd (sys_rename w old new)) = w_dirs w)).
Proof.
  destruct (sys_rename_same w old new) as [Hf Hd].
  split; [exact Hf|]. split; [exact Hd|].
  split; [intros q H1 H2; now apply sys_rename_frame|].
  destruct (sys_rename_result w old new) as [(Hr & Ho & Hn)|H]; [left | now right].
  repeat split; try assumption. intros Hne. now apply sys_rename_old_gone.
Qed.

Ltac rename_facts w old new nr nw H :=
  pose proof (sys_rename_facts w old new) as H;
  destruct (sys_rename w old new) as [nr nw]; cbn [fst snd] in H.

Lemma tailq_remove_head {A : Type} (dec : forall a b : A, {a = b} + {a <> b})
    (q : list A) (x : A) :
  tailq_remove dec (x :: q) x = q.
Proof. simpl. destruct (dec x x); [reflexivity | congruence]. Qed.

(** What a close does, whichever handle it is given. *)
Lemma local_file_close_facts (local : LOCAL_STORAGE) (w : world) (fh : LOCAL_FILE_HANDLE) :
  exists ret local' w',
    local_file_close local w fh = Done (ret, local', w')
    /\ fileq local' = tailq_remove file_handle_dec (fileq local) fh
    /\ flushq local'
       = match flush fh with
         | Some fl => set_src_path fl (Some (path fh)) :: flushq local
         | None => flushq local
         end
    /\ w_fds w' = remove_fd (w_fds w) (fd fh)
    /\ w_data w' = w_data w
    /\ (forall q,
          (forall tp, temp_path fh = Some tp ->
                      dir_base q <> dir_base tp /\ dir_base q <> dir_base (path fh)) ->
          resolve w' q = resolve w q)
    /\ ((lookup_fd (w_fds w) (fd fh) = None /\ ret = EBADF /\ w_dirs w' = w_dirs w)
        \/ (lookup_fd (w_fds w) (fd fh) <> None /\ temp_path fh = None
            /\ ret = 0 /\ w_dirs w' = w_dirs w)
        \/ (lookup_fd (w_fds w) (fd fh) <> None
            /\ exists tp,
                 temp_path fh = Some tp
                 /\ ((ret <> 0 /\ w_dirs w' = w_dirs w)
                     \/ (ret = 0 /\ resolve w tp <> None
                         /\ resolve w' (path fh) = resolve w tp
                         /\ (dir_base tp <> dir_base (path fh) -> resolve w' tp = None))))).
Proof.
  unfold local_file_close, local_file_close_internal.
  destruct (flush fh) as [fl|]; cbv beta iota zeta; cbn [path set_flush fd temp_path];
    close_cases w (fd fh) r w1 Hc; destruct Hc as (Hf1 & Hd1 & Hdata1 & Hres);
    (destruct Hres as [[Hopen ->]|(Hclosed & -> & Herr)];
     [ change (0 <? 0) with false; cbv iota; cbn [negb andb Z.eqb];
       destruct (temp_path fh) as [tp|] eqn:Etp;
       [ rename_facts w1 tp (path fh) r2 w2 Hr;
         destruct Hr as (Hf2 & Hdata2 & Hframe & [(-> & Hold & Hnew & Hgone)|(-> & Herr & Hd2)]);
         cbn [bind]; eexists _, _, _; (split; [reflexivity|]);
         cbn [fileq flushq set_flushq set_fileq set_fh_ops];
         (split; [reflexivity|]); (split; [reflexivity|]);
         (split; [congruence|]); (split; [congruence|]);
         (split;
          [ intros q Hq; destruct (Hq tp eq_refl) as [Hq1 Hq2];
            rewrite (Hframe q Hq1 Hq2); now apply resolve_dirs |]);
         right; right; (split; [exact Hopen|]); exists tp; (split; [reflexivity|])
       | cbn [bind]; eexists _, _, _; (split; [reflexivity|]);
         cbn [fileq flushq set_flushq set_fileq set_fh_ops];
         (split; [reflexivity|]); (split; [reflexivity|]);
         (split; [exact Hf1|]); (split; [exact Hdata1|]);
         (split; [intros q _; now apply resolve_dirs|]);
         right; left; now repeat split ]
     | change (-1 <? 0) with true; cbv iota; rewrite Herr;
       change (EBADF =? 0) with false; rewrite andb_false_r;
       destruct (temp_path fh) as [tp|] eqn:Etp;
       cbn [bind]; eexists _, _, _; (split; [reflexivity|]);
       cbn [fileq flushq set_flushq set_fileq set_fh_ops];
       (split; [reflexivity|]); (split; [reflexivity|]);
       (split; [exact Hf1|]); (split; [exact Hdata1|]);
       (split; [intros q _; now apply resolve_dirs|]);
       left; now repeat split ]).
  - right. rewrite (resolve_dirs w w1 tp Hd1) in *. repeat split; assumption.
  - left. split; [exact Herr | congruence].
  - right. rewrite (resolve_dirs w w1 tp Hd1) in *. repeat split; assumption.
  - left. split; [exact Herr | congruence].
Qed.

(** The close of a handle opened read-only renames nothing and enqueues
    nothing: the directories, the files and the flush queue are as before and
    the handle has left the registry.  It returns [0] when the descriptor of
    the handle was open and [EBADF] when it was not. *)
Theorem close_readonly (local : LOCAL_STORAGE) (w : world) (fh : LOCAL_FILE_HANDLE) :
  flush fh = None -> temp_path fh = None ->
  exists ret local' w',
    local_file_close local w fh = Done (ret, local', w')
    /\ flushq local' = flushq local
    /\ fileq local' = tailq_remove file_handle_dec (fileq local) fh
    /\ w_dirs w' = w_dirs w /\ w_data w' = w_data w
    /\ (lookup_fd (w_fds w) (fd fh) <> None -> ret = 0)
    /\ (lookup_fd (w_fds w) (fd fh) = None -> ret = EBADF).
Proof.
  intros Hfl Htp.
  destruct (local_file_close_facts local w fh)
    as (ret & local' & w' & E & Hq & Hfq & _ & Hdata & _ & Hcases).
  exists ret, local', w'. rewrite Hfl in Hfq.
  split; [exact E|]. split; [exact Hfq|]. split; [exact Hq|].
  destruct Hcases as [(Hc & -> & Hd)|[(Ho & _ & -> & Hd)|(_ & tp & Htp' & _)]];
    [| |congruence]; repeat split; try assumption; try reflexivity; congruence.
Qed.

(** The handle of the examples that reads the object of three bytes. *)
Lemma close_readonly_witness :
  exists ret local' w',
    local_file_close (local_init 0 0 0) world_reading example_reader = Done (ret, local', w')
    /\ flushq local' = flushq (local_init 0 0 0)
    /\ fileq local' = tailq_remove file_handle_dec (fileq (local_init 0 0 0)) example_reader
    /\ w_dirs w' = w_dirs world_reading /\ w_data w' = w_data world_reading
    /\ (lookup_fd (w_fds world_reading) (fd example_reader) <> None -> ret = 0)
    /\ (lookup_fd (w_fds world_reading) (fd example_reader) = None -> ret = EBADF).
Proof.
  apply (close_readonly (local_init 0 0 0) world_reading example_reader); reflexivity.
Defined.

(** Creating an object and closing its handle leaves the registry of open
    handles as it was, one more record at the head of the flush queue, with
    the final path of the object as its source path, and the marker file of the
    object on disk; this whether the close succeeds or not. *)
Theorem create_close_leaves_one_record (WT_SS_OPEN_CREATE WT_SS_OPEN_READONLY : Z)
    (local : LOCAL_STORAGE) (w : world) (location : LOCAL_LOCATION) (name : string)
    (ofh : option LOCAL_FILE_HANDLE) (local1 : LOCAL_STORAGE) (w1 : world) :
  local_open WT_SS_OPEN_CREATE WT_SS_OPEN_READONLY local w location name WT_SS_OPEN_CREATE
  = Done (0, ofh, local1, w1) ->
  exists fh ret local2 w2,
    ofh = Some fh
    /\ local_file_close local1 w1 fh = Done (ret, local2, w2)
    /\ fileq local2 = fileq local
    /\ flushq local2
       = mk_flush_item (Some (local_location_path location name None))
           (Some (local_location_path location name (Some MARKER_NEED_FLUSH)))
           (Some (bucket location)) (Some (kmsid location))
         :: flushq local
    /\ path_exists w2 (local_location_path location name (Some MARKER_NEED_FLUSH)) = true.
Proof.
  intros H. apply local_open_created in H.
  destruct H as (fh & ino & -> & Hfh & -> & _ & Hm & _).
  destruct (local_file_close_facts
              (set_fileq (set_op_count local (incr64 (op_count local))) (fh :: fileq local))
              w1 fh)
    as (ret & local2 & w2 & E & Hq & Hfq & _ & _ & Hframe & _).
  exists fh, ret, local2, w2. split; [reflexivity|]. split; [exact E|].
  cbn [fileq set_fileq set_op_count flushq] in Hq, Hfq.
  rewrite tailq_remove_head in Hq. split; [exact Hq|].
  split.
  - rewrite Hfq, Hfh. reflexivity.
  - unfold path_exists in *. rewrite Hframe; [exact Hm|].
    intros tp Htp. rewrite Hfh in Htp. cbn [temp_path] in Htp. injection Htp as <-.
    rewrite Hfh. cbn [path].
    split; apply object_paths_name_distinct_files.
    + apply marker_temp_distinct.
    + intros Eq. symmetry in Eq. revert Eq. apply final_marked_distinct. discriminate.
Qed.

(** The create of the examples and the close of its handle. *)
Lemma create_close_leaves_one_record_witness :
  exists fh ret local2 w2,
    Some example_handle = Some fh
    /\ local_file_close (example_opened 0)
         world_created fh
       = Done (ret, local2, w2)
    /\ fileq local2 = fileq (local_init 0 0 0)
    /\ flushq local2
       = mk_flush_item (Some (local_location_path example_location "obj" None))
           (Some (local_location_path example_location "obj" (Some MARKER_NEED_FLUSH)))
           (Some (bucket example_location)) (Some (kmsid example_location))
         :: flushq (local_init 0 0 0)
    /\ path_exists w2 (local_location_path example_location "obj" (Some MARKER_NEED_FLUSH))
       = true.
Proof.
  apply (create_close_leaves_one_record 1 2 (local_init 0 0 0) (bucket_world "bkt")
           example_location "obj").
  reflexivity.
Defined.

(** ** Existence, size and removal *)

(** The existence check says whether the final path names a file; when the
    walk to the path runs into a file it returns [ENOTDIR] and no answer. *)
Lemma local_exist_spec (local : LOCAL_STORAGE) (w : world) (location : LOCAL_LOCATION)
    (name : string) :
  fst (fst (local_exist local w location name))
  = match resolve w (local_location_path location name None) with
    | Some _ => (0, Some true)
    | None =>
        if missing_errno w (local_location_path location name None) =? ENOENT
        then (0, Some false)
        else (ENOTDIR, None)
    end.
Proof.
  unfold local_exist, sys_stat.
  destruct (resolve w (local_location_path location name None)); [reflexivity|].
  cbn [w_errno set_errno Z.eqb].
  destruct (missing_errno_cases w (local_location_path location name None)) as [-> | ->];
    reflexivity.
Qed.

(** When the bucket path names a file, every call by name fails with
    [ENOTDIR]; the existence check gives no answer. *)
Example bucket_is_a_file :
  fst (fst (local_exist (local_init 0 0 0) world_file_bucket example_location "obj"))
  = (ENOTDIR, None)
  /\ fst (fst (local_size (local_init 0 0 0) world_file_bucket example_location "obj"))
     = (ENOTDIR, None)
  /\ fst (fst (local_remove (local_init 0 0 0) world_file_bucket example_location "obj"))
     = ENOTDIR
  /\ (exists l w,
        local_open 1 2 (local_init 0 0 0) world_file_bucket example_location "obj" 2
        = Done (ENOTDIR, None, l, w))
  /\ (exists l w,
        local_open 1 2 (local_init 0 0 0) world_file_bucket example_location "obj" 1
        = Done (ENOTDIR, None, l, w))
  /\ (exists l w,
        local_location_list (local_init 0 0 0) world_file_bucket example_location None 0
        = Done (ENOTDIR, [], 0, l, w)).
Proof.
  repeat split; try reflexivity; eexists _, _; vm_compute; reflexivity.
Qed.

(** The size check by name returns the length of the file the final path
    names, and the [errno] of the lookup when it names none. *)
Lemma size_of_object (local : LOCAL_STORAGE) (w : world) (location : LOCAL_LOCATION)
    (name : string) :
  fst (fst (local_size local w location name))
  = match resolve w (local_location_path location name None) with
    | Some ino => (0, Some (Z.of_nat (List.length (nth ino (w_data w) []))))
    | None => (missing_errno w (local_location_path location name None), None)
    end.
Proof.
  unfold local_size, sys_stat.
  now destruct (resolve w (local_location_path location name None)).
Qed.

Lemma lookup_update_dir_none dirs d ents d' :
  lookup_dir (update_dir dirs d ents) d' = None <-> lookup_dir dirs d' = None.
Proof.
  induction dirs as [|[d0 e0] dirs IH]; simpl; [tauto|].
  destruct (String.eqb d0 d) eqn:E; simpl.
  - destruct (String.eqb d0 d'); [split; discriminate | tauto].
  - destruct (String.eqb d0 d'); [split; discriminate | exact IH].
Qed.

Transparent sys_open sys_unlink.

Lemma sys_unlink_same w p :
  w_fds (snd (sys_unlink w p)) = w_fds w /\ w_data (snd (sys_unlink w p)) = w_data w.
Proof.
  unfold sys_unlink. destruct p as [p|]; [|now split].
  destruct (dir_base p) as [d b].
  destruct (lookup_dir (w_dirs w) d) as [ents|]; [|now split].
  destruct (lookup_ent ents b); now split.
Qed.

Lemma sys_unlink_null w : w_dirs (snd (sys_unlink w None)) = w_dirs w.
Proof. reflexivity. Qed.

(** [open] and [unlink] make and remove no directory. *)
Lemma sys_open_keeps_dirs w p oflags mode d :
  lookup_dir (w_dirs (snd (sys_open w p oflags mode))) d = None
  <-> lookup_dir (w_dirs w) d = None.
Proof.
  unfold sys_open. destruct (dir_base p) as [d0 b].
  destruct (lookup_dir (w_dirs w) d0) as [ents|]; [|simpl; tauto].
  destruct (lookup_ent ents b); [simpl; tauto|].
  destruct (Z.land oflags O_CREAT =? 0); [simpl; tauto|].
  simpl. apply lookup_update_dir_none.
Qed.

Lemma sys_unlink_keeps_dirs w p d :
  lookup_dir (w_dirs (snd (sys_unlink w (Some p)))) d = None
  <-> lookup_dir (w_dirs w) d = None.
Proof.
  unfold sys_unlink. destruct (dir_base p) as [d0 b].
  destruct (lookup_dir (w_dirs w) d0) as [ents|]; [|simpl; tauto].
  destruct (lookup_ent ents b); [|simpl; tauto].
  simpl. apply lookup_update_dir_none.
Qed.

Opaque sys_open sys_unlink.

Lemma missing_errno_in_dir w p :
  lookup_dir (w_dirs w) (fst (dir_base p)) <> None -> missing_errno w p = ENOENT.
Proof. unfold missing_errno. now destruct (lookup_dir _ _). Qed.


(** After a create the existence check can fail: the name has a ['/'] in it
    and a file sits where the directory of the final path would be. *)
Example create_under_a_file :
  exists fh l1 w1,
    path_exists world_file_in_the_way (local_location_path example_location "sub/obj" None)
    = false
    /\ local_open 1 2 (local_init 0 0 0) world_file_in_the_way example_location "sub/obj" 1
       = Done (0, Some fh, l1, w1)
    /\ fst (fst (local_exist l1 w1 example_location "sub/obj")) = (ENOTDIR, None).
Proof.
  eexists _, _, _. repeat (split; [vm_compute; reflexivity|]). vm_compute. reflexivity.
Qed.



(** Removing an object whose final path names no directory unlinks the
    final path and nothing else: every other entry of every directory, the
    contents of the files and the descriptors are as before, and afterwards
    the final path names no file.  When the object was there it returns [0],
    and afterwards the existence check says no and the size check returns
    [ENOENT].  When it was not there it returns the [errno] of the failed
    [unlink] and no directory has changed: [ENOENT] when the directory of the
    path is there, and otherwise [ENOTDIR] or [ENOENT] as the walk to the path
    runs into a file or into nothing. *)
Theorem remove_object (local : LOCAL_STORAGE) (w : world) (location : LOCAL_LOCATION)
    (name : string) :
  lookup_dir (w_dirs w) (local_location_path location name None) = None ->
  exists ret w1,
    local_remove local w location name
    = (ret, set_op_count local (incr64 (op_count local)), w1)
    /\ w_data w1 = w_data w /\ w_fds w1 = w_fds w
    /\ (forall q, dir_base q <> dir_base (local_location_path location name None) ->
                  resolve w1 q = resolve w q)
    /\ path_exists w1 (local_location_path location name None) = false
    /\ (path_exists w (local_location_path location name None) = true ->
        ret = 0
        /\ (forall l, fst (fst (local_exist l w1 location name)) = (0, Some false))
        /\ (forall l, fst (fst (local_size l w1 location name)) = (ENOENT, None)))
    /\ (path_exists w (local_location_path location name None) = false ->
        ret = missing_errno w (local_location_path location name None)
        /\ (lookup_dir (w_dirs w) (fst (dir_base (local_location_path location name None)))
            <> None -> ret = ENOENT)
        /\ w_dirs w1 = w_dirs w).
Proof.
  intros _. unfold local_remove.
  pose proof (sys_unlink_result w (local_location_path location name None)) as Hr.
  pose proof (sys_unlink_gone w (local_location_path location name None)) as Hg.
  pose proof (sys_unlink_frame w (local_location_path location name None)) as Hf.
  pose proof (sys_unlink_keeps_dirs w (local_location_path location name None)
                (fst (dir_base (local_location_path location name None)))) as Hk.
  destruct (sys_unlink_same w (Some (local_location_path location name None)))
    as [Hfds Hdata].
  destruct (sys_unlink w (Some (local_location_path location name None))) as [r w1].
  cbn [fst snd] in *.
  assert (resolve w1 (local_location_path location name None) = None) as Hnone.
  { unfold path_exists in Hg.
    now destruct (resolve w1 (local_location_path location name None)). }
  exists (if negb (r =? 0) then w_errno w1 else r), w1.
  split; [now destruct (negb (r =? 0))|]. split; [exact Hdata|]. split; [exact Hfds|].
  split; [intros q Hq; now apply Hf|]. split; [exact Hg|].
  destruct Hr as [(Hx & ->)|(Hx & -> & Herr & Hd)]; simpl.
  - split; [|intros E; congruence]. intros _. split; [reflexivity|].
    assert (missing_errno w1 (local_location_path location name None) = ENOENT) as Hen.
    { apply missing_errno_in_dir. rewrite Hk. unfold path_exists, resolve in Hx.
      destruct (dir_base (local_location_path location name None)) as [d b]. cbn [fst].
      now destruct (lookup_dir (w_dirs w) d). }
    split; intros l.
    + now rewrite local_exist_spec, Hnone, Hen.
    + now rewrite size_of_object, Hnone, Hen.
  - split; [intros E; congruence|]. intros _. split; [exact Herr|].
    split; [|exact Hd]. intros Hdir. rewrite Herr. now apply missing_errno_in_dir.
Qed.

(** The object of three bytes of the examples. *)
Lemma remove_object_witness :
  exists ret w1,
    local_remove (local_init 0 0 0) world_reading example_location "obj"
    = (ret, set_op_count (local_init 0 0 0) (incr64 (op_count (local_init 0 0 0))), w1)
    /\ w_data w1 = w_data world_reading /\ w_fds w1 = w_fds world_reading
    /\ (forall q, dir_base q <> dir_base (local_location_path example_location "obj" None) ->
                  resolve w1 q = resolve world_reading q)
    /\ path_exists w1 (local_location_path example_location "obj" None) = false
    /\ (path_exists world_reading (local_location_path example_location "obj" None) = true ->
        ret = 0
        /\ (forall l, fst (fst (local_exist l w1 example_location "obj")) = (0, Some false))
        /\ (forall l, fst (fst (local_size l w1 example_location "obj")) = (ENOENT, None)))
    /\ (path_exists world_reading (local_location_path example_location "obj" None) = false ->
        ret = missing_errno world_reading (local_location_path example_location "obj" None)
        /\ (lookup_dir (w_dirs world_reading)
              (fst (dir_base (local_location_path example_location "obj" None)))
            <> None -> ret = ENOENT)
        /\ w_dirs w1 = w_dirs world_reading).
Proof.
  apply (remove_object (local_init 0 0 0) world_reading example_location "obj").
  reflexivity.
Defined.

(** ** Termination *)

Lemma terminate_loop_spec (q : list LOCAL_FILE_HANDLE) :
  forall w,
  exists w' rs,
    terminate_loop q w = Done w'
    /\ w_dirs w' = w_dirs w /\ w_data w' = w_data w
    /\ List.length rs = List.length q
    /\ w_log w' = w_log w ++ map (fun x => EvClose (fd (fst x)) (snd x)) (combine q rs).
Proof.
  induction q as [|fh q IH]; intros w.
  - exists w, []. simpl. now rewrite app_nil_r.
  - cbn [terminate_loop local_file_close_internal].
    pose proof (sys_close_effect w (fd fh)) as [Hl _].
    close_cases w (fd fh) r w1 Hc. destruct Hc as (_ & Hd & Hdata & _).
    cbn [fst snd] in Hl.
    assert ((match temp_path fh with
             | Some tp =>
                 if negb true && ((if r <? 0 then w_errno w1 else 0) =? 0)
                 then let '(r2, w2) := sys_rename w1 tp (path fh) in
                      Done (if r2 <? 0 then w_errno w2 else r2, w2)
                 else Done (if r <? 0 then w_errno w1 else 0, w1)
             | None => Done (if r <? 0 then w_errno w1 else 0, w1)
             end) = Done (if r <? 0 then w_errno w1 else 0, w1)) as ->
      by now destruct (temp_path fh).
    cbn [bind]. destruct (IH w1) as (w' & rs & E & Hd' & Hdata' & Hlen & Hlog).
    exists w', (r :: rs). split; [exact E|].
    split; [congruence|]. split; [congruence|]. split; [simpl; lia|].
    rewrite Hlog, Hl, <- app_assoc. reflexivity.
Qed.

(** Termination closes the descriptor of every handle of the registry, in
    order, and nothing else: it returns [0], no temp file is renamed and no
    file changes, so an object whose creating handle was never closed stays
    invisible, with its temp file and its marker file where they were. *)
Theorem terminate_renames_nothing (local : LOCAL_STORAGE) (w : world) :
  exists w' rs,
    local_terminate local w = Done (0, w')
    /\ w_dirs w' = w_dirs w /\ w_data w' = w_data w
    /\ List.length rs = List.length (fileq local)
    /\ w_log w'
       = w_log w ++ map (fun x => EvClose (fd (fst x)) (snd x)) (combine (fileq local) rs).
Proof.
  unfold local_terminate. cbn [fileq set_op_count].
  destruct (terminate_loop_spec (fileq local) w) as (w' & rs & -> & H).
  exists w', rs. split; [reflexivity | exact H].
Qed.

(** ** More on drains *)

Lemma resolve_same_entry w p q : dir_base q = dir_base p -> resolve w q = resolve w p.
Proof. unfold resolve. now intros ->. Qed.

(** [unlink] creates no file. *)
Lemma sys_unlink_antitone w p q :
  path_exists (snd (sys_unlink w (Some p))) q = true -> path_exists w q = true.
Proof.
  destruct (dir_base_dec q p) as [E|Hne].
  - pose proof (sys_unlink_gone w p) as G. unfold path_exists in *.
    now rewrite (resolve_same_entry _ p q E), G.
  - unfold path_exists. now rewrite (sys_unlink_frame w p q Hne).
Qed.

Lemma local_delay_same local w :
  w_fds (snd (local_delay local w)) = w_fds w
  /\ w_data (snd (local_delay local w)) = w_data w
  /\ w_errno (snd (local_delay local w)) = w_errno w.
Proof.
  unfold local_delay. destruct (negb (force_delay local =? 0) && _); now repeat split.
Qed.

(** Flushing one record changes the flush count of the storage source and
    the marker file of the record, and nothing else. *)
Lemma local_flush_one_frame local w f s :
  src_path f = Some s ->
  exists t_ret local1 w1,
    local_flush_one local w f = Done (t_ret, local1, w1)
    /\ (local1 = local
        \/ local1 = set_object_flushes local (incr64 (object_flushes local)))
    /\ w_fds w1 = w_fds w /\ w_data w1 = w_data w
    /\ (forall p, path_exists w1 p = true -> path_exists w p = true)
    /\ (forall p, (forall m, marker_path f = Some m -> dir_base p <> dir_base m) ->
                  resolve w1 p = resolve w p).
Proof.
  intros Hs. unfold local_flush_one. rewrite Hs.
  assert (forall ret l w0,
            w_fds w0 = w_fds w -> w_data w0 = w_data w -> w_dirs w0 = w_dirs w ->
            (l = local \/ l = set_object_flushes local (incr64 (object_flushes local))) ->
            exists t_ret local1 w1,
              (if ret =? 0
               then let '(r, w1) := sys_unlink w0 (marker_path f) in
                    if r <? 0 then Done (w_errno w1, l, w1) else Done (r, l, w1)
               else Done (ret, l, w0)) = Done (t_ret, local1, w1)
              /\ (local1 = local
                  \/ local1 = set_object_flushes local (incr64 (object_flushes local)))
              /\ w_fds w1 = w_fds w /\ w_data w1 = w_data w
              /\ (forall p, path_exists w1 p = true -> path_exists w p = true)
              /\ (forall p, (forall m, marker_path f = Some m -> dir_base p <> dir_base m) ->
                            resolve w1 p = resolve w p)) as Hrm.
  { intros ret l w0 Hf Hd Hdirs Hl.
    destruct (ret =? 0).
    - pose proof (sys_unlink_same w0 (marker_path f)) as [Hf1 Hd1].
      assert ((forall p, path_exists (snd (sys_unlink w0 (marker_path f))) p = true ->
                         path_exists w p = true)
              /\ (forall p, (forall m, marker_path f = Some m -> dir_base p <> dir_base m) ->
                            resolve (snd (sys_unlink w0 (marker_path f))) p = resolve w p))
        as [Ha Hfr].
      { destruct (marker_path f) as [m|].
        - split.
          + intros p Hp. apply sys_unlink_antitone in Hp.
            now rewrite (path_exists_dirs w w0 p Hdirs) in Hp.
          + intros p Hp. rewrite (sys_unlink_frame w0 m p (Hp m eq_refl)).
            now apply resolve_dirs.
        - pose proof (sys_unlink_null w0) as Hn. split.
          + intros p. rewrite (path_exists_dirs w0 _ p Hn).
            now rewrite (path_exists_dirs w w0 p Hdirs).
          + intros p _. rewrite (resolve_dirs w0 _ p Hn). now apply resolve_dirs. }
      destruct (sys_unlink w0 (marker_path f)) as [r w1]. cbn [snd] in *.
      destruct (r <? 0); eexists _, _, _; (split; [reflexivity|]);
        repeat split; try assumption; congruence.
    - eexists _, _, _. split; [reflexivity|].
      repeat split; try assumption.
      + intros p. now rewrite (path_exists_dirs w w0 p Hdirs).
      + intros p _. now apply resolve_dirs. }
  destruct (strrchr s "/").
  - pose proof (local_delay_same
                  (set_object_flushes local (incr64 (object_flushes local))) w)
      as (Hf & Hd & _).
    pose proof (local_delay_dirs
                  (set_object_flushes local (incr64 (object_flushes local))) w) as Hdirs.
    destruct (local_delay _ w) as [ret w0]. cbn [snd] in *.
    destruct (ret =? 0) eqn:Er; cbn [negb].
    + specialize (Hrm ret (set_object_flushes local (incr64 (object_flushes local))) w0
                    Hf Hd Hdirs (or_intror eq_refl)).
      now rewrite Er in Hrm.
    + eexists _, _, _. split; [reflexivity|]. repeat split; auto.
      * intros p. now rewrite (path_exists_dirs w w0 p Hdirs).
      * intros p _. now apply resolve_dirs.
  - apply Hrm; auto.
Qed.

(** The loop of a drain changes no file but marker files of the records it
    matches, and creates none. *)
Lemma flush_loop_frame location name :
  (location = None -> name = None) ->
  forall q ret kept local w,
    stamped q ->
    exists ret' local' w',
      flush_loop q (match_string location name) name ret kept local w
      = Done (ret', local', w')
      /\ force_error local' = force_error local
      /\ w_fds w' = w_fds w /\ w_data w' = w_data w
      /\ (forall p, path_exists w' p = true -> path_exists w p = true)
      /\ (forall p,
            (forall f m, In f q -> matched location name f = true ->
                         marker_path f = Some m -> dir_base p <> dir_base m) ->
            resolve w' p = resolve w p).
Proof.
  intros Hn. induction q as [|f q IH]; intros ret kept local w Hq.
  - simpl. eexists _, _, _. split; [reflexivity|]. now repeat split.
  - apply stamped_cons in Hq as [[s Hs] Hq].
    cbn [flush_loop]. rewrite (flush_skip_matched _ _ _ _ Hs Hn). cbn [bind].
    destruct (matched location name f) eqn:Em; cbn [negb].
    + destruct (local_flush_one_frame local w f s Hs)
        as (t_ret & local1 & w1 & -> & Hl & Hf1 & Hd1 & Ha1 & Hfr1).
      cbn [bind].
      destruct (IH (if negb (t_ret =? 0) && (ret =? 0) then t_ret else ret) kept local1 w1 Hq)
        as (ret' & local' & w' & E & Hfe & Hf' & Hd' & Ha' & Hfr').
      exists ret', local', w'. split; [exact E|].
      split; [destruct Hl as [->| ->]; exact Hfe|].
      split; [congruence|]. split; [congruence|]. split; [auto|].
      intros p Hp. rewrite Hfr', Hfr1; [reflexivity| |].
      * intros m Hm. apply (Hp f m); [now left | exact Em | exact Hm].
      * intros f' m Hin. apply Hp. now right.
    + destruct (IH ret (kept ++ [f]) local w Hq)
        as (ret' & local' & w' & E & Hfe & Hf' & Hd' & Ha' & Hfr').
      exists ret', local', w'. split; [exact E|]. repeat split; try assumption.
      intros p Hp. apply Hfr'. intros f' m Hin. apply Hp. now right.
Qed.

(** A drain creates no file and changes none but the marker files of the
    records it matches: every path that names a file afterwards named one
    before, the paths that are not the marker path of a matched record name
    what they named, and the contents of the files and the descriptors are as
    before. *)
Theorem flush_touches_only_markers (local : LOCAL_STORAGE) (w : world)
    (location : option LOCAL_LOCATION) (name : option string) :
  stamped (flushq local) ->
  (location = None -> name = None) ->
  exists ret local' w',
    local_flush local w location name = Done (ret, local', w')
    /\ w_fds w' = w_fds w /\ w_data w' = w_data w
    /\ (forall p, path_exists w' p = true -> path_exists w p = true)
    /\ (forall p,
          (forall f m, In f (flushq local) -> matched location name f = true ->
                       marker_path f = Some m -> dir_base p <> dir_base m) ->
          resolve w' p = resolve w p).
Proof.
  intros Hq Hn. rewrite (local_flush_unfold _ _ _ _ Hn).
  destruct (flush_loop_frame location name Hn (flushq local) 0 []
              (set_op_count local (incr64 (op_count local))) w Hq)
    as (ret & local' & w' & E & _ & H).
  now exists ret, local', w'.
Qed.

(** The drain of the example location. *)
Lemma flush_touches_only_markers_witness :
  exists ret local' w',
    local_flush (example_pending 2) world_pending (Some example_location) None
    = Done (ret, local', w')
    /\ w_fds w' = w_fds world_pending /\ w_data w' = w_data world_pending
    /\ (forall p, path_exists w' p = true -> path_exists world_pending p = true)
    /\ (forall p,
          (forall f m, In f (flushq (example_pending 2)) ->
                       matched (Some example_location) None f = true ->
                       marker_path f = Some m -> dir_base p <> dir_base m) ->
          resolve w' p = resolve world_pending p).
Proof.
  apply (flush_touches_only_markers (example_pending 2) world_pending
           (Some example_location) None); [reflexivity | discriminate].
Defined.

Lemma local_delay_plain local w : force_error local = 0 -> fst (local_delay local w) = 0.
Proof. intros HN. unfold local_delay. now rewrite HN. Qed.

Lemma local_flush_one_plain local w f :
  has_object_name f = true -> force_error local = 0 ->
  exists t_ret w1,
    local_flush_one local w f
    = Done (t_ret, set_object_flushes local (incr64 (object_flushes local)), w1)
    /\ (forall m, marker_path f = Some m -> path_exists w1 m = false).
Proof.
  intros Hf HN. unfold has_object_name in Hf. unfold local_flush_one.
  destruct (src_path f) as [s|]; [|discriminate].
  destruct (strrchr s "/"); [|discriminate].
  pose proof (local_delay_plain
                (set_object_flushes local (incr64 (object_flushes local))) w HN) as Hd.
  destruct (local_delay _ w) as [ret w0]. cbn [fst] in Hd. subst ret.
  cbn [Z.eqb negb].
  destruct (marker_path f) as [m|].
  - pose proof (sys_unlink_gone w0 m) as G.
    destruct (sys_unlink w0 (Some m)) as [r w1]. cbn [snd] in G.
    destruct (r <? 0); eexists _, _; (split; [reflexivity|]); now intros m' [= <-].
  - destruct (sys_unlink w0 None) as [r w1].
    destruct (r <? 0); eexists _, _; (split; [reflexivity|]); discriminate.
Qed.

Lemma flush_loop_removes_markers location name :
  (location = None -> name = None) ->
  forall q ret kept local w,
    well_stamped q -> force_error local = 0 ->
    exists ret' local' w',
      flush_loop q (match_string location name) name ret kept local w
      = Done (ret', local', w')
      /\ forall f m, In f q -> matched location name f = true ->
                     marker_path f = Some m -> path_exists w' m = false.
Proof.
  intros Hn. induction q as [|f q IH]; intros ret kept local w Hq HN.
  - simpl. eexists _, _, _. split; [reflexivity|]. now intros f m [].
  - apply well_stamped_cons in Hq as (Hf & [s Hs] & Hq).
    cbn [flush_loop]. rewrite (flush_skip_matched _ _ _ _ Hs Hn). cbn [bind].
    destruct (matched location name f) eqn:Em; cbn [negb].
    + destruct (local_flush_one_plain local w f Hf HN) as (t_ret & w1 & -> & Hgone).
      cbn [bind].
      set (ret1 := if negb (t_ret =? 0) && (ret =? 0) then t_ret else ret).
      set (local1 := set_object_flushes local (incr64 (object_flushes local))).
      destruct (IH ret1 kept local1 w1 Hq HN) as (ret' & local' & w' & E & Hrest).
      destruct (flush_loop_frame location name Hn q ret1 kept local1 w1
                  (well_stamped_stamped _ Hq))
        as (ret2 & local2 & w2 & E2 & _ & _ & _ & Hanti & _).
      rewrite E in E2. injection E2 as <- <- <-.
      exists ret', local', w'. split; [exact E|].
      intros f' m [<-|Hin] Hm Hmp; [|now apply (Hrest f' m)].
      destruct (path_exists w' m) eqn:Ex; [|reflexivity].
      apply Hanti in Ex. now rewrite (Hgone m Hmp) in Ex.
    + destruct (IH ret (kept ++ [f]) local w Hq HN) as (ret' & local' & w' & E & Hrest).
      exists ret', local', w'. split; [exact E|].
      intros f' m [<-|Hin] Hm Hmp; [congruence | now apply (Hrest f' m)].
Qed.

(** Without forced errors a drain leaves no marker file of a record it
    matched. *)
Theorem flush_removes_markers (local : LOCAL_STORAGE) (w : world)
    (location : option LOCAL_LOCATION) (name : option string) :
  force_error local = 0 ->
  well_stamped (flushq local) ->
  (location = None -> name = None) ->
  exists ret local' w',
    local_flush local w location name = Done (ret, local', w')
    /\ forall f m, In f (flushq local) -> matched location name f = true ->
                   marker_path f = Some m -> path_exists w' m = false.
Proof.
  intros HN Hq Hn. rewrite (local_flush_unfold _ _ _ _ Hn).
  apply (flush_loop_removes_markers location name Hn (flushq local) 0 []
           (set_op_count local (incr64 (op_count local))) w Hq HN).
Qed.

(** The drain of the named example object. *)
Lemma flush_removes_markers_witness :
  exists ret local' w',
    local_flush (example_pending 0) world_pending (Some example_location) (Some "obj")
    = Done (ret, local', w')
    /\ forall f m, In f (flushq (example_pending 0)) ->
                   matched (Some example_location) (Some "obj") f = true ->
                   marker_path f = Some m -> path_exists w' m = false.
Proof.
  apply (flush_removes_markers (example_pending 0) world_pending
           (Some example_location) (Some "obj"));
    [reflexivity | reflexivity | discriminate].
Defined.








(** ** More on listings *)

(** The names a listing with a marker keeps, in the words of the loop: the
    entries other than ["."] and [".."] that begin with the marker followed by
    the cluster prefix and, past them, by the caller's prefix, with the marker
    and the cluster prefix stripped. *)
Lemma list_entry_marked location m prefix d_name :
  m <> "" ->
  list_entry location (Some m) prefix d_name
  = marked_name (cluster_prefix location) m prefix d_name.
Proof.
  intros Hm. unfold list_entry, marked_name, strcmp_eq.
  destruct m as [|c m]; [congruence|]. cbn [strlen String.length Nat.eqb].
  destruct (String.eqb d_name "." || String.eqb d_name ".."); [reflexivity|].
  change (S (String.length m)) with (strlen (String c m)).
  rewrite strncmp_eq_prefix.
  destruct (String.prefix (String c m) d_name); [|reflexivity]. cbn [negb].
  rewrite strncmp_eq_prefix.
  destruct (String.prefix (cluster_prefix location) _); [|reflexivity].
  cbn [negb]. destruct prefix as [p|]; [|reflexivity].
  rewrite strncmp_eq_prefix. now destruct (String.prefix p _).
Qed.

(** ** More on reads and writes *)

(** A write ends, whatever the descriptor and the schedule of short
    transfers: [len + 2] iterations are enough.  It returns [0] only when no
    byte of the buffer is left to write. *)
Theorem write_ends_whole (fuel : nat) (local : LOCAL_STORAGE) (w : world)
    (local_fh : LOCAL_FILE_HANDLE) (offset : Z) (buf : list byte) :
  (List.length buf + 2 <= fuel)%nat ->
  exists ret rest w',
    local_file_write fuel local w local_fh offset buf
    = Some (ret, rest, set_write_ops local (incr64 (write_ops local)), w')
    /\ (ret = 0 -> rest = []).
Proof.
  intros Hfuel. unfold local_file_write.
  destruct (write_loop_ends fuel w (fd local_fh) 0 offset buf Hfuel)
    as (r & rest & w' & -> & Hok).
  exists r, rest, w'. split; [reflexivity|]. intros Hr. now apply Hok.
Qed.

(** A write of three bytes through a descriptor that is not open: it ends
    with [EBADF] and the three bytes left. *)
Lemma write_ends_whole_witness :
  exists ret rest w',
    local_file_write 5 (local_init 0 0 0) (bucket_world "bkt") example_handle 0
      [x01; x02; x03]
    = Some (ret, rest, set_write_ops (local_init 0 0 0) (incr64 (write_ops (local_init 0 0 0))),
            w')
    /\ (ret = 0 -> rest = []).
Proof.
  apply (write_ends_whole 5 (local_init 0 0 0) (bucket_world "bkt") example_handle 0
           [x01; x02; x03]).
  simpl. lia.
Defined.

(** A read that returns [0] has stored exactly [len] bytes. *)
Theorem read_success_is_whole (fuel : nat) (local : LOCAL_STORAGE) (w : world)
    (local_fh : LOCAL_FILE_HANDLE) (offset len : Z) (data : list byte)
    (local' : LOCAL_STORAGE) (w' : world) :
  0 <= len ->
  local_file_read fuel local w local_fh offset len = Some (0, data, local', w') ->
  Z.of_nat (List.length data) = len.
Proof.
  intros Hlen. unfold local_file_read.
  destruct (read_loop fuel w (fd local_fh) 0 offset len []) as [[[r got] w1]|] eqn:E;
    [|discriminate].
  intros [= -> -> _ _].
  now destruct (read_loop_success fuel w (fd local_fh) 0 offset len [] 0 data w1 Hlen E eq_refl).
Qed.

(** The read of two bytes at offset one of the object of three bytes. *)
Lemma read_success_is_whole_witness :
  0 <= 2
  /\ Z.of_nat (List.length [x02; x03]) = 2.
Proof.
  split; [lia|].
  apply (read_success_is_whole 3 (local_init 0 0 0) world_reading example_reader 1 2
           [x02; x03] (set_read_ops (local_init 0 0 0) 1)
           (log world_reading (EvPread 3 2 1 2)));
    [lia | reflexivity].
Defined.

Lemma firstn_add {A : Type} (a b : nat) (l : list A) :
  firstn (a + b) l = firstn a l ++ firstn b (skipn a l).
Proof.
  revert l. induction a as [|a IH]; intros l; [reflexivity|].
  destruct l as [|x l]; simpl; [now rewrite firstn_nil | now rewrite IH].
Qed.

Lemma transfer_bounds w n : (0 < n)%nat -> (1 <= transfer w n <= n)%nat.
Proof. unfold transfer. destruct (w_short w); lia. Qed.

(** Within the file a read returns the bytes of the file, whatever the
    schedule of short transfers. *)
Lemma read_loop_within fuel :
  forall w fd f offset len got,
    lookup_fd (w_fds w) fd = Some f -> readable f = true ->
    0 <= offset -> 0 <= len ->
    offset + len <= Z.of_nat (List.length (nth (of_ino f) (w_data w) [])) ->
    (Z.to_nat len < fuel)%nat ->
    exists w',
      read_loop fuel w fd 0 offset len got
      = Some (0, got ++ firstn (Z.to_nat len)
                          (skipn (Z.to_nat offset) (nth (of_ino f) (w_data w) [])), w')
      /\ w_data w' = w_data w /\ w_fds w' = w_fds w /\ w_dirs w' = w_dirs w.
Proof.
  induction fuel as [|fuel IH]; intros w fd f offset len got Hfd Hr Hoff Hlen Hin Hfuel;
    [lia|].
  cbn [read_loop]. cbn [Z.eqb andb].
  destruct (0 <? len) eqn:Epos.
  - apply Z.ltb_lt in Epos.
    unfold sys_pread. rewrite Hfd, Hr. cbn [negb].
    replace (offset <? 0) with false by (symmetry; apply Z.ltb_ge; lia).
    set (content := nth (of_ino f) (w_data w) []) in *.
    set (n := transfer w (Z.to_nat len)).
    assert (1 <= n <= Z.to_nat len)%nat as Hn by (apply transfer_bounds; lia).
    assert (List.length (firstn n (skipn (Z.to_nat offset) content)) = n) as Hdata.
    { rewrite length_firstn, length_skipn. lia. }
    rewrite Hdata.
    replace (Z.of_nat n <? 0) with false by (symmetry; apply Z.ltb_ge; lia).
    destruct (IH (log (next_short w) (EvPread fd len offset (Z.of_nat n))) fd f
                (offset + Z.of_nat n) (len - Z.of_nat n)
                (got ++ firstn n (skipn (Z.to_nat offset) content)))
      as (w' & E & Hd & Hf & Hdirs); try assumption; try lia.
    { simpl. fold content. lia. }
    assert (firstn n (skipn (Z.to_nat offset) content)
            ++ firstn (Z.to_nat (len - Z.of_nat n))
                 (skipn (Z.to_nat (offset + Z.of_nat n)) content)
            = firstn (Z.to_nat len) (skipn (Z.to_nat offset) content)) as Hjoin.
    { replace (Z.to_nat len) with (n + Z.to_nat (len - Z.of_nat n))%nat by lia.
      rewrite firstn_add, skipn_skipn. do 3 f_equal. lia. }
    exists w'. split; [|now repeat split].
    rewrite E. simpl w_data. fold content. now rewrite <- app_assoc, Hjoin.
  - apply Z.ltb_ge in Epos. assert (len = 0) as -> by lia.
    exists w. simpl. now rewrite app_nil_r.
Qed.

(** A read that lies within the file ends and returns [0] and the bytes of
    the file from [offset] on, [len] of them, whatever the schedule of short
    transfers; [len + 1] iterations are enough.  No file changes. *)
Theorem read_within_file_returns_bytes (fuel : nat) (local : LOCAL_STORAGE) (w : world)
    (local_fh : LOCAL_FILE_HANDLE) (f : open_file) (offset len : Z) :
  lookup_fd (w_fds w) (fd local_fh) = Some f -> readable f = true ->
  0 <= offset -> 0 <= len ->
  offset + len <= Z.of_nat (List.length (nth (of_ino f) (w_data w) [])) ->
  (Z.to_nat len < fuel)%nat ->
  exists w',
    local_file_read fuel local w local_fh offset len
    = Some (0, firstn (Z.to_nat len) (skipn (Z.to_nat offset) (nth (of_ino f) (w_data w) [])),
            set_read_ops local (incr64 (read_ops local)), w')
    /\ w_data w' = w_data w /\ w_dirs w' = w_dirs w.
Proof.
  intros Hfd Hr Hoff Hlen Hin Hfuel. unfold local_file_read.
  destruct (read_loop_within fuel w (fd local_fh) f offset len [] Hfd Hr Hoff Hlen Hin Hfuel)
    as (w' & -> & Hd & _ & Hdirs).
  exists w'. now repeat split.
Qed.

(** The object of three bytes, read one byte at a call. *)
Lemma read_within_file_returns_bytes_witness :
  exists w',
    local_file_read 4 (local_init 0 0 0) (set_short world_reading [0%nat; 0%nat; 0%nat])
      example_reader 0 3
    = Some (0, firstn (Z.to_nat 3)
                 (skipn (Z.to_nat 0)
                    (nth (of_ino (mk_open_file 0 O_RDONLY))
                       (w_data (set_short world_reading [0%nat; 0%nat; 0%nat])) [])),
            set_read_ops (local_init 0 0 0) (incr64 (read_ops (local_init 0 0 0))), w')
    /\ w_data w' = w_data (set_short world_reading [0%nat; 0%nat; 0%nat])
    /\ w_dirs w' = w_dirs (set_short world_reading [0%nat; 0%nat; 0%nat]).
Proof.
  apply (read_within_file_returns_bytes 4 (local_init 0 0 0)
           (set_short world_reading [0%nat; 0%nat; 0%nat]) example_reader
           (mk_open_file 0 O_RDONLY) 0 3);
    [reflexivity | reflexivity | lia | lia | vm_compute; discriminate | vm_compute; lia].
Defined.

Lemma firstn_exact {A : Type} (l1 l2 : list A) (n : nat) :
  List.length l1 = n -> firstn n (l1 ++ l2) = l1.
Proof.
  intros <-. rewrite firstn_app, Nat.sub_diag, firstn_all. simpl. now rewrite app_nil_r.
Qed.

Lemma skipn_past {A : Type} (l1 l2 : list A) (n k : nat) :
  List.length l1 = n -> skipn (n + k) (l1 ++ l2) = skipn k l2.
Proof.
  intros <-. rewrite skipn_app, skipn_all2 by lia. simpl. f_equal. lia.
Qed.

Lemma length_store_head (content : list byte) (offset : nat) :
  List.length (firstn offset content ++ repeat x00 (offset - List.length content)) = offset.
Proof. rewrite length_app, length_firstn, repeat_length. lia. Qed.

(** Two stores, one after the other, are the store of the two buffers. *)
Lemma store_app (content : list byte) (offset : nat) (a b : list byte) :
  store (store content offset a) (offset + List.length a) b = store content offset (a ++ b).
Proof.
  unfold store.
  set (head := firstn offset content ++ repeat x00 (offset - List.length content)).
  assert (List.length head = offset) as Hhead by apply length_store_head.
  replace (firstn offset content ++ repeat x00 (offset - List.length content)
           ++ a ++ skipn (offset + List.length a) content)
    with ((head ++ a) ++ skipn (offset + List.length a) content)
    by (unfold head; now rewrite <- !app_assoc).
  rewrite firstn_exact by (rewrite length_app; lia).
  rewrite skipn_past by (rewrite length_app; lia).
  rewrite skipn_skipn.
  replace (offset + List.length a - List.length ((head ++ a) ++ skipn (offset + List.length a) content))%nat
    with O by (rewrite !length_app; lia).
  simpl. unfold head. rewrite <- !app_assoc, length_app.
  do 5 f_equal. lia.
Qed.

Lemma store_nil (content : list byte) (offset : nat) :
  (offset <= List.length content)%nat -> store content offset [] = content.
Proof.
  intros H. unfold store. replace (offset - List.length content)%nat with O by lia.
  simpl. rewrite Nat.add_0_r. apply firstn_skipn.
Qed.

Lemma nth_set_nth_same {A : Type} (l : list A) (n : nat) (x d : A) :
  (n < List.length l)%nat -> nth n (set_nth l n x) d = x.
Proof.
  revert n. induction l as [|y l IH]; intros [|n] H; simpl in *; try lia; [reflexivity|].
  apply IH. lia.
Qed.

Lemma nth_set_nth_other {A : Type} (l : list A) (n i : nat) (x d : A) :
  i <> n -> nth i (set_nth l n x) d = nth i l d.
Proof.
  revert n i. induction l as [|y l IH]; intros [|n] [|i] H; simpl; try reflexivity;
    try congruence.
  apply IH. congruence.
Qed.

Lemma length_set_nth {A : Type} (l : list A) (n : nat) (x : A) :
  List.length (set_nth l n x) = List.length l.
Proof.
  revert n. induction l as [|y l IH]; intros [|n]; simpl; try reflexivity. now rewrite IH.
Qed.

(** A write through a descriptor open for writing stores the buffer in the
    file, whatever the schedule of short transfers. *)
Lemma write_loop_stores fuel :
  forall w fd f offset buf,
    lookup_fd (w_fds w) fd = Some f -> writable f = true ->
    (of_ino f < List.length (w_data w))%nat ->
    0 <= offset ->
    (List.length buf + 2 <= fuel)%nat ->
    exists w',
      write_loop fuel w fd 0 offset buf = Some (0, [], w')
      /\ nth (of_ino f) (w_data w') []
         = (match buf with
            | [] => nth (of_ino f) (w_data w) []
            | _ => store (nth (of_ino f) (w_data w) []) (Z.to_nat offset) buf
            end)
      /\ (forall i, i <> of_ino f -> nth i (w_data w') [] = nth i (w_data w) [])
      /\ List.length (w_data w') = List.length (w_data w)
      /\ w_fds w' = w_fds w /\ w_dirs w' = w_dirs w.
Proof.
  induction fuel as [|fuel IH]; intros w fd f offset buf Hfd Hw Hino Hoff Hfuel; [lia|].
  cbn [write_loop]. cbn [Z.eqb andb].
  destruct buf as [|x buf'].
  - exists w. simpl. now repeat split.
  - cbv iota. remember (x :: buf') as buf eqn:Ebuf.
    assert (0 < List.length buf)%nat as Hpos by (subst buf; simpl; lia).
    replace (0 <? Z.of_nat (List.length buf)) with true by (symmetry; apply Z.ltb_lt; lia).
    unfold sys_pwrite. rewrite Hfd, Hw. cbn [negb].
    replace (offset <? 0) with false by (symmetry; apply Z.ltb_ge; lia).
    set (content := nth (of_ino f) (w_data w) []) in *.
    set (n := transfer w (List.length buf)).
    assert (1 <= n <= List.length buf)%nat as Hn by (apply transfer_bounds; lia).
    assert (List.length (firstn n buf) = n) as Hdata by (rewrite length_firstn; lia).
    rewrite Hdata.
    replace (Z.of_nat n <? 0) with false by (symmetry; apply Z.ltb_ge; lia).
    rewrite Nat2Z.id.
    set (w1 := log _ _).
    destruct (IH w1 fd f (offset + Z.of_nat n) (skipn n buf))
      as (w' & E & Hc & Hothers & Hlen & Hf & Hdirs); try assumption; try lia.
    { unfold w1. simpl. now rewrite length_set_nth. }
    { rewrite length_skipn. lia. }
    assert (nth (of_ino f) (w_data w1) [] = store content (Z.to_nat offset) (firstn n buf))
      as Hc1 by (unfold w1; simpl; now apply nth_set_nth_same).
    exists w'. split; [exact E|]. split; [|split; [|split; [|split]]].
    + rewrite Hc, Hc1.
      destruct (skipn n buf) as [|y rest] eqn:Es.
      * rewrite <- (firstn_skipn n buf) at 2. now rewrite Es, app_nil_r.
      * rewrite <- Es.
        replace (Z.to_nat (offset + Z.of_nat n)) with (Z.to_nat offset + List.length (firstn n buf))%nat
          by lia.
        now rewrite store_app, firstn_skipn.
    + intros i Hi. rewrite (Hothers i Hi). unfold w1. simpl.
      now apply nth_set_nth_other.
    + rewrite Hlen. unfold w1. simpl. apply length_set_nth.
    + exact Hf.
    + exact Hdirs.
Qed.

Lemma store_read_back (content : list byte) (offset : nat) (buf : list byte) :
  firstn (List.length buf) (skipn offset (store content offset buf)) = buf
  /\ ((offset <= List.length content)%nat ->
      firstn offset (store content offset buf) = firstn offset content)
  /\ skipn (offset + List.length buf) (store content offset buf)
     = skipn (offset + List.length buf) content.
Proof.
  unfold store.
  pose proof (length_store_head content offset) as Hhead.
  set (head := firstn offset content ++ repeat x00 (offset - List.length content)) in *.
  replace (firstn offset content ++ repeat x00 (offset - List.length content)
           ++ buf ++ skipn (offset + List.length buf) content)
    with (head ++ buf ++ skipn (offset + List.length buf) content)
    by (unfold head; now rewrite <- !app_assoc).
  split; [|split].
  - replace offset with (offset + 0)%nat at 1 by lia.
    rewrite skipn_past by exact Hhead. simpl. now apply firstn_exact.
  - intros Hle. rewrite firstn_exact by exact Hhead. unfold head.
    replace (offset - List.length content)%nat with O by lia. simpl. apply app_nil_r.
  - rewrite skipn_past by exact Hhead.
    replace (List.length buf) with (List.length buf + 0)%nat at 1 by lia.
    now rewrite skipn_past.
Qed.

(** A write through a descriptor open for writing ends, returns [0] and
    leaves the buffer in the file at [offset], whatever the schedule of short
    transfers: read back, the [len] bytes from [offset] on are the buffer; the
    bytes after them are as before, and so are the bytes before [offset] when
    it lies within the file; no other file changes. *)
Theorem write_stores_buffer (fuel : nat) (local : LOCAL_STORAGE) (w : world)
    (local_fh : LOCAL_FILE_HANDLE) (f : open_file) (offset : Z) (buf : list byte) :
  lookup_fd (w_fds w) (fd local_fh) = Some f -> writable f = true ->
  (of_ino f < List.length (w_data w))%nat ->
  0 <= offset ->
  (List.length buf + 2 <= fuel)%nat ->
  exists w',
    local_file_write fuel local w local_fh offset buf
    = Some (0, [], set_write_ops local (incr64 (write_ops local)), w')
    /\ firstn (List.length buf) (skipn (Z.to_nat offset) (nth (of_ino f) (w_data w') [])) = buf
    /\ (offset <= Z.of_nat (List.length (nth (of_ino f) (w_data w) [])) ->
        firstn (Z.to_nat offset) (nth (of_ino f) (w_data w') [])
        = firstn (Z.to_nat offset) (nth (of_ino f) (w_data w) []))
    /\ skipn (Z.to_nat offset + List.length buf) (nth (of_ino f) (w_data w') [])
       = skipn (Z.to_nat offset + List.length buf) (nth (of_ino f) (w_data w) [])
    /\ (forall i, i <> of_ino f -> nth i (w_data w') [] = nth i (w_data w) [])
    /\ w_dirs w' = w_dirs w.
Proof.
  intros Hfd Hw Hino Hoff Hfuel. unfold local_file_write.
  destruct (write_loop_stores fuel w (fd local_fh) f offset buf Hfd Hw Hino Hoff Hfuel)
    as (w' & -> & Hc & Hothers & _ & _ & Hdirs).
  exists w'. split; [reflexivity|]. rewrite Hc.
  destruct buf as [|x buf'].
  - simpl. rewrite Nat.add_0_r. now repeat split.
  - destruct (store_read_back (nth (of_ino f) (w_data w) []) (Z.to_nat offset) (x :: buf'))
      as (H1 & H2 & H3).
    split; [exact H1|]. split; [intros Hle; apply H2; lia|]. now repeat split.
Qed.

(** A write of two bytes, one byte at a call, into the middle of an object of
    three bytes open for writing. *)
Lemma write_stores_buffer_witness :
  exists w',
    local_file_write 4 (local_init 0 0 0) world_writing example_handle 1 [x0a; x0b]
    = Some (0, [], set_write_ops (local_init 0 0 0) (incr64 (write_ops (local_init 0 0 0))),
            w')
    /\ firstn (List.length [x0a; x0b])
         (skipn (Z.to_nat 1) (nth (of_ino (mk_open_file 0 O_WRONLY)) (w_data w') []))
       = [x0a; x0b]
    /\ (1 <= Z.of_nat (List.length (nth (of_ino (mk_open_file 0 O_WRONLY))
                                      (w_data world_writing) [])) ->
        firstn (Z.to_nat 1) (nth (of_ino (mk_open_file 0 O_WRONLY)) (w_data w') [])
        = firstn (Z.to_nat 1) (nth (of_ino (mk_open_file 0 O_WRONLY))
                                 (w_data world_writing) []))
    /\ skipn (Z.to_nat 1 + List.length [x0a; x0b])
         (nth (of_ino (mk_open_file 0 O_WRONLY)) (w_data w') [])
       = skipn (Z.to_nat 1 + List.length [x0a; x0b])
           (nth (of_ino (mk_open_file 0 O_WRONLY)) (w_data world_writing) [])
    /\ (forall i, i <> of_ino (mk_open_file 0 O_WRONLY) ->
                  nth i (w_data w') [] = nth i (w_data world_writing) [])
    /\ w_dirs w' = w_dirs world_writing.
Proof.
  apply (write_stores_buffer 4 (local_init 0 0 0) world_writing example_handle
           (mk_open_file 0 O_WRONLY) 1 [x0a; x0b]);
    [reflexivity | reflexivity | simpl; lia | lia | simpl; lia].
Defined.

(** ** Round trip *)

(** A create does not truncate: the bytes of a temp file that an earlier
    create has left stay in the object, past the bytes written. *)
Example leftover_temp_survives :
  exists l1 w1 l2 w2 l3 w3 l4 w4 fh' l5 w5 l6 w6,
    local_open 1 2 (local_init 0 0 0) world_leftover_temp example_location "obj" 1
    = Done (0, Some example_handle, l1, w1)
    /\ local_file_write 5 l1 w1 example_handle 0 [x01; x02; x03] = Some (0, [], l2, w2)
    /\ local_file_close l2 w2 example_handle = Done (0, l3, w3)
    /\ local_size l3 w3 example_location "obj" = (0, Some 5, l4, w4)
    /\ local_open 1 2 l4 w4 example_location "obj" 2 = Done (0, Some fh', l5, w5)
    /\ local_file_read 6 l5 w5 fh' 0 5 = Some (0, [x01; x02; x03; x09; x09], l6, w6).
Proof.
  eexists _, _, _, _, _, _, _, _, _, _, _, _, _.
  repeat (split; [vm_compute; reflexivity|]). vm_compute. reflexivity.
Qed.

(** Bytes written to an object are the bytes read from it, when no temp file
    of the object is on disk before the create.  Create the object, write
    [buf] at offset 0: the write returns [0].  If the close of the handle then
    returns [0], a read-only open of the object returns a handle, the size of
    the object is the length of [buf], and a read of that length at offset 0
    returns [buf]; all this whatever the schedule of short transfers, given
    [len + 2] iterations for each transfer. *)
Theorem write_read_round_trip (WT_SS_OPEN_CREATE WT_SS_OPEN_READONLY : Z)
    (fuel : nat) (local : LOCAL_STORAGE) (w : world) (location : LOCAL_LOCATION)
    (name : string) (buf : list byte) (ofh : option LOCAL_FILE_HANDLE)
    (local1 : LOCAL_STORAGE) (w1 : world) :
  WT_SS_OPEN_READONLY <> WT_SS_OPEN_CREATE ->
  resolve w (local_location_path location name (Some MARKER_TEMPORARY)) = None ->
  (List.length buf + 2 <= fuel)%nat ->
  local_open WT_SS_OPEN_CREATE WT_SS_OPEN_READONLY local w location name WT_SS_OPEN_CREATE
  = Done (0, ofh, local1, w1) ->
  exists fh local2 w2,
    ofh = Some fh
    /\ local_file_write fuel local1 w1 fh 0 buf = Some (0, [], local2, w2)
    /\ forall local3 w3,
         local_file_close local2 w2 fh = Done (0, local3, w3) ->
         exists fh' local4 w4,
           local_open WT_SS_OPEN_CREATE WT_SS_OPEN_READONLY local3 w3 location name
             WT_SS_OPEN_READONLY
           = Done (0, Some fh', local4, w4)
           /\ fst (fst (local_size local4 w4 location name))
              = (0, Some (Z.of_nat (List.length buf)))
           /\ exists local5 w5,
                local_file_read fuel local4 w4 fh' 0 (Z.of_nat (List.length buf))
                = Some (0, buf, local5, w5).
Proof.
  intros Hne Hfresh Hfuel Hopen. apply local_open_created in Hopen.
  destruct Hopen as (fh & ino & -> & Hfh & -> & _ & _ & Htemp & Hfds & Hino).
  destruct (Hino Hfresh) as [Hlt Hempty].
  assert (fd fh = fd fh) as _ by reflexivity.
  assert (temp_path fh = Some (local_location_path location name (Some MARKER_TEMPORARY))
          /\ path fh = local_location_path location name None) as [Htp Hp]
    by (rewrite Hfh; now split).
  set (local1 := set_fileq (set_op_count local (incr64 (op_count local))) (fh :: fileq local)).
  (* the write *)
  assert (lookup_fd (w_fds w1) (fd fh) = Some (mk_open_file ino (Z.lor O_WRONLY O_CREAT)))
    as Hfd by (rewrite Hfds; simpl; now rewrite Z.eqb_refl).
  destruct (write_loop_stores fuel w1 (fd fh) (mk_open_file ino (Z.lor O_WRONLY O_CREAT)) 0 buf
              Hfd eq_refl Hlt ltac:(lia) Hfuel)
    as (w2 & Ew & Hc & _ & _ & Hf2 & Hd2).
  cbn [of_ino] in Hc. rewrite Hempty in Hc.
  assert (nth ino (w_data w2) [] = buf) as Hcontent.
  { rewrite Hc. destruct buf as [|x b]; [reflexivity|].
    unfold store. simpl. now rewrite app_nil_r. }
  exists fh, (set_write_ops local1 (incr64 (write_ops local1))), w2.
  split; [reflexivity|]. split; [unfold local_file_write; now rewrite Ew|].
  (* the close *)
  intros local3 w3 Hclose.
  destruct (local_file_close_facts (set_write_ops local1 (incr64 (write_ops local1))) w2 fh)
    as (ret & l3 & w3' & E & _ & _ & _ & Hdata3 & _ & Hcases).
  rewrite E in Hclose. injection Hclose as -> -> ->.
  destruct Hcases as [(_ & Hr & _)|[(_ & Hn & _)|(_ & tp & Htp' & [(Hr & _)|(_ & _ & Hfinal & _)])]];
    try discriminate; try congruence.
  rewrite Htp in Htp'. injection Htp' as <-. rewrite Hp in Hfinal.
  rewrite (resolve_dirs w1 w2 _ Hd2), Htemp in Hfinal.
  (* the read-only open *)
  destruct (local_open_readonly WT_SS_OPEN_CREATE WT_SS_OPEN_READONLY local3 w3 location name
              ino Hne Hfinal)
    as (fh' & w4 & -> & Hfh' & Hf4 & Hd4 & Hdata4).
  eexists fh', _, w4. split; [reflexivity|].
  assert (nth ino (w_data w4) [] = buf) as Hcontent4 by congruence.
  split.
  - rewrite size_of_object, (resolve_dirs w3 w4 _ Hd4), Hfinal. now rewrite Hcontent4.
  - (* the read *)
    assert (lookup_fd (w_fds w4) (fd fh') = Some (mk_open_file ino O_RDONLY)) as Hfd'
      by (rewrite Hf4; simpl; now rewrite Z.eqb_refl).
    unfold local_file_read.
    destruct (read_loop_within fuel w4 (fd fh') (mk_open_file ino O_RDONLY) 0
                (Z.of_nat (List.length buf)) [] Hfd' eq_refl)
      as (w5 & -> & _); try lia.
    + cbn [of_ino]. rewrite Hcontent4. lia.
    + cbn [of_ino]. rewrite Hcontent4. simpl.
      rewrite Nat2Z.id, firstn_all. eauto.
Qed.

(** The object of the examples, written one byte at a call. *)
Lemma write_read_round_trip_witness :
  exists fh local2 w2,
    Some example_handle = Some fh
    /\ local_file_write 5 (example_opened 0) (set_short world_created [0%nat; 0%nat]) fh 0
         [x01; x02; x03]
       = Some (0, [], local2, w2)
    /\ forall local3 w3,
         local_file_close local2 w2 fh = Done (0, local3, w3) ->
         exists fh' local4 w4,
           local_open 1 2 local3 w3 example_location "obj" 2 = Done (0, Some fh', local4, w4)
           /\ fst (fst (local_size local4 w4 example_location "obj"))
              = (0, Some (Z.of_nat (List.length [x01; x02; x03])))
           /\ exists local5 w5,
                local_file_read 5 local4 w4 fh' 0 (Z.of_nat (List.length [x01; x02; x03]))
                = Some (0, [x01; x02; x03], local5, w5).
Proof.
  apply (write_read_round_trip 1 2 5 (local_init 0 0 0)
           (set_short (bucket_world "bkt") [0%nat; 0%nat]) example_location "obj"
           [x01; x02; x03]);
    [lia | reflexivity | simpl; lia | reflexivity].
Defined.

(** ** More on listings: markers, errors, hidden clusters *)

Lemma marked_name_some cp m prefix d n :
  marked_name cp m prefix d = Some n
  <-> d <> "." /\ d <> ".." /\ d = (m ++ cp ++ n)%string
      /\ match prefix with Some p => String.prefix p n = true | None => True end.
Proof.
  unfold marked_name.
  destruct (String.eqb_spec d "."), (String.eqb_spec d ".."); cbn [orb];
    try (split; [discriminate | tauto]).
  destruct (String.prefix m d) eqn:Em.
  - apply prefix_split in Em.
    destruct (String.prefix cp (advance (String.length m) d)) eqn:Ec.
    + apply prefix_split in Ec.
      set (rest := advance (String.length cp) (advance (String.length m) d)) in *.
      assert (d = (m ++ cp ++ rest)%string) as Hd by congruence.
      assert (forall n', d = (m ++ cp ++ n')%string -> n' = rest) as Huniq.
      { intros n' E. rewrite Hd in E. now apply append_inv_head, append_inv_head in E. }
      destruct prefix as [p|].
      * destruct (String.prefix p rest) eqn:Ep; split.
        -- intros [= <-]. auto.
        -- intros (_ & _ & E & _). f_equal. symmetry. now apply Huniq.
        -- discriminate.
        -- intros (_ & _ & E & Hp). apply Huniq in E. congruence.
      * split; [intros [= <-]; auto|].
        intros (_ & _ & E & _). f_equal. symmetry. now apply Huniq.
    + split; [discriminate|]. intros (_ & _ & E & _).
      rewrite E, advance_append, prefix_append in Ec. discriminate.
  - split; [discriminate|]. intros (_ & _ & E & _).
    rewrite E, prefix_append in Em. discriminate.
Qed.

(** A listing with a marker returns, in the order of the directory
    enumeration, the names [n] of the entries [marker ++ cluster_prefix ++ n]
    other than ["."] and [".."], where [n] begins with the caller's prefix when
    there is one: the names of the objects that have a file with this marker.
    With [limit = 0] it returns all of them, otherwise the first [limit].
    This for a limit of at most [LIST_MAX] and, without a limit, for at most
    [LIST_MAX] such names.  The directory stream is not closed: the world
    afterwards has its descriptor in the descriptor table. *)
Theorem listing_with_marker (w : world) (location : LOCAL_LOCATION) (m : string)
    (prefix : option string) (limit : Z) (stream : list string) :
  m <> "" ->
  fst (sys_opendir w (bucket location)) = Some stream ->
  0 <= limit <= LIST_MAX ->
  (limit = 0 ->
   Z.of_nat (List.length (kept_names (marked_name (cluster_prefix location) m prefix) stream))
   <= LIST_MAX) ->
  exists names w',
    local_location_list_internal w location (Some m) prefix limit
    = Done (0, names, Z.of_nat (List.length names), w')
    /\ names = (if limit =? 0
                then kept_names (marked_name (cluster_prefix location) m prefix) stream
                else firstn (Z.to_nat limit)
                       (kept_names (marked_name (cluster_prefix location) m prefix) stream))
    /\ (forall n,
         In n (kept_names (marked_name (cluster_prefix location) m prefix) stream)
         <-> In (m ++ cluster_prefix location ++ n)%string stream
             /\ (m ++ cluster_prefix location ++ n)%string <> "."
             /\ (m ++ cluster_prefix location ++ n)%string <> ".."
             /\ match prefix with Some p => String.prefix p n = true | None => True end)
    /\ w_fds w' = (alloc_fd (w_fds w), dir_stream) :: w_fds w
    /\ w_log w' = w_log w ++ [EvOpendir (bucket location) (alloc_fd (w_fds w))]
    /\ w_dirs w' = w_dirs w /\ w_data w' = w_data w.
Proof.
  intros Hm Hdir Hlimit Hb.
  assert (kept_names (list_entry location (Some m) prefix) stream
          = kept_names (marked_name (cluster_prefix location) m prefix) stream) as Hk
    by (apply kept_names_ext; intros d; now apply list_entry_marked).
  eexists _, _. split; [|split; [reflexivity|split]].
  - rewrite (listing_any w location (Some m) prefix limit stream Hdir Hlimit)
      by (now rewrite Hk).
    rewrite Hk. reflexivity.
  - intros n. rewrite kept_names_in. split.
    + intros (d & Hin & Hd). apply marked_name_some in Hd as (H1 & H2 & -> & H4). auto.
    + intros (Hin & H1 & H2 & H4). eexists. split; [exact Hin|].
      apply marked_name_some. auto.
  - now repeat split.
Qed.

(** The pending flushes of the example location in the bucket of the
    listing example. *)
Lemma listing_with_marker_witness :
  exists names w',
    local_location_list_internal world_listing example_location (Some "FLUSH_") None 0
    = Done (0, names, Z.of_nat (List.length names), w')
    /\ names = (if 0 =? 0
                then kept_names (marked_name (cluster_prefix example_location) "FLUSH_" None)
                       ["."; ".."; "c_a1"; "TEMP_c_a3"; "FLUSH_c_a3"; "d_a1"; "c_b"; "c_a2"]
                else firstn (Z.to_nat 0)
                       (kept_names (marked_name (cluster_prefix example_location) "FLUSH_" None)
                          ["."; ".."; "c_a1"; "TEMP_c_a3"; "FLUSH_c_a3"; "d_a1"; "c_b";
                           "c_a2"]))
    /\ (forall n,
         In n (kept_names (marked_name (cluster_prefix example_location) "FLUSH_" None)
                 ["."; ".."; "c_a1"; "TEMP_c_a3"; "FLUSH_c_a3"; "d_a1"; "c_b"; "c_a2"])
         <-> In ("FLUSH_" ++ cluster_prefix example_location ++ n)%string
               ["."; ".."; "c_a1"; "TEMP_c_a3"; "FLUSH_c_a3"; "d_a1"; "c_b"; "c_a2"]
             /\ ("FLUSH_" ++ cluster_prefix example_location ++ n)%string <> "."
             /\ ("FLUSH_" ++ cluster_prefix example_location ++ n)%string <> ".."
             /\ True)
    /\ w_fds w' = (alloc_fd (w_fds world_listing), dir_stream) :: w_fds world_listing
    /\ w_log w'
       = w_log world_listing
         ++ [EvOpendir (bucket example_location) (alloc_fd (w_fds world_listing))]
    /\ w_dirs w' = w_dirs world_listing /\ w_data w' = w_data world_listing.
Proof.
  apply (listing_with_marker world_listing example_location "FLUSH_" None 0);
    [discriminate | reflexivity | vm_compute; split; discriminate
    | intros _; vm_compute; discriminate].
Defined.

Lemma prefix_trans (a b c : string) :
  String.prefix a b = true -> String.prefix b c = true -> String.prefix a c = true.
Proof.
  intros Hab Hbc. apply prefix_split in Hab, Hbc.
  rewrite Hbc, Hab, append_assoc. apply prefix_append.
Qed.

Lemma list_entry_marker_cluster location prefix d :
  String.prefix MARKER_TEMPORARY (cluster_prefix location) = true
  \/ String.prefix MARKER_NEED_FLUSH (cluster_prefix location) = true ->
  list_entry location None prefix d = None.
Proof.
  intros Hcp. unfold list_entry.
  destruct (strcmp_eq d "." || strcmp_eq d ".."); [reflexivity|].
  cbn [Nat.eqb]. rewrite !strncmp_eq_prefix.
  destruct (String.prefix MARKER_TEMPORARY d) eqn:Et; [reflexivity|].
  destruct (String.prefix MARKER_NEED_FLUSH d) eqn:Ef; [reflexivity|].
  cbn [orb]. rewrite strncmp_eq_prefix.
  destruct (String.prefix (cluster_prefix location) d) eqn:Ec; [|reflexivity].
  exfalso. destruct Hcp as [H|H].
  - rewrite (prefix_trans _ _ _ H Ec) in Et. discriminate.
  - rewrite (prefix_trans _ _ _ H Ec) in Ef. discriminate.
Qed.

(** The objects of a cluster whose prefix begins with one of the two markers
    (the cluster ["TEMP"], for one) are never listed: the listing of such a
    location succeeds with no name, whatever the bucket holds and whatever the
    limit, because the loop passes over every entry that begins with a marker
    before it compares the cluster prefix.  The directory stream is not
    closed: the world afterwards has its descriptor in the descriptor
    table. *)
Theorem marker_cluster_lists_nothing (local : LOCAL_STORAGE) (w : world)
    (location : LOCAL_LOCATION) (prefix : option string) (limit : Z) (stream : list string) :
  String.prefix MARKER_TEMPORARY (cluster_prefix location) = true
  \/ String.prefix MARKER_NEED_FLUSH (cluster_prefix location) = true ->
  fst (sys_opendir w (bucket location)) = Some stream ->
  exists w',
    local_location_list local w location prefix limit
    = Done (0, [], 0, set_op_count local (incr64 (op_count local)), w')
    /\ w_fds w' = (alloc_fd (w_fds w), dir_stream) :: w_fds w
    /\ w_log w' = w_log w ++ [EvOpendir (bucket location) (alloc_fd (w_fds w))]
    /\ w_dirs w' = w_dirs w /\ w_data w' = w_data w.
Proof.
  intros Hcp Hdir.
  assert (forall l allocated count entries,
            list_loop location None prefix limit l allocated count entries
            = Done (entries, count)) as Hloop.
  { induction l as [|d l IH]; intros allocated count entries; [reflexivity|].
    rewrite list_loop_cons, (list_entry_marker_cluster location prefix d Hcp), IH.
    now destruct ((limit =? 0) || (count <? limit)). }
  unfold local_location_list, local_location_list_internal. unfold sys_opendir in *.
  destruct (lookup_dir (w_dirs w) (bucket location)); [|discriminate].
  rewrite Hloop. cbn [bind]. eexists. split; [reflexivity|]. now repeat split.
Qed.

(** The cluster ["TEMP"] in a bucket that holds one of its objects. *)
Lemma marker_cluster_lists_nothing_witness :
  exists w',
    local_location_list (local_init 0 0 0)
      (mk_world [("bkt", [("TEMP_obj", 0%nat)])] [[]] [] [] 0 [])
      (mk_location "TEMP_" "bkt" "k") None 0
    = Done (0, [], 0, set_op_count (local_init 0 0 0) (incr64 (op_count (local_init 0 0 0))),
            w')
    /\ w_fds w'
       = (alloc_fd (w_fds (mk_world [("bkt", [("TEMP_obj", 0%nat)])] [[]] [] [] 0 [])),
          dir_stream)
         :: w_fds (mk_world [("bkt", [("TEMP_obj", 0%nat)])] [[]] [] [] 0 [])
    /\ w_log w'
       = w_log (mk_world [("bkt", [("TEMP_obj", 0%nat)])] [[]] [] [] 0 [])
         ++ [EvOpendir (bucket (mk_location "TEMP_" "bkt" "k"))
               (alloc_fd (w_fds (mk_world [("bkt", [("TEMP_obj", 0%nat)])] [[]] [] [] 0 [])))]
    /\ w_dirs w' = w_dirs (mk_world [("bkt", [("TEMP_obj", 0%nat)])] [[]] [] [] 0 [])
    /\ w_data w' = w_data (mk_world [("bkt", [("TEMP_obj", 0%nat)])] [[]] [] [] 0 []).
Proof.
  apply (marker_cluster_lists_nothing (local_init 0 0 0)
           (mk_world [("bkt", [("TEMP_obj", 0%nat)])] [[]] [] [] 0 [])
           (mk_location "TEMP_" "bkt" "k") None 0 ["."; ".."; "TEMP_obj"]);
    [left; reflexivity | reflexivity].
Defined.

(** The listing of a location whose bucket is no directory fails with the
    [errno] of [opendir], returns no name and a count of zero, and still
    counts as an operation: [ENOTDIR] when the bucket path names a file or
    the walk to it runs into one, [ENOENT] when it runs into nothing.  No
    stream is opened. *)
Theorem listing_missing_bucket (local : LOCAL_STORAGE) (w : world)
    (location : LOCAL_LOCATION) (prefix : option string) (limit : Z) :
  lookup_dir (w_dirs w) (bucket location) = None ->
  exists ret w',
    local_location_list local w location prefix limit
    = Done (ret, [], 0, set_op_count local (incr64 (op_count local)), w')
    /\ ret = (if path_exists w (bucket location) || through_file w "" (bucket location)
              then ENOTDIR else ENOENT)
    /\ w_fds w' = w_fds w /\ w_dirs w' = w_dirs w /\ w_data w' = w_data w.
Proof.
  intros Hdir. unfold local_location_list, local_location_list_internal, sys_opendir.
  rewrite Hdir. cbn [w_errno log set_errno bind]. unfold lookup_errno.
  eexists _, _. split; [reflexivity|]. split; [|now repeat split].
  destruct (path_exists w (bucket location)); [reflexivity|].
  now destruct (through_file w "" (bucket location)).
Qed.

Lemma listing_missing_bucket_witness :
  exists ret w',
    local_location_list (local_init 0 0 0) (bucket_world "other") example_location None 0
    = Done (ret, [], 0,
            set_op_count (local_init 0 0 0) (incr64 (op_count (local_init 0 0 0))), w')
    /\ ret = (if path_exists (bucket_world "other") (bucket example_location)
                 || through_file (bucket_world "other") "" (bucket example_location)
              then ENOTDIR else ENOENT)
    /\ w_fds w' = w_fds (bucket_world "other")
    /\ w_dirs w' = w_dirs (bucket_world "other")
    /\ w_data w' = w_data (bucket_world "other").
Proof.
  apply (listing_missing_bucket (local_init 0 0 0) (bucket_world "other") example_location
           None 0); reflexivity.
Defined.

(** ** Start-up *)

Lemma local_configure_int_ok NUM config key value :
  config_ok NUM (config key) ->
  local_configure_int NUM config key value
  = (0, match config key with ItemFound v => item_val v mod 2 ^ 32 | _ => value end).
Proof.
  unfold local_configure_int, config_ok. destruct (config key) as [v| |r]; [|reflexivity|tauto].
  intros [Hlen Htype]. apply Z.eqb_neq in Hlen. apply Z.eqb_eq in Htype.
  now rewrite Hlen, Htype.
Qed.

Lemma local_configure_int_bad NUM config key value :
  ~ config_ok NUM (config key) ->
  local_configure_int NUM config key value = (EINVAL, value).
Proof.
  unfold local_configure_int, config_ok. destruct (config key) as [v| |r];
    [|tauto|reflexivity].
  intros H. destruct (item_len v =? 0) eqn:Hlen; [reflexivity|].
  destruct (item_type v =? NUM) eqn:Htype; [|reflexivity].
  exfalso. apply H. split; [now apply Z.eqb_neq | now apply Z.eqb_eq].
Qed.

Lemma config_ok_dec NUM r : config_ok NUM r \/ ~ config_ok NUM r.
Proof.
  destruct r as [v| |c]; simpl; [|tauto|tauto].
  destruct (Z.eq_dec (item_len v) 0), (Z.eq_dec (item_type v) NUM); tauto.
Qed.

Lemma local_configure_int_cases NUM config key value :
  local_configure_int NUM config key value
  = (0, match config key with ItemFound v => item_val v mod 2 ^ 32 | _ => value end)
    /\ config_ok NUM (config key)
  \/ local_configure_int NUM config key value = (EINVAL, value)
     /\ ~ config_ok NUM (config key).
Proof.
  destruct (config_ok_dec NUM (config key)) as [H|H].
  - left. split; [now apply local_configure_int_ok | exact H].
  - right. split; [now apply local_configure_int_bad | exact H].
Qed.

(** When each of the four keys is absent or holds a non-empty number and the
    connection accepts the storage source, start-up succeeds and registers a
    storage source with each setting the number of its key as a [uint32_t]
    (the value modulo [2^32]), zero for an absent key, with all counters at
    zero and no open handle or pending flush. *)
Theorem init_reads_configuration (NUM : Z) (api : WT_EXTENSION_API)
    (config : string -> config_lookup) (add_storage_source : LOCAL_STORAGE -> Z) :
  (forall key, In key config_keys -> config_ok NUM (config key)) ->
  (forall l, add_storage_source l = 0) ->
  wiredtiger_extension_init NUM api config add_storage_source
  = (0, Some (mk_storage api (configured config "delay_ms") (configured config "force_delay")
                (configured config "force_error") (configured config "verbose")
                0 0 0 0 0 [] [])).
Proof.
  intros Hok Hadd. unfold wiredtiger_extension_init, local_configure.
  rewrite local_configure_int_ok by (apply Hok; simpl; auto).
  cbn [Z.eqb negb set_config delay_ms force_delay force_error verbose wt_api fh_ops
       object_flushes op_count read_ops write_ops fileq flushq].
  rewrite local_configure_int_ok by (apply Hok; simpl; auto).
  cbn [Z.eqb negb set_config delay_ms force_delay force_error verbose wt_api fh_ops
       object_flushes op_count read_ops write_ops fileq flushq].
  rewrite local_configure_int_ok by (apply Hok; simpl; auto).
  cbn [Z.eqb negb set_config delay_ms force_delay force_error verbose wt_api fh_ops
       object_flushes op_count read_ops write_ops fileq flushq].
  rewrite local_configure_int_ok by (apply Hok; simpl; auto).
  cbn [Z.eqb negb set_config delay_ms force_delay force_error verbose wt_api fh_ops
       object_flushes op_count read_ops write_ops fileq flushq].
  rewrite Hadd. reflexivity.
Qed.

(** A configuration that asks for an error at every fourth operation, given
    as [2^32 + 4]. *)
Lemma init_reads_configuration_witness :
  wiredtiger_extension_init 1 host_api (config_one 1 "force_error" (2 ^ 32 + 4)) (fun _ => 0)
  = (0, Some (mk_storage host_api
                (configured (config_one 1 "force_error" (2 ^ 32 + 4)) "delay_ms")
                (configured (config_one 1 "force_error" (2 ^ 32 + 4)) "force_delay")
                (configured (config_one 1 "force_error" (2 ^ 32 + 4)) "force_error")
                (configured (config_one 1 "force_error" (2 ^ 32 + 4)) "verbose")
                0 0 0 0 0 [] [])).
Proof.
  apply (init_reads_configuration 1 host_api (config_one 1 "force_error" (2 ^ 32 + 4))
           (fun _ => 0)).
  - intros key Hin. unfold config_ok, config_one.
    destruct (String.eqb key "force_error"); simpl; [split; [lia | reflexivity] | exact I].
  - reflexivity.
Defined.

(** When one of the four keys holds an empty value or something that is not
    a number, or its lookup fails, start-up fails with [EINVAL] and registers
    nothing: the connection is not asked to add the storage source. *)
Theorem init_rejects_configuration (NUM : Z) (api : WT_EXTENSION_API)
    (config : string -> config_lookup) (add_storage_source : LOCAL_STORAGE -> Z) (key : string) :
  In key config_keys -> ~ config_ok NUM (config key) ->
  wiredtiger_extension_init NUM api config add_storage_source = (EINVAL, None).
Proof.
  intros Hin Hbad. unfold wiredtiger_extension_init, local_configure.
  destruct (local_configure_int_cases NUM config "delay_ms"
              (delay_ms (mk_storage api 0 0 0 0 0 0 0 0 0 [] []))) as [[-> H1]|[-> _]];
    [|reflexivity].
  cbn [Z.eqb negb set_config delay_ms force_delay force_error verbose wt_api fh_ops
       object_flushes op_count read_ops write_ops fileq flushq].
  match goal with |- context [local_configure_int NUM config "force_delay" ?v] =>
    destruct (local_configure_int_cases NUM config "force_delay" v) as [[-> H2]|[-> _]] end;
    [|reflexivity].
  cbn [Z.eqb negb set_config delay_ms force_delay force_error verbose wt_api fh_ops
       object_flushes op_count read_ops write_ops fileq flushq].
  match goal with |- context [local_configure_int NUM config "force_error" ?v] =>
    destruct (local_configure_int_cases NUM config "force_error" v) as [[-> H3]|[-> _]] end;
    [|reflexivity].
  cbn [Z.eqb negb set_config delay_ms force_delay force_error verbose wt_api fh_ops
       object_flushes op_count read_ops write_ops fileq flushq].
  match goal with |- context [local_configure_int NUM config "verbose" ?v] =>
    destruct (local_configure_int_cases NUM config "verbose" v) as [[-> H4]|[-> _]] end;
    [|reflexivity].
  exfalso. simpl in Hin. destruct Hin as [<-|[<-|[<-|[<-|[]]]]]; tauto.
Qed.

Lemma init_rejects_configuration_witness :
  wiredtiger_extension_init 1 host_api (config_bad 1 "verbose") (fun _ => 0) = (EINVAL, None).
Proof.
  apply (init_rejects_configuration 1 host_api (config_bad 1 "verbose") (fun _ => 0) "verbose").
  - simpl. auto.
  - unfold config_ok, config_bad. simpl. intros [_ H]. discriminate.
Defined.

(** ** Handles and their descriptors *)

Lemma length_store (content : list byte) (offset : nat) (buf : list byte) :
  List.length (store content offset buf)
  = Nat.max (List.length content) (offset + List.length buf).
Proof.
  unfold store. rewrite !length_app, length_firstn, repeat_length, length_skipn. lia.
Qed.

(** After a write of a non-empty buffer, the size through the same handle is
    the larger of the size before and the end of the write, and a sync through
    it succeeds; each of the two counts as one handle operation. *)
Theorem write_then_handle_size (fuel : nat) (local : LOCAL_STORAGE) (w : world)
    (local_fh : LOCAL_FILE_HANDLE) (f : open_file) (offset : Z) (buf : list byte) :
  lookup_fd (w_fds w) (fd local_fh) = Some f -> writable f = true ->
  (of_ino f < List.length (w_data w))%nat ->
  0 <= offset -> buf <> [] ->
  (List.length buf + 2 <= fuel)%nat ->
  exists local' w',
    local_file_write fuel local w local_fh offset buf = Some (0, [], local', w')
    /\ local_file_size local' w' local_fh
       = (0, Some (Z.max (Z.of_nat (List.length (nth (of_ino f) (w_data w) [])))
                         (offset + Z.of_nat (List.length buf))),
          set_fh_ops local' (incr64 (fh_ops local')), w')
    /\ local_file_sync local' w' local_fh = (0, set_fh_ops local' (incr64 (fh_ops local')), w').
Proof.
  intros Hfd Hw Hino Hoff Hbuf Hfuel.
  destruct (write_loop_stores fuel w (fd local_fh) f offset buf Hfd Hw Hino Hoff Hfuel)
    as (w' & Ew & Hc & _ & _ & Hfds & _).
  exists (set_write_ops local (incr64 (write_ops local))), w'.
  split; [unfold local_file_write; now rewrite Ew|].
  unfold local_file_size, local_file_sync, sys_fstat, sys_fsync. rewrite Hfds, Hfd.
  split; [|reflexivity]. cbn [Z.eqb]. do 3 f_equal. rewrite Hc.
  destruct buf as [|x buf']; [congruence|]. rewrite length_store. f_equal. lia.
Qed.

(** Two bytes written past the end of an object of three bytes. *)
Lemma write_then_handle_size_witness :
  exists local' w',
    local_file_write 4 (local_init 0 0 0) world_writing example_handle 5 [x0a; x0b]
    = Some (0, [], local', w')
    /\ local_file_size local' w' example_handle
       = (0, Some (Z.max (Z.of_nat (List.length (nth (of_ino (mk_open_file 0 O_WRONLY))
                                                   (w_data world_writing) [])))
                         (5 + Z.of_nat (List.length [x0a; x0b]))),
          set_fh_ops local' (incr64 (fh_ops local')), w')
    /\ local_file_sync local' w' example_handle
       = (0, set_fh_ops local' (incr64 (fh_ops local')), w').
Proof.
  apply (write_then_handle_size 4 (local_init 0 0 0) world_writing example_handle
           (mk_open_file 0 O_WRONLY) 5 [x0a; x0b]);
    [reflexivity | reflexivity | simpl; lia | lia | discriminate | simpl; lia].
Defined.

Lemma read_loop_refused fuel w fd offset len :
  (2 <= fuel)%nat -> 0 < len ->
  match lookup_fd (w_fds w) fd with
  | Some f => readable f = false /\ is_directory f = false
  | None => True
  end ->
  read_loop fuel w fd 0 offset len []
  = Some (EBADF, [], log (set_errno w EBADF) (EvPread fd len offset (-1))).
Proof.
  intros Hfuel Hlen Hfd. destruct fuel as [|[|fuel]]; try lia.
  cbn [read_loop]. cbn [Z.eqb andb].
  replace (0 <? len) with true by (symmetry; now apply Z.ltb_lt).
  unfold sys_pread. destruct (lookup_fd (w_fds w) fd) as [f|]; [|reflexivity].
  destruct Hfd as [-> ->]. reflexivity.
Qed.

Lemma write_loop_refused fuel w fd offset buf :
  (2 <= fuel)%nat -> buf <> [] ->
  match lookup_fd (w_fds w) fd with Some f => writable f = false | None => True end ->
  write_loop fuel w fd 0 offset buf
  = Some (EBADF, buf,
          log (set_errno w EBADF) (EvPwrite fd (Z.of_nat (List.length buf)) offset (-1))).
Proof.
  intros Hfuel Hbuf Hfd. destruct fuel as [|[|fuel]]; try lia.
  cbn [write_loop]. cbn [Z.eqb andb].
  replace (0 <? Z.of_nat (List.length buf)) with true
    by (symmetry; apply Z.ltb_lt; destruct buf; [congruence | simpl; lia]).
  unfold sys_pwrite. destruct (lookup_fd (w_fds w) fd) as [f|]; [rewrite Hfd|]; reflexivity.
Qed.

(** The handle of a create is write-only: a read of at least one byte
    through it fails with [EBADF], returns no byte and changes no file. *)
Theorem created_handle_is_write_only (WT_SS_OPEN_CREATE WT_SS_OPEN_READONLY : Z)
    (fuel : nat) (local : LOCAL_STORAGE) (w : world) (location : LOCAL_LOCATION)
    (name : string) (ofh : option LOCAL_FILE_HANDLE) (local1 : LOCAL_STORAGE) (w1 : world)
    (offset len : Z) :
  local_open WT_SS_OPEN_CREATE WT_SS_OPEN_READONLY local w location name WT_SS_OPEN_CREATE
  = Done (0, ofh, local1, w1) ->
  (2 <= fuel)%nat -> 0 < len ->
  exists fh w2,
    ofh = Some fh
    /\ local_file_read fuel local1 w1 fh offset len
       = Some (EBADF, [], set_read_ops local1 (incr64 (read_ops local1)), w2)
    /\ w_data w2 = w_data w1 /\ w_dirs w2 = w_dirs w1 /\ w_fds w2 = w_fds w1.
Proof.
  intros Hopen Hfuel Hlen.
  destruct (local_open_created _ _ _ _ _ _ _ _ _ Hopen)
    as (fh & ino & -> & _ & _ & _ & _ & _ & Hfds & _).
  eexists fh, _. split; [reflexivity|]. unfold local_file_read.
  rewrite read_loop_refused; [now repeat split | exact Hfuel | exact Hlen |].
  rewrite Hfds. simpl. rewrite Z.eqb_refl. now split.
Qed.

Lemma created_handle_is_write_only_witness :
  exists fh w2,
    Some example_handle = Some fh
    /\ local_file_read 2 (example_opened 0) world_created fh 0 1
       = Some (EBADF, [], set_read_ops (example_opened 0) (incr64 (read_ops (example_opened 0))),
               w2)
    /\ w_data w2 = w_data world_created /\ w_dirs w2 = w_dirs world_created
    /\ w_fds w2 = w_fds world_created.
Proof.
  apply (created_handle_is_write_only 1 2 2 (local_init 0 0 0) (bucket_world "bkt")
           example_location "obj" (Some example_handle) (example_opened 0) world_created 0 1);
    [reflexivity | lia | lia].
Defined.

(** The handle of a read-only open is read-only: a write of at least one
    byte through it fails with [EBADF], writes nothing and changes no file. *)
Theorem readonly_handle_rejects_writes (WT_SS_OPEN_CREATE WT_SS_OPEN_READONLY : Z)
    (fuel : nat) (local : LOCAL_STORAGE) (w : world) (location : LOCAL_LOCATION)
    (name : string) (ino : nat) (offset : Z) (buf : list byte) :
  WT_SS_OPEN_READONLY <> WT_SS_OPEN_CREATE ->
  resolve w (local_location_path location name None) = Some ino ->
  (2 <= fuel)%nat -> buf <> [] ->
  exists fh local1 w1 w2,
    local_open WT_SS_OPEN_CREATE WT_SS_OPEN_READONLY local w location name
      WT_SS_OPEN_READONLY
    = Done (0, Some fh, local1, w1)
    /\ local_file_write fuel local1 w1 fh offset buf
       = Some (EBADF, buf, set_write_ops local1 (incr64 (write_ops local1)), w2)
    /\ w_data w2 = w_data w /\ w_dirs w2 = w_dirs w.
Proof.
  intros Hne Hino Hfuel Hbuf.
  destruct (local_open_readonly WT_SS_OPEN_CREATE WT_SS_OPEN_READONLY local w location name
              ino Hne Hino) as (fh & w1 & Hopen & _ & Hfds & Hdirs & Hdata).
  eexists fh, _, w1, _. split; [exact Hopen|]. unfold local_file_write.
  rewrite write_loop_refused; [now repeat split | exact Hfuel | exact Hbuf |].
  rewrite Hfds. simpl. now rewrite Z.eqb_refl.
Qed.

Lemma readonly_handle_rejects_writes_witness :
  exists fh local1 w1 w2,
    local_open 1 2 (local_init 0 0 0) world_reading example_location "obj" 2
    = Done (0, Some fh, local1, w1)
    /\ local_file_write 2 local1 w1 fh 0 [x0a]
       = Some (EBADF, [x0a], set_write_ops local1 (incr64 (write_ops local1)), w2)
    /\ w_data w2 = w_data world_reading /\ w_dirs w2 = w_dirs world_reading.
Proof.
  apply (readonly_handle_rejects_writes 1 2 2 (local_init 0 0 0) world_reading
           example_location "obj" 0%nat 0 [x0a]); [lia | reflexivity | lia | discriminate].
Defined.

(** ** The order of a create *)

Transparent sys_open.

(** An [open] that may create the file fails exactly when the directory of
    the path is not there. *)
Lemma sys_open_creat w p oflags mode :
  Z.land oflags O_CREAT <> 0 ->
  (lookup_dir (w_dirs w) (fst (dir_base p)) = None /\ fst (sys_open w p oflags mode) = -1)
  \/ (lookup_dir (w_dirs w) (fst (dir_base p)) <> None /\ 0 <= fst (sys_open w p oflags mode)).
Proof.
  intros Hc. apply Z.eqb_neq in Hc. unfold sys_open.
  pose proof (alloc_fd_nonneg (w_fds w)) as Hfd.
  destruct (dir_base p) as [d b]. cbn [fst].
  destruct (lookup_dir (w_dirs w) d) as [ents|]; [right | left; now split].
  split; [discriminate|]. destruct (lookup_ent ents b); [exact Hfd|].
  now rewrite Hc.
Qed.

Opaque sys_open.

Lemma sys_pwrite_dirs w fd buf offset :
  w_dirs (snd (sys_pwrite w fd buf offset)) = w_dirs w.
Proof.
  unfold sys_pwrite. destruct (lookup_fd (w_fds w) fd) as [f|]; [|reflexivity].
  destruct (negb (writable f)); [reflexivity|].
  destruct (offset <? 0); reflexivity.
Qed.

(** A write through a handle, whatever it returns, changes no directory. *)
Lemma write_loop_dirs fuel :
  forall w fd ret offset buf r rest w',
    write_loop fuel w fd ret offset buf = Some (r, rest, w') -> w_dirs w' = w_dirs w.
Proof.
  induction fuel as [|fuel IH]; intros w fd ret offset buf r rest w'; [discriminate|].
  cbn [write_loop]. destruct ((ret =? 0) && (0 <? Z.of_nat (List.length buf))).
  - pose proof (sys_pwrite_dirs w fd buf offset) as D.
    destruct (sys_pwrite w fd buf offset) as [nbytes w1]. cbn [snd] in D.
    destruct (nbytes <? 0); intros E; apply IH in E; congruence.
  - now intros [= _ _ <-].
Qed.

Lemma write_run_dirs fuel fh ops :
  forall local w, Forall (fun wi => w_dirs wi = w_dirs w) (write_run fuel local w fh ops).
Proof.
  induction ops as [|[offset buf] ops IH]; intros local w; [constructor|].
  cbn [write_run]. unfold local_file_write.
  destruct (write_loop fuel w (fd fh) 0 offset buf) as [[[r rest] w1]|] eqn:E; [|constructor].
  apply write_loop_dirs in E. constructor; [exact E|].
  eapply Forall_impl; [|apply IH]. intros wi Hi. simpl in Hi. congruence.
Qed.

(** What a create does, by whether the directories of the marker path and
    of the temp path are there. *)
Lemma local_open_create_order (WT_SS_OPEN_CREATE WT_SS_OPEN_READONLY : Z)
    (local : LOCAL_STORAGE) (w : world) (location : LOCAL_LOCATION) (name : string) :
  let marker := local_location_path location name (Some MARKER_NEED_FLUSH) in
  let temp := local_location_path location name (Some MARKER_TEMPORARY) in
  let oflags := Z.lor O_WRONLY O_CREAT in
  (lookup_dir (w_dirs w) (fst (dir_base marker)) = None ->
   exists r w',
     local_open WT_SS_OPEN_CREATE WT_SS_OPEN_READONLY local w location name
       WT_SS_OPEN_CREATE
     = Done (missing_errno w marker, None,
             set_op_count local (incr64 (op_count local)), w')
     /\ w_log w' = w_log w ++ [EvOpen marker oflags 438 (-1); EvClose 0 r]
     /\ w_dirs w' = w_dirs w /\ w_data w' = w_data w)
  /\ (lookup_dir (w_dirs w) (fst (dir_base marker)) <> None ->
      exists mfd w2 tfd w3,
        0 <= mfd
        /\ w_log w2 = w_log w ++ [EvOpen marker oflags 438 mfd; EvClose mfd 0]
        /\ path_exists w2 marker = true
        /\ w_fds w2 = w_fds w
        /\ sys_open w2 temp oflags 292 = (tfd, w3)
        /\ w_log w3 = w_log w2 ++ [EvOpen temp oflags 292 tfd]
        /\ path_exists w3 marker = true
        /\ (lookup_dir (w_dirs w) (fst (dir_base temp)) <> None ->
            0 <= tfd
            /\ exists fh,
                 local_open WT_SS_OPEN_CREATE WT_SS_OPEN_READONLY local w location name
                   WT_SS_OPEN_CREATE
                 = Done (0, Some fh,
                         set_fileq (set_op_count local (incr64 (op_count local)))
                           (fh :: fileq local), w3)
                 /\ fd fh = tfd /\ temp_path fh = Some temp
                 /\ path_exists w3 temp = true)
        /\ (lookup_dir (w_dirs w) (fst (dir_base temp)) = None ->
            tfd = -1
            /\ exists r w',
                 local_open WT_SS_OPEN_CREATE WT_SS_OPEN_READONLY local w location name
                   WT_SS_OPEN_CREATE
                 = Done (missing_errno w2 temp, None,
                         set_op_count local (incr64 (op_count local)), w')
                 /\ w_log w' = w_log w3 ++ [EvClose 0 r]
                 /\ path_exists w' marker = true)).
Proof.
  intros marker temp oflags. subst oflags. change (Z.lor O_WRONLY O_CREAT) with 65.
  assert (Z.land 65 O_CREAT <> 0) as Hcreat by discriminate.
  pose proof (sys_open_creat w marker 65 438 Hcreat) as C1.
  pose proof (sys_open_cases w marker 65 438) as Hm.
  pose proof (sys_open_log w marker 65 438) as Lm.
  assert (forall d, lookup_dir (w_dirs (snd (sys_open w marker 65 438))) d = None
                    <-> lookup_dir (w_dirs w) d = None) as Km
    by (intros d; apply sys_open_keeps_dirs).
  unfold local_open, local_file_close_internal. rewrite Z.eqb_refl. simpl.
  fold marker. fold temp.
  destruct (sys_open w marker 65 438) as [mfd w1]. cbn [fst snd] in *.
  split; intros Hdir.
  - destruct C1 as [[_ ->]|[Hd _]]; [|contradiction].
    destruct Hm as [(_ & Herr & _ & Hd1 & _ & Hdata1)|(_ & ino & Hr & _)].
    2:{ exfalso. unfold resolve in Hr. destruct (dir_base marker) as [d b].
        cbn [fst] in Hdir. apply Km in Hdir. now rewrite Hdir in Hr. }
    change (-1 <? 0) with true. cbv iota.
    pose proof (sys_close_effect w1 0) as [Lc Dc].
    pose proof (sys_close_cases w1 0) as (_ & _ & Hdata2 & _).
    destruct (sys_close w1 0) as [r w2]. cbn [fst snd bind] in *.
    exists r, w2. rewrite Herr. split; [reflexivity|].
    split; [rewrite Lc, Lm, <- app_assoc; reflexivity|].
    split; congruence.
  - destruct C1 as [[Hd _]|[_ Hmfd]]; [contradiction|].
    destruct Hm as [(Hneg & _)|(_ & ino & Hr & Hfds1 & _)]; [lia|].
    replace (mfd <? 0) with false by (symmetry; now apply Z.ltb_ge).
    pose proof (sys_close_effect w1 mfd) as [Lc Dc].
    pose proof (sys_close_cases w1 mfd) as (Hfds2 & _ & Hdata2 & Hres).
    destruct (sys_close w1 mfd) as [r w2]. cbn [fst snd] in *.
    assert (r = 0) as ->.
    { destruct Hres as [[_ E]|(Hnone & _)]; [exact E|].
      rewrite Hfds1 in Hnone. simpl in Hnone. now rewrite Z.eqb_refl in Hnone. }
    change (0 <? 0) with false. cbv iota.
    assert (path_exists w2 marker = true) as Hx2.
    { rewrite (path_exists_dirs w1 w2 marker Dc). unfold path_exists. now rewrite Hr. }
    pose proof (sys_open_creat w2 temp 65 292 Hcreat) as C3.
    pose proof (sys_open_cases w2 temp 65 292) as Ht.
    pose proof (sys_open_log w2 temp 65 292) as Lt.
    pose proof (sys_open_keeps w2 temp 65 292 marker Hx2) as Kt.
    assert (lookup_dir (w_dirs w2) (fst (dir_base temp)) = None
            <-> lookup_dir (w_dirs w) (fst (dir_base temp)) = None) as Kd
      by (rewrite Dc; apply Km).
    destruct (sys_open w2 temp 65 292) as [tfd w3] eqn:E3. cbn [fst snd] in *.
    exists mfd, w2, tfd, w3.
    split; [exact Hmfd|].
    split; [rewrite Lc, Lm, <- app_assoc; reflexivity|].
    split; [exact Hx2|].
    split; [rewrite Hfds2, Hfds1; simpl; now rewrite Z.eqb_refl|].
    split; [exact E3|]. split; [exact Lt|]. split; [exact Kt|].
    split; intros Htdir.
    + destruct C3 as [[Hd _]|[_ Htfd]]; [apply Kd in Hd; contradiction|].
      split; [exact Htfd|].
      replace (tfd <? 0) with false by (symmetry; now apply Z.ltb_ge).
      eexists. split; [reflexivity|]. cbn [fd temp_path].
      split; [reflexivity|]. split; [reflexivity|].
      destruct Ht as [(Hneg & _)|(_ & tino & Htr & _)]; [lia|].
      unfold path_exists. now rewrite Htr.
    + destruct C3 as [[_ ->]|[Hd _]]; [|apply Kd in Htdir; contradiction].
      split; [reflexivity|].
      destruct Ht as [(_ & Herr & _)|(Hpos & _)]; [|lia].
      change (-1 <? 0) with true. cbv iota.
      pose proof (sys_close_effect w3 0) as [Lc3 Dc3].
      destruct (sys_close w3 0) as [r3 w4]. cbn [fst snd bind] in *.
      exists r3, w4. rewrite Herr.
      split; [reflexivity|]. split; [exact Lc3|].
      now rewrite (path_exists_dirs w3 w4 marker Dc3).
Qed.

(** C7, as stated, fails: the marker does not stay on disk for as long as
    bytes can be written to the temp file.  Create the object, close the
    handle, and create the object again: the marker is on disk and the record
    of the first create is in the flush queue.  A flush of the object now
    matches that record and unlinks the marker, while the handle of the second
    create is open: a write through it stores a byte in the temp file, and no
    marker is on disk. *)
Lemma flush_drops_marker_of_open_handle :
  exists l1 w1 l2 w2 l3 w3 l4 w4 l5 w5,
    local_open 1 2 (local_init 0 0 0) (bucket_world "bkt") example_location "obj" 1
    = Done (0, Some example_handle, l1, w1)
    /\ local_file_close l1 w1 example_handle = Done (0, l2, w2)
    /\ local_open 1 2 l2 w2 example_location "obj" 1
       = Done (0, Some example_handle, l3, w3)
    /\ path_exists w3 "bkt/FLUSH_c_obj" = true
    /\ local_flush l3 w3 (Some example_location) (Some "obj") = Done (0, l4, w4)
    /\ path_exists w4 "bkt/FLUSH_c_obj" = false
    /\ resolve w4 "bkt/TEMP_c_obj" = Some 2%nat
    /\ lookup_fd (w_fds w4) (fd example_handle)
       = Some (mk_open_file 2 (Z.lor O_WRONLY O_CREAT))
    /\ local_file_write 3 l4 w4 example_handle 0 [x01] = Some (0, [], l5, w5)
    /\ nth 2 (w_data w5) [] = [x01].
Proof.
  eexists _, _, _, _, _, _, _, _, _, _.
  repeat (split; [vm_compute; reflexivity|]). vm_compute. reflexivity.
Qed.

(** C7, amended.  A create makes its system calls in this order: it creates
    the zero-byte [FLUSH_] marker file, closes its descriptor, and only then
    opens the [TEMP_] file, in a world where the marker is on disk.  When the
    directory of the marker path is not there the creation of the marker
    fails: the create returns the [errno], no handle, and has made the failed
    [open] of the marker and a [close], and no [open] of the temp path.  When
    it is there the marker is created and its descriptor closed; then, when
    the directory of the temp path is there, the temp file is opened and the
    create returns [0] and a handle on it, the marker is on disk, and it stays
    on disk through every sequence of writes through the handle; when the
    directory of the temp path is not there the create returns the [errno]
    and no handle, and the marker stays on disk. *)
Theorem create_marker_before_temp (WT_SS_OPEN_CREATE WT_SS_OPEN_READONLY : Z)
    (local : LOCAL_STORAGE) (w : world) (location : LOCAL_LOCATION) (name : string) :
  let marker := local_location_path location name (Some MARKER_NEED_FLUSH) in
  let temp := local_location_path location name (Some MARKER_TEMPORARY) in
  let oflags := Z.lor O_WRONLY O_CREAT in
  (lookup_dir (w_dirs w) (fst (dir_base marker)) = None ->
   exists r w',
     local_open WT_SS_OPEN_CREATE WT_SS_OPEN_READONLY local w location name
       WT_SS_OPEN_CREATE
     = Done (missing_errno w marker, None,
             set_op_count local (incr64 (op_count local)), w')
     /\ w_log w' = w_log w ++ [EvOpen marker oflags 438 (-1); EvClose 0 r]
     /\ w_dirs w' = w_dirs w /\ w_data w' = w_data w)
  /\ (lookup_dir (w_dirs w) (fst (dir_base marker)) <> None ->
      exists mfd w2 tfd w3,
        0 <= mfd
        /\ w_log w2 = w_log w ++ [EvOpen marker oflags 438 mfd; EvClose mfd 0]
        /\ path_exists w2 marker = true
        /\ w_fds w2 = w_fds w
        /\ sys_open w2 temp oflags 292 = (tfd, w3)
        /\ w_log w3 = w_log w2 ++ [EvOpen temp oflags 292 tfd]
        /\ path_exists w3 marker = true
        /\ (lookup_dir (w_dirs w) (fst (dir_base temp)) <> None ->
            0 <= tfd
            /\ exists fh,
                 local_open WT_SS_OPEN_CREATE WT_SS_OPEN_READONLY local w location name
                   WT_SS_OPEN_CREATE
                 = Done (0, Some fh,
                         set_fileq (set_op_count local (incr64 (op_count local)))
                           (fh :: fileq local), w3)
                 /\ fd fh = tfd /\ temp_path fh = Some temp
                 /\ path_exists w3 temp = true
                 /\ forall fuel l ops,
                      Forall (fun wi => path_exists wi marker = true)
                        (write_run fuel l w3 fh ops))
        /\ (lookup_dir (w_dirs w) (fst (dir_base temp)) = None ->
            tfd = -1
            /\ exists r w',
                 local_open WT_SS_OPEN_CREATE WT_SS_OPEN_READONLY local w location name
                   WT_SS_OPEN_CREATE
                 = Done (missing_errno w2 temp, None,
                         set_op_count local (incr64 (op_count local)), w')
                 /\ w_log w' = w_log w3 ++ [EvClose 0 r]
                 /\ path_exists w' marker = true)).
Proof.
  intros marker temp oflags.
  destruct (local_open_create_order WT_SS_OPEN_CREATE WT_SS_OPEN_READONLY local w
              location name) as [Hfail Hok].
  split; [exact Hfail|]. intros Hdir.
  destruct (Hok Hdir) as (mfd & w2 & tfd & w3 & H1 & H2 & H3 & H4 & H5 & H6 & H7 & Hs & Hf).
  exists mfd, w2, tfd, w3. repeat (split; [assumption|]).
  split; [|exact Hf]. intros Htemp.
  destruct (Hs Htemp) as (Hpos & fh & E & Hfd & Htp & Hx).
  split; [exact Hpos|]. exists fh. repeat (split; [assumption|]).
  intros fuel l ops. eapply Forall_impl; [|apply write_run_dirs].
  intros wi Hwi. cbv beta in Hwi. now rewrite (path_exists_dirs w3 wi marker Hwi).
Qed.

(** The create of the examples, in the empty bucket. *)
Lemma create_marker_before_temp_witness :
  exists mfd w2 tfd w3 fh,
    0 <= mfd /\ 0 <= tfd
    /\ w_log w2 = [EvOpen "bkt/FLUSH_c_obj" 65 438 mfd; EvClose mfd 0]
    /\ path_exists w2 "bkt/FLUSH_c_obj" = true
    /\ w_log w3 = w_log w2 ++ [EvOpen "bkt/TEMP_c_obj" 65 292 tfd]
    /\ local_open 1 2 (local_init 0 0 0) (bucket_world "bkt") example_location "obj" 1
       = Done (0, Some fh,
               set_fileq (set_op_count (local_init 0 0 0)
                            (incr64 (op_count (local_init 0 0 0))))
                 (fh :: fileq (local_init 0 0 0)), w3)
    /\ fd fh = tfd
    /\ forall fuel l ops,
         Forall (fun wi => path_exists wi "bkt/FLUSH_c_obj" = true)
           (write_run fuel l w3 fh ops).
Proof.
  destruct (create_marker_before_temp 1 2 (local_init 0 0 0) (bucket_world "bkt")
              example_location "obj") as [_ Hok].
  destruct (Hok ltac:(discriminate))
    as (mfd & w2 & tfd & w3 & H1 & H2 & H3 & _ & _ & H6 & _ & Hs & _).
  destruct (Hs ltac:(discriminate)) as (Hpos & fh & E & Hfd & _ & _ & Hrun).
  exists mfd, w2, tfd, w3, fh.
  split; [exact H1|]. split; [exact Hpos|]. split; [exact H2|]. split; [exact H3|].
  split; [exact H6|]. split; [exact E|]. split; [exact Hfd|]. exact Hrun.
Defined.
